(** * pytorch_points: batched geometric operators, verified against their specification

    A shallow embedding of [pytorch_points/network/operations.py] and
    [pytorch_points/network/geo_operations.py].

    Numbers.  A torch float is modelled as a real number.  The nearest
    neighbour search ([NeighborSearch]) takes the rounding of its arithmetic
    as a parameter ([Rounding]: float32, or none), because what it selects
    depends on it; the other functions are read in exact arithmetic, without
    rounding or overflow.  Where the source divides, takes a square root
    or an arc sine, the result can be non-finite (nan, +inf, -inf): such
    values are the single value [None] of [fl := option R].  Every comparison
    the embedded functions make on a possibly non-finite value has the same
    outcome for nan and for the infinities, or selects between two values
    that are not finite either way (see [Fl]), so merging them loses nothing
    here.

    Tensors.  A tensor is a shape and a total function from multi-indices to
    elements ([Tensor.tensor]); only the indices inside the shape are
    meaningful.  Vectorised code is read elementwise: a definition named
    after a source variable takes the indices of the element it computes. *)

From Stdlib Require Import Reals Machin Lra Lia List Bool Arith ZArith Psatz.
From Stdlib Require Import Permutation Sorted.
From Stdlib Require String.
Import ListNotations.
Import String.StringSyntax.
Delimit Scope string_scope with string.
Open Scope R_scope.

Set Implicit Arguments.

(* ================================================================== *)
(** * Part I: definitions *)
(* ================================================================== *)

(** ** Exceptions *)

Inductive exn : Type :=
| RuntimeError     (* raised by torch / numpy / scipy primitives *)
| AssertionError   (* a failed [assert] of the source *)
| IndexError       (* python list index out of range *)
| ValueError       (* python unpacking of a wrong number of values *)
| NameError.       (* a name bound neither in the function, nor in its module,
                      nor among the builtins *)

Inductive result (A : Type) : Type :=
| Ok (a : A)
| Raise (e : exn).

Arguments Ok {A} a.
Arguments Raise {A} e.

Definition bind {A B : Type} (r : result A) (k : A -> result B) : result B :=
  match r with
  | Ok a => k a
  | Raise e => Raise e
  end.

Notation "x <- r ;; k" := (bind r (fun x => k))
  (at level 61, r at next level, right associativity).

Definition assert_ (b : bool) : result unit :=
  if b then Ok tt else Raise AssertionError.

(** ** Floats *)

Module Fl.

(** [Some x] is the finite value [x]; [None] is nan or an infinity. *)
Definition fl : Type := option R.

Definition lift1 (f : R -> R) (x : fl) : fl := option_map f x.

Definition lift2 (f : R -> R -> R) (x y : fl) : fl :=
  match x, y with
  | Some a, Some b => Some (f a b)
  | _, _ => None
  end.

Definition fadd : fl -> fl -> fl := lift2 Rplus.
Definition fsub : fl -> fl -> fl := lift2 Rminus.
Definition fmul : fl -> fl -> fl := lift2 Rmult.
Definition fneg : fl -> fl := lift1 Ropp.
Definition fabs : fl -> fl := lift1 Rabs.
Definition fsin : fl -> fl := lift1 sin.

(** [x / 0] is an infinity or nan. *)
Definition fdiv (x y : fl) : fl :=
  match x, y with
  | Some a, Some b => if Req_dec_T b 0 then None else Some (a / b)
  | _, _ => None
  end.

(** [sqrt] of a negative number is nan. *)
Definition fsqrt (x : fl) : fl :=
  match x with
  | Some a => if Rlt_dec a 0 then None else Some (sqrt a)
  | None => None
  end.

(** [asin] outside [[-1, 1]] is nan. *)
Definition fasin (x : fl) : fl :=
  match x with
  | Some a =>
      if Rle_dec (-1) a then if Rle_dec a 1 then Some (asin a) else None
      else None
  | None => None
  end.

Definition is_finite (x : fl) : bool :=
  match x with Some _ => true | None => false end.

(** Comparisons against a finite bound.  On nan they are [false]; the
    embedded code applies [<], [<=] and [==] to values that, when not
    finite, are nan or make the result nan either way. *)
Definition flt (x : fl) (c : R) : bool :=
  match x with Some a => if Rlt_dec a c then true else false | None => false end.
Definition fle (x : fl) (c : R) : bool :=
  match x with Some a => if Rle_dec a c then true else false | None => false end.
Definition fge (x : fl) (c : R) : bool :=
  match x with Some a => if Rle_dec c a then true else false | None => false end.
Definition feqb (x : fl) (c : R) : bool :=
  match x with Some a => if Req_dec_T a c then true else false | None => false end.

(** [torch.sign]. *)
Definition sign (a : R) : R :=
  if Rlt_dec 0 a then 1 else if Rlt_dec a 0 then -1 else 0.

(** Sum of a list of floats, left to right from [0]. *)
Definition fsum (l : list fl) : fl := fold_left fadd l (Some 0).

End Fl.
Import Fl.

(** Real sum of a list. *)
Definition Rsum (l : list R) : R := fold_right Rplus 0 l.

(** The element types that tensors are accumulated over. *)
Class Elem (A : Type) : Type := { ezero : A; eone : A; eadd : A -> A -> A }.

#[export] Instance Elem_R : Elem R := { ezero := 0; eone := 1; eadd := Rplus }.
#[export] Instance Elem_fl : Elem fl := { ezero := Some 0; eone := Some 1; eadd := fadd }.

(** ** Tensors *)

Module Tensor.

Record tensor (A : Type) : Type := mkTensor
  { shape : list nat;            (* [t.size()] *)
    get : list nat -> A }.       (* [t[i0, i1, ...]] *)

(** All multi-indices of a shape, in row-major order. *)
Fixpoint indices (sh : list nat) : list (list nat) :=
  match sh with
  | [] => [[]]
  | n :: sh' => flat_map (fun i => map (cons i) (indices sh')) (seq 0 n)
  end.

(** [I] with its component [d] replaced by [v] (unchanged when [d] is
    outside [I]). *)
Fixpoint set_nth (d : nat) (v : nat) (I : list nat) {struct I} : list nat :=
  match I, d with
  | [], _ => []
  | _ :: I', O => v :: I'
  | i :: I', S d' => i :: set_nth d' v I'
  end.

Definition index_eqb (I J : list nat) : bool :=
  if list_eq_dec Nat.eq_dec I J then true else false.

(** Pointwise update of an element function. *)
Definition upd {A : Type} (g : list nat -> A) (J : list nat) (v : A)
  : list nat -> A :=
  fun K => if index_eqb K J then v else g K.

(** [torch.full(size, fill)]. *)
Definition full {A : Type} (size : list nat) (fill : A) : tensor A :=
  mkTensor size (fun _ => fill).

(** All elements, in row-major order. *)
Definition elements {A : Type} (t : tensor A) : list A :=
  map (get t) (indices (shape t)).

(** [t.max()] of an integer tensor; [None] when it has no element. *)
Definition tmax (t : tensor Z) : option Z :=
  match elements t with
  | [] => None
  | x :: l => Some (fold_left Z.max l x)
  end.

(** Componentwise [<=] of two shapes of the same rank. *)
Fixpoint shape_le (s1 s2 : list nat) : bool :=
  match s1, s2 with
  | [], [] => true
  | a :: s1', b :: s2' => (a <=? b)%nat && shape_le s1' s2'
  | _, _ => false
  end.

(** Componentwise [<=] except at component [d]. *)
Fixpoint shape_le_except (d : nat) (s1 s2 : list nat) {struct s1} : bool :=
  match s1, s2 with
  | [], [] => true
  | a :: s1', b :: s2' =>
      match d with
      | O => shape_le s1' s2'
      | S d' => (a <=? b)%nat && shape_le_except d' s1' s2'
      end
  | _, _ => false
  end.

(** Every entry of the index tensor lies in [[0, n)]. *)
Definition index_in_range (idx : tensor Z) (n : nat) : bool :=
  forallb (fun v => (0 <=? v)%Z && (v <? Z.of_nat n)%Z) (elements idx).

(** The position an element of [src] at [I] is sent to. *)
Definition target (dim : nat) (idx : tensor Z) (I : list nat) : list nat :=
  set_nth dim (Z.to_nat (get idx I)) I.

(** The positions of the index tensor that are sent to [J], in order. *)
Definition scattered_to (dim : nat) (idx : tensor Z) (J : list nat)
  : list (list nat) :=
  filter (fun I => index_eqb J (target dim idx I)) (indices (shape idx)).

Section Ops.
Context {A : Type} `{Elem A}.

(** [self.scatter_add_(dim, index, src)]: for every position [I] of
    [index], in order, [self[target I] += src[I]]. *)
Definition scatter_add_ (self : tensor A) (dim : nat) (index : tensor Z)
           (src : tensor A) : result (tensor A) :=
  if (dim <? length (shape self))%nat
     && shape_le (shape index) (shape src)
     && shape_le_except dim (shape index) (shape self)
     && index_in_range index (nth dim (shape self) O)
  then
    Ok (mkTensor (shape self)
          (fold_left
             (fun g I => upd g (target dim index I)
                             (eadd (g (target dim index I)) (get src I)))
             (indices (shape index)) (get self)))
  else Raise RuntimeError.

(** [torch.gather(input, dim, index)]: [out[I] = input[target I]]. *)
Definition gather (input : tensor A) (dim : nat) (index : tensor Z)
  : result (tensor A) :=
  if (dim <? length (shape input))%nat
     && shape_le_except dim (shape index) (shape input)
     && index_in_range index (nth dim (shape input) O)
  then Ok (mkTensor (shape index)
             (fun I => get input (target dim index I)))
  else Raise RuntimeError.

End Ops.

End Tensor.
Import Tensor.

(** ** operations.py: gather and scatter-add *)

Module GatherScatter.

Section Generic.
Context {A : Type} `{Elem A}.

(** What [ScatterAdd.forward] saves on [ctx] for the backward pass. *)
Record ScatterAdd_ctx : Type := mkScatterCtx
  { saved_idx : tensor Z; ctx_dim : nat }.

(** [ScatterAdd.forward(ctx, src, idx, dim, out_size, fill)]. *)
Definition ScatterAdd_forward (src : tensor A) (idx : tensor Z) (dim : nat)
           (out_size : list nat) (fill : A)
  : result (tensor A * ScatterAdd_ctx) :=
  let out := full out_size fill in
  out <- scatter_add_ out dim idx src ;;
  Ok (out, mkScatterCtx idx dim).

(** [ScatterAdd.backward(ctx, ograd)]: one gradient per forward input
    [(src, idx, dim, out_size, fill)]; [None] is python's [None]. *)
Definition ScatterAdd_backward (ctx : ScatterAdd_ctx) (ograd : tensor A)
  : result (tensor A * option (tensor A) * option (tensor A)
            * option (tensor A) * option (tensor A)) :=
  grad <- gather ograd (ctx_dim ctx) (saved_idx ctx) ;;
  Ok (grad, None, None, None, None).

(** [_scatter_add = ScatterAdd.apply]. *)
Definition _scatter_add (src : tensor A) (idx : tensor Z) (dim : nat)
           (out_size : list nat) (fill : A) : result (tensor A) :=
  r <- ScatterAdd_forward src idx dim out_size fill ;; Ok (fst r).

(** [scatter_add(src, idx, dim, out_size=None, fill=0.0)].  With no
    [out_size], the output has the sizes of [src] except along [dim],
    where it has [idx.max() + 1]. *)
Definition scatter_add (src : tensor A) (idx : tensor Z) (dim : nat)
           (out_size : option (list nat)) (fill : A) : result (tensor A) :=
  match out_size with
  | Some out_size => _scatter_add src idx dim out_size fill
  | None =>
      let out_size := shape src in
      match tmax idx with
      | None => Raise RuntimeError           (* max of an empty tensor *)
      | Some m =>
          let dim_size := (m + 1)%Z in
          if (dim <? length out_size)%nat then
            if (dim_size <? 0)%Z then Raise RuntimeError   (* negative size *)
            else _scatter_add src idx dim
                   (set_nth dim (Z.to_nat dim_size) out_size) fill
          else Raise IndexError
      end
  end.

(** Modelled from the spec: the native kernel [sampling.gather_forward]
    of the extension module [_ext], which is not part of the sources.
    The spec gives it as [(B,C,N,npoint, features, idx) -> output],
    selecting for each batch and output position the feature column at
    the given index.  It fills the buffer [output]. *)
Definition sampling_gather_forward (B C N npoint : nat)
           (features : tensor A) (idx : tensor Z) (output : tensor A)
  : tensor A :=
  mkTensor (shape output)
    (fold_left
       (fun g I =>
          match I with
          | [b; c; m] =>
              upd g I (get features [b; c; Z.to_nat (get idx [b; m])])
          | _ => g
          end)
       (indices [B; C; npoint]) (get output)).

(** Modelled from the spec: the native kernel [sampling.gather_backward]
    of [_ext].  The spec gives it as [(grad_out, idx, N) ->
    grad_features], a scatter-add of the incoming gradient back to the
    [N] positions named by [idx], accumulating when an index repeats.
    It accumulates into the buffer [grad_features]. *)
Definition sampling_gather_backward (B C N npoint : nat)
           (grad_out : tensor A) (idx : tensor Z) (grad_features : tensor A)
  : tensor A :=
  mkTensor (shape grad_features)
    (fold_left
       (fun g I =>
          match I with
          | [b; c; m] =>
              let J := [b; c; Z.to_nat (get idx [b; m])] in
              upd g J (eadd (g J) (get grad_out I))
          | _ => g
          end)
       (indices [B; C; npoint]) (get grad_features)).

(** What [GatherFunction.forward] saves on [ctx]. *)
Record Gather_ctx : Type := mkGatherCtx
  { saved_tensors : tensor Z; ctx_C : nat; ctx_N : nat }.

(** [GatherFunction.forward(ctx, features, idx)]: [features] is
    [(B, C, N)], [idx] is [(B, npoint)], the result is [(B, C, npoint)]. *)
Definition GatherFunction_forward (features : tensor A) (idx : tensor Z)
  : result (tensor A * Gather_ctx) :=
  match shape idx with
  | [B; npoint] =>
      match shape features with
      | [_; C; N] =>
          let output := full [B; C; npoint] ezero in   (* torch.empty *)
          let output :=
            sampling_gather_forward B C N npoint features idx output in
          Ok (output, mkGatherCtx idx C N)
      | _ => Raise ValueError
      end
  | _ => Raise ValueError
  end.

(** [GatherFunction.backward(ctx, grad_out)]: the gradient of
    [features], and [None] for [idx]. *)
Definition GatherFunction_backward (ctx : Gather_ctx) (grad_out : tensor A)
  : result (tensor A * option (tensor A)) :=
  let idx := saved_tensors ctx in
  match shape idx with
  | [B; npoint] =>
      let grad_features := full [B; ctx_C ctx; ctx_N ctx] ezero in
      let grad_features :=
        sampling_gather_backward B (ctx_C ctx) (ctx_N ctx) npoint
          grad_out idx grad_features in
      Ok (grad_features, None)
  | _ => Raise ValueError
  end.

End Generic.

(** [idx.unsqueeze(1).expand(-1, C, -1)]: a [(B, npoint)] index seen as a
    [(B, C, npoint)] one. *)
Definition expand_channels (C : nat) (idx : tensor Z) : tensor Z :=
  mkTensor
    (match shape idx with [B; npoint] => [B; C; npoint] | s => s end)
    (fun I => match I with [b; _; m] => get idx [b; m] | _ => 0%Z end).

(** [torch.sum(a * b)] over the shape of [a]: the pairing under which a
    backward pass is the adjoint of its forward pass. *)
Definition inner (a b : tensor R) : R :=
  Rsum (map (fun I => get a I * get b I) (indices (shape a))).

(** [torch.sum(t)]. *)
Definition tsum (t : tensor R) : R := Rsum (elements t).

(** Two tensors with the same shape and the same elements. *)
Definition same {A : Type} (t1 t2 : tensor A) : Prop :=
  shape t1 = shape t2 /\
  forall I, In I (indices (shape t1)) -> get t1 I = get t2 I.

End GatherScatter.
Import GatherScatter.

(** ** operations.py: batched SVD *)

Module BatchedSVD.

Inductive device : Type := cpu | cuda.

(** A float tensor together with the device that holds it. *)
Record dtensor : Type := mkD { dev : device; val : tensor fl }.

(** [x.dim()]. *)
Definition dim (x : dtensor) : nat := length (shape (val x)).

(** [t[:, :, :k]]. *)
Definition narrow_last (t : tensor fl) (k : nat) : tensor fl :=
match shape t with
| [a; b; c] => mkTensor [a; b; Nat.min k c] (get t)
| _ => t
end.

(** [t.to(device)]. *)
Definition to (d : device) (t : tensor fl) : dtensor := mkD d t.

(** A python class object, such as [RuntimeError], is true in a condition. *)
Definition truthy_class (e : exn) : bool := true.

Section WithEnvironment.

(** [torch.cuda.is_available()]. *)
Variable cuda_is_available : bool.

(** The native kernel [linalg.batch_svd_forward(x, True, 1e-7, 100)] of the
    extension module, which is not part of the sources: any function from the
    input to [(U, S, V)]. *)
Variable batch_svd_forward : tensor fl -> tensor fl * tensor fl * tensor fl.

(** [x.cuda()]: torch moves the tensor to the accelerator, and raises when
    there is none. *)
Definition to_cuda (x : dtensor) : result dtensor :=
if cuda_is_available then Ok (mkD cuda (val x)) else Raise RuntimeError.

(** What [BatchSVDFunction.forward] keeps on [ctx]. *)
Record SVD_ctx : Type := mkSVDCtx
  { ctx_device : device;
    saved : tensor fl * tensor fl * tensor fl * tensor fl }.

(** [BatchSVDFunction.forward(ctx, x)].  The guard of the source is
    [assert(RuntimeError), "..."]: it asserts the class object, which is
    true, so it never fails; the failure without an accelerator comes from
    [x.cuda()] on the next line. *)
Definition BatchSVDFunction_forward (x : dtensor)
  : result (dtensor * dtensor * dtensor * SVD_ctx) :=
let ctx_device := dev x in
_ <- (if negb cuda_is_available
      then assert_ (truthy_class RuntimeError)
      else Ok tt) ;;
x <- to_cuda x ;;
let '(U, S_, V) := batch_svd_forward (val x) in
let k := nth 1 (shape S_) O in
let U := narrow_last U k in
let V := narrow_last V k in
let ctx := mkSVDCtx ctx_device (val x, U, S_, V) in
Ok (to ctx_device U, to ctx_device S_, to ctx_device V, ctx).

(** [batch_svd(x)]. *)
Definition batch_svd (x : dtensor) : result (dtensor * dtensor * dtensor) :=
_ <- assert_ (dim x =? 3)%nat ;;
r <- BatchSVDFunction_forward x ;;
let '(U, S_, V, _) := r in Ok (U, S_, V).

End WithEnvironment.

End BatchedSVD.

(** ** Reductions and broadcasting over float tensors *)

Module TensorOps.

(** A real tensor as a float tensor. *)
Definition of_real (t : tensor R) : tensor fl :=
mkTensor (shape t) (fun I => Some (get t I)).

(** The elements of [t] along dimension [dim] through position [I]. *)
Definition slice_along {A : Type} (t : tensor A) (dim : nat) (I : list nat) : list A :=
map (fun k => get t (set_nth dim k I)) (seq 0 (nth dim (shape t) O)).

(** A reduction along [dim] with [keepdim=True]; torch raises when [dim] is
    not a dimension of [t]. *)
Definition reduce_keepdim {A B : Type} (f : list A -> B) (t : tensor A) (dim : nat)
  : result (tensor B) :=
if (dim <? length (shape t))%nat
then Ok (mkTensor (set_nth dim 1%nat (shape t)) (fun I => f (slice_along t dim I)))
else Raise IndexError.

(** [torch.sum(t, dim, keepdim=True)]. *)
Definition sum_keepdim (t : tensor fl) (dim : nat) : result (tensor fl) :=
reduce_keepdim fsum t dim.

(** [torch.mean(t, dim, keepdim=True)]: the sum divided by the number of
    elements, nan along an empty dimension. *)
Definition mean_keepdim (t : tensor fl) (dim : nat) : result (tensor fl) :=
reduce_keepdim (fun l => fdiv (fsum l) (Some (INR (length l)))) t dim.

(** The larger of two floats; nan if either is. *)
Definition fmax : fl -> fl -> fl := lift2 Rmax.

(** [torch.max(t, dim, keepdim=True)[0]]: torch raises along an empty
    dimension. *)
Definition max_keepdim (t : tensor fl) (dim : nat) : result (tensor fl) :=
if (nth dim (shape t) O =? 0)%nat then Raise RuntimeError
else reduce_keepdim
       (fun l => match l with [] => None | x :: l' => fold_left fmax l' x end) t dim.

(** Elementwise map. *)
Definition tmap {A B : Type} (f : A -> B) (t : tensor A) : tensor B :=
mkTensor (shape t) (fun I => f (get t I)).

(** The shape two operands of the same rank broadcast to. *)
Fixpoint broadcast_shape (s1 s2 : list nat) : option (list nat) :=
match s1, s2 with
| [], [] => Some []
| a :: s1', b :: s2' =>
    match broadcast_shape s1' s2' with
    | Some s =>
        if (a =? b)%nat then Some (a :: s)
        else if (a =? 1)%nat then Some (b :: s)
        else if (b =? 1)%nat then Some (a :: s)
        else None
    | None => None
    end
| _, _ => None
end.

(** The position of an operand read for position [I] of the result: [0]
    along the dimensions where the operand has size 1. *)
Fixpoint bidx (sh I : list nat) : list nat :=
match sh, I with
| s :: sh', i :: I' => (if (s =? 1)%nat then O else i) :: bidx sh' I'
| _, _ => I
end.

(** An elementwise binary operation with broadcasting.  The operands of the
    embedded code always have the same rank (every reduction keeps its
    dimension), so torch's alignment of different ranks is not needed. *)
Definition broadcast2 {A B C : Type} (f : A -> B -> C) (a : tensor A) (b : tensor B)
  : result (tensor C) :=
match broadcast_shape (shape a) (shape b) with
| Some s => Ok (mkTensor s (fun I => f (get a (bidx (shape a) I))
                                        (get b (bidx (shape b) I))))
| None => Raise RuntimeError
end.

End TensorOps.
Import TensorOps.

(** ** geo_operations.py: normalize_point_batch *)

Module Normalize.

(** [normalize_point_batch(pc, NCHW)]: returns the normalized cloud, the
    centroid and the furthest distance. *)
Definition normalize_point_batch (pc : tensor fl) (NCHW : bool)
  : result (tensor fl * tensor fl * tensor fl) :=
let point_axis := if NCHW then 2%nat else 1%nat in
let dim_axis := if NCHW then 1%nat else 2%nat in
centroid <- mean_keepdim pc point_axis ;;
pc <- broadcast2 fsub pc centroid ;;
sq <- sum_keepdim (tmap (fun x => fmul x x) pc) dim_axis ;;
furthest_distance <- max_keepdim (tmap fsqrt sq) point_axis ;;
pc <- broadcast2 fdiv pc furthest_distance ;;
Ok (pc, centroid, furthest_distance).

(** [pc_normalized * furthest_distance + centroid]. *)
Definition reconstruct (pc_normalized furthest_distance centroid : tensor fl)
  : result (tensor fl) :=
scaled <- broadcast2 fmul pc_normalized furthest_distance ;;
broadcast2 fadd scaled centroid.

(** C9 as stated: the normalization returns and its result reconstructs the
    input. *)
Definition round_trip (pc : tensor R) (NCHW : bool) : Prop :=
exists pc_normalized centroid furthest_distance recon,
  normalize_point_batch (of_real pc) NCHW
  = Ok (pc_normalized, centroid, furthest_distance) /\
  reconstruct pc_normalized furthest_distance centroid = Ok recon /\
  shape recon = shape pc /\
  forall I, In I (indices (shape pc)) -> get recon I = Some (get pc I).

(** A batch element whose points are not all the same: two positions that
    differ only along the point axis hold different values. *)
Definition spread (pc : tensor R) (NCHW : bool) (b : nat) : Prop :=
let point_axis := if NCHW then 2%nat else 1%nat in
exists I n1 n2,
  In I (indices (shape pc)) /\ nth 0 I O = b /\
  (n1 < nth point_axis (shape pc) O)%nat /\
  (n2 < nth point_axis (shape pc) O)%nat /\
  get pc (set_nth point_axis n1 I) <> get pc (set_nth point_axis n2 I).

End Normalize.

(** ** The real numbers a normalization computes *)

Module NormalizeMeaning.

(** [t] holds the finite value [r I] at every position [I]. *)
Definition realises (t : tensor fl) (r : list nat -> R) : Prop :=
forall I, get t I = Some (r I).

Section Axes.
Variables (pc : tensor R) (point_axis dim_axis : nat).

(** The mean of the points through [I]. *)
Definition centroid_at (I : list nat) : R :=
Rsum (map (fun k => get pc (set_nth point_axis k I))
          (seq 0 (nth point_axis (shape pc) O)))
/ INR (nth point_axis (shape pc) O).

(** The centred coordinate at [I], read with broadcasting. *)
Definition centred_at (I : list nat) : R :=
get pc (bidx (shape pc) I)
- centroid_at (bidx (set_nth point_axis 1%nat (shape pc)) I).

(** The squared norm of the centred point through [I]. *)
Definition sqnorm_at (I : list nat) : R :=
Rsum (map (fun k => centred_at (set_nth dim_axis k I) * centred_at (set_nth dim_axis k I))
          (seq 0 (nth dim_axis (shape pc) O))).

(** The largest norm among the points through [I]. *)
Definition furthest_at (I : list nat) : R :=
fold_left Rmax
  (map (fun k => sqrt (sqnorm_at (set_nth point_axis k I)))
       (seq 1 (nth point_axis (shape pc) O - 1)))
  (sqrt (sqnorm_at (set_nth point_axis O I))).

End Axes.

End NormalizeMeaning.
Import NormalizeMeaning.

(** ** geo_operations.py: the cotangent Laplacian *)

Module CotLaplacian.

(** [F[:, :, s]] repeated along a last axis of size 3: the index tensor
    [indices_repeat[:, :, :, s]] built by [torch.stack([F, F, F], dim=2)]. *)
Definition indices_repeat (F : tensor Z) (s : nat) : tensor Z :=
mkTensor
  (match shape F with [B; Fc; _] => [B; Fc; 3%nat] | sh => sh end)
  (fun I => match I with [b; f; _] => get F [b; f; s] | _ => 0%Z end).

(** [torch.sqrt(((u - w)**2).sum(2))] at face [f] of batch [b]. *)
Definition edge_length (u w : tensor R) (b f : nat) : R :=
sqrt (Rsum (map (fun r => (get u [b; f; r] - get w [b; f; r]) ^ 2) (seq 0 3))).

(** [cotangent(V, F)]: for [V] of shape [(B, N, 3)] and faces [F] of shape
    [(B, F, 3)], the tensor [C] of shape [(B, F, 3)] whose columns correspond
    to the edges 23, 31, 12.  [torch.gather] raises when a face names a vertex
    outside [[0, N)]. *)
Definition cotangent (V : tensor R) (F : tensor Z) : result (tensor fl) :=
v1 <- gather V 1 (indices_repeat F 0) ;;
v2 <- gather V 1 (indices_repeat F 1) ;;
v3 <- gather V 1 (indices_repeat F 2) ;;
Ok (mkTensor (shape (indices_repeat F 0))
      (fun I =>
         match I with
         | [b; f; s] =>
             let l1 := edge_length v2 v3 b f in
             let l2 := edge_length v3 v1 b f in
             let l3 := edge_length v1 v2 b f in
             let sp := (l1 + l2 + l3) * 0.5 in
             let A := fmul (Some 2) (fsqrt (Some (sp * (sp - l1) * (sp - l2) * (sp - l3)))) in
             let cot23 := l2 ^ 2 + l3 ^ 2 - l1 ^ 2 in
             let cot31 := l1 ^ 2 + l3 ^ 2 - l2 ^ 2 in
             let cot12 := l1 ^ 2 + l2 ^ 2 - l3 ^ 2 in
             let stacked := match s with
                            | 0%nat => cot23 | 1%nat => cot31 | _ => cot12
                            end in
             fdiv (fdiv (Some stacked) A) (Some 4)
         | _ => None
         end)).

(** A sparse matrix in coordinate form: the stored entries, in order.  The
    matrix element at [(i, j)] is the sum of the stored values at [(i, j)]
    (scipy sums duplicates). *)
Record sparse : Type := mkSparse
  { n_rows : nat; n_cols : nat; entries : list (nat * nat * fl) }.

Definition row_of (e : nat * nat * fl) : nat := fst (fst e).
Definition col_of (e : nat * nat * fl) : nat := snd (fst e).
Definition val_of (e : nat * nat * fl) : fl := snd e.

(** The matrix element at [(i, j)]. *)
Definition entry (L : sparse) (i j : nat) : fl :=
fsum (map val_of
        (filter (fun e => (row_of e =? i)%nat && (col_of e =? j)%nat) (entries L))).

(** [sparse.csr_matrix((data, (rows, cols)), shape)]: scipy raises on a
    negative or too large index. *)
Definition csr_matrix (data : list fl) (rows cols : list Z) (shape : nat * nat)
  : result sparse :=
if forallb (fun r => (0 <=? r)%Z && (r <? Z.of_nat (fst shape))%Z) rows
   && forallb (fun c => (0 <=? c)%Z && (c <? Z.of_nat (snd shape))%Z) cols
   && (length rows =? length data)%nat && (length cols =? length data)%nat
then Ok (mkSparse (fst shape) (snd shape)
           (combine (combine (map Z.to_nat rows) (map Z.to_nat cols)) data))
else Raise ValueError.

(** [L.T]. *)
Definition transpose (L : sparse) : sparse :=
mkSparse (n_cols L) (n_rows L)
  (map (fun e => (col_of e, row_of e, val_of e)) (entries L)).

(** [L1 + L2]. *)
Definition sp_add (L1 L2 : sparse) : sparse :=
mkSparse (n_rows L1) (n_cols L1) (entries L1 ++ entries L2).

(** [L1 - L2]. *)
Definition sp_sub (L1 L2 : sparse) : sparse :=
mkSparse (n_rows L1) (n_cols L1)
  (entries L1 ++ map (fun e => (row_of e, col_of e, fneg (val_of e))) (entries L2)).

(** [np.sum(L, 1)]: the sum of each row. *)
Definition row_sum (L : sparse) (i : nat) : fl :=
fsum (map val_of (filter (fun e => (row_of e =? i)%nat) (entries L))).

(** [sparse.diags(d)]. *)
Definition diags (n : nat) (d : nat -> fl) : sparse :=
mkSparse n n (map (fun i => (i, i, d i)) (seq 0 n)).

(** [L.dot(x)] for a dense [x] with rows [x j]: component [c] of row [i]. *)
Definition dot (L : sparse) (x : nat -> nat -> fl) (i c : nat) : fl :=
fsum (map (fun e => fmul (val_of e) (x (col_of e) c))
          (filter (fun e => (row_of e =? i)%nat) (entries L))).

(** [t.reshape(-1)] of a tensor of shape [(B, F, 3)], with the last axis
    permuted by [perm]: [t[:, :, perm].reshape(-1)]. *)
Definition flatten_perm {A : Type} (t : tensor A) (perm : nat -> nat) : list A :=
map (fun I => match I with
              | [b; f; s] => get t [b; f; perm s]
              | _ => get t I
              end) (indices (shape t)).

(** [F_np + offset], with [offset = arange(B).reshape(-1, 1, 1) * N]. *)
Definition add_offset (F : tensor Z) (N : nat) : tensor Z :=
mkTensor (shape F)
  (fun I => match I with
            | b :: _ => (get F I + Z.of_nat b * Z.of_nat N)%Z
            | [] => get F I
            end).

(** The names geo_operations.py binds at module level: its imports (lines 1
    to 5), the constant [PI] and its functions and classes.  operations.py
    imports [numpy as np] and [scipy.sparse]; geo_operations.py does not, and
    neither name is a Python builtin. *)
Definition module_globals : list String.string :=
["torch"; "sampling"; "linalg"; "check_values"; "save_grad"; "saved_variables";
 "batch_svd"; "normalize"; "dot_product"; "scatter_add"; "PI";
 "FurthestPointSampling"; "__furthest_point_sample"; "furthest_point_sample";
 "normalize_point_batch"; "normalize_point_batch_to_box"; "batch_normals";
 "pointUniformLaplacian"; "UniformLaplacian"; "convert_as"; "CotLaplacian";
 "_CotLaplacianBatchLx"; "_cotLx"; "cotangent"; "mean_value_coordinates_3D";
 "mean_value_coordinates"; "edge_vertex_indices";
 "compute_face_normals_and_areas"; "get_edge_lengths"; "get_normals";
 "dihedral_angle"]%string.

(** The evaluation of a name that is not local to a function: Python looks
    it up in the module's globals, then in the builtins, when the statement
    runs, and raises NameError when it is bound in neither. *)
Definition global (name : String.string) : result unit :=
if in_dec String.string_dec name module_globals then Ok tt else Raise NameError.

(** [CotLaplacian.computeLaplacian(V, F)]: the value it stores in [self.L].
    The first statement that evaluates [np] is line 243, after [cotangent]
    has returned; [sparse] is first evaluated on line 252. *)
Definition computeLaplacian (V : tensor R) (F : tensor Z) : result sparse :=
match shape V with
| [B; N; _] =>
    C <- cotangent V F ;;
    let batchC := flatten_perm C (fun s => s) in
    _ <- global "np"%string ;;
    let batchF := add_offset F N in
    let rows := flatten_perm batchF (fun s => match s with 0 => 1 | 1 => 2 | _ => 0 end)%nat in
    let cols := flatten_perm batchF (fun s => match s with 0 => 2 | 1 => 0 | _ => 1 end)%nat in
    let BN := (B * N)%nat in
    _ <- global "sparse"%string ;;
    L <- csr_matrix batchC rows cols (BN, BN) ;;
    let L := sp_add L (transpose L) in
    _ <- global "sparse"%string ;;
    _ <- global "np"%string ;;
    let M := diags BN (row_sum L) in
    let L := sp_sub L M in
    Ok L
| _ => Raise ValueError
end.

(** *** The geometry the cotangents are compared with *)

Definition vec3 : Type := (R * R * R)%type.

(** Vertex [s] of face [f] of batch [b]. *)
Definition corner (V : tensor R) (F : tensor Z) (b f s : nat) : vec3 :=
let n := Z.to_nat (get F [b; f; s]) in
(get V [b; n; 0%nat], get V [b; n; 1%nat], get V [b; n; 2%nat]).

Definition vsub (p q : vec3) : vec3 :=
let '(px, py, pz) := p in let '(qx, qy, qz) := q in (px - qx, py - qy, pz - qz).

Definition vdot (p q : vec3) : R :=
let '(px, py, pz) := p in let '(qx, qy, qz) := q in px * qx + py * qy + pz * qz.

Definition vcross (p q : vec3) : vec3 :=
let '(px, py, pz) := p in
let '(qx, qy, qz) := q in
(py * qz - pz * qy, pz * qx - px * qz, px * qy - py * qx).

Definition vnorm (p : vec3) : R := sqrt (vdot p p).

(** The length of the edge between two corners. *)
Definition dist (p q : vec3) : R := vnorm (vsub p q).

(** The cotangent of the angle at [p] in the triangle [p, q, r]: the cosine
    over the sine of the angle between [q - p] and [r - p]. *)
Definition cot_at (p q r : vec3) : R :=
vdot (vsub q p) (vsub r p) / vnorm (vcross (vsub q p) (vsub r p)).

(** Heron's formula for the area of a triangle with sides [l1, l2, l3]. *)
Definition heron (l1 l2 l3 : R) : R :=
let sp := (l1 + l2 + l3) / 2 in
sqrt (sp * (sp - l1) * (sp - l2) * (sp - l3)).

(** The cotangent of the angle opposite the side [l1], from the law of
    cosines and Heron's area: the value C7 names. *)
Definition cot_opposite (l1 l2 l3 : R) : R :=
(l2 ^ 2 + l3 ^ 2 - l1 ^ 2) / (4 * heron l1 l2 l3).

(** The corner of a face opposite its edge number [s] (edges 23, 31, 12),
    followed by the two ends of that edge. *)
Definition opposite (s : nat) : nat * nat * nat :=
match s with
| 0%nat => (0, 1, 2)
| 1%nat => (1, 2, 0)
| _ => (2, 0, 1)
end%nat.

End CotLaplacian.

(** ** The real numbers a sparse matrix holds *)

Module SparseMeaning.

(** The finite value of a float, [0] for a non-finite one. *)
Definition real_of (x : fl) : R := match x with Some a => a | None => 0 end.

(** The finite value stored in an entry. *)
Definition weight (e : nat * nat * fl) : R := real_of (CotLaplacian.val_of e).

(** Every stored value is finite. *)
Definition finite_entries (E : list (nat * nat * fl)) : Prop :=
Forall (fun e => is_finite (CotLaplacian.val_of e) = true) E.

End SparseMeaning.
Import SparseMeaning.

(** ** Rounded arithmetic *)

Module Rounding.

(** The integer nearest to [y]; the even one of the two when [y] lies half
    way between two integers. *)
Definition nearest_even (y : R) : Z :=
let f := Int_part y in
if Rlt_dec (y - IZR f) (1 / 2) then f
else if Rlt_dec (1 / 2) (y - IZR f) then (f + 1)%Z
else if Z.even f then f else (f + 1)%Z.

(** Rounding to torch.float32 (IEEE binary32), to nearest, ties to even.  A
    binary32 number is a multiple of [2^-149] with at most 24 significant
    bits: with [a] the magnitude of [x] in units of [2^-149], the last place
    kept is [2^k], [k = max 0 (log2 a - 23)].  Overflow (a magnitude of
    [2^128] or more becomes an infinity) is not modelled. *)
Definition round_f32 (x : R) : R :=
let a := Rabs x * IZR (2 ^ 149) in
let k := Z.max 0 (Z.log2 (Int_part a) - 23) in
let q := nearest_even (a / IZR (2 ^ k)) in
(if Rlt_dec x 0 then -1 else 1) * (IZR q * IZR (2 ^ k) / IZR (2 ^ 149)).

(** Exact arithmetic: no rounding. *)
Definition exact (x : R) : R := x.

(** Rounding to 24 significant bits on the integers: [round_f32] on an
    integer, and on a multiple of [2^-149] counted in that unit. *)
Definition round_f32_Z (z : Z) : Z :=
let a := Z.abs z in
let t := (Z.log2 a - 23)%Z in
if (t <=? 0)%Z then z
else
  let p := (2 ^ t)%Z in
  let q := (a / p)%Z in
  let r := (a mod p)%Z in
  let q' := if (2 * r <? p)%Z then q
            else if (p <? 2 * r)%Z then (q + 1)%Z
            else if Z.even q then q else (q + 1)%Z in
  (Z.sgn z * (q' * p))%Z.

End Rounding.

(** ** operations.py: k nearest neighbours on the dense distance matrix *)

Module NeighborSearch.

(** [t.transpose(2, 1)] of a tensor of rank 3. *)
Definition transpose21 {A : Type} (t : tensor A) : tensor A :=
mkTensor
  (match shape t with [b; i; j] => [b; j; i] | sh => sh end)
  (fun I => match I with [b; i; j] => get t [b; j; i] | _ => get t I end).

(** Exact equality of the points [i] and [j] of batch [b]: the comparison
    [np.unique(..., axis=0)] makes between rows. *)
Definition same_point (points_trans : tensor R) (b i j : nat) : bool :=
forallb (fun c => if Req_dec_T (get points_trans [b; i; c]) (get points_trans [b; j; c])
                  then true else false)
        (seq 0 (nth 2 (shape points_trans) O)).

(** [indices_duplicated[b, 0, j]]: [np.unique(..., return_index=True)] gives
    the index of the first occurrence of every distinct row; those are set to
    0, every later occurrence keeps 1. *)
Definition indices_duplicated (points_trans : tensor R) (b j : nat) : R :=
if existsb (fun i => same_point points_trans b i j) (seq 0 j) then 1 else 0.

(** [torch.max(D)]: torch raises on a tensor without elements. *)
Definition max_all (D : tensor R) : result R :=
match elements D with
| [] => Raise RuntimeError
| x :: l => Ok (fold_left Rmax l x)
end.

(** Row [(b, m)] of a tensor of shape [(B, M, N)]. *)
Definition row (D : tensor R) (b m : nat) : list R :=
map (fun j => get D [b; m; j]) (seq 0 (nth 2 (shape D) O)).

Section WithArithmetic.

(** The rounding of the tensors' element type: every arithmetic operation of
    torch returns the exact result, rounded.  [Rounding.round_f32] for
    float32 tensors, [Rounding.exact] for arithmetic without rounding. *)
Variable rnd : R -> R.

Definition radd (x y : R) : R := rnd (x + y).
Definition rsub (x y : R) : R := rnd (x - y).
Definition rmul (x y : R) : R := rnd (x * y).

(** [torch.sum] along an axis, and the accumulation of [torch.matmul]: the
    terms are added one after the other.  The order and the precision in
    which the library accumulates are its own; with one channel there is
    nothing to accumulate. *)
Definition rsum (l : list R) : R :=
match l with
| [] => 0
| x :: l' => fold_left radd l' x
end.

(** [__batch_distance_matrix_general(A, B)]: for [A] of shape [(B, N, C)]
    and [B] of shape [(B, M, C)], the matrix [r_A - 2 * m + r_B^T] of shape
    [(B, N, M)], each operation rounded.  [torch.matmul] raises when the
    channel counts differ; the calls embedded here pass the same batch size
    on both sides. *)
Definition batch_distance_matrix_general (A B : tensor R) : result (tensor R) :=
match shape A, shape B with
| [Ba; n; Ca], [Bb; m; Cb] =>
    if ((Ba =? Bb) && (Ca =? Cb))%nat then
      let r_A := fun b i => rsum (map (fun c => rmul (get A [b; i; c]) (get A [b; i; c])) (seq 0 Ca)) in
      let r_B := fun b j => rsum (map (fun c => rmul (get B [b; j; c]) (get B [b; j; c])) (seq 0 Cb)) in
      let m_ := fun b i j => rsum (map (fun c => rmul (get A [b; i; c]) (get B [b; j; c])) (seq 0 Ca)) in
      Ok (mkTensor [Ba; n; m]
            (fun I => match I with
                      | [b; i; j] => radd (rsub (r_A b i) (rmul 2 (m_ b i j))) (r_B b j)
                      | _ => 0
                      end))
    else Raise RuntimeError
| _, _ => Raise RuntimeError
end.

(** [D += torch.max(D) * indices_duplicated]: the later copies of a repeated
    point are moved away by the largest entry of the matrix. *)
Definition penalised (points_trans D : tensor R) (maxD : R) : tensor R :=
mkTensor (shape D)
  (fun I => match I with
            | [b; m; j] => radd (get D I) (rmul maxD (indices_duplicated points_trans b j))
            | _ => get D I
            end).

(** [torch.topk(row, k, sorted=True)] along the last dimension: the values
    and the indices of the [k] largest elements of a row.  A library
    primitive, taken as a parameter. *)
Variable topk : list R -> nat -> list R * list nat.

(** [group_knn(k, query, points, unique, NCHW)]: returns
    [(knn_trans, point_indices, -distances)]. *)
Definition group_knn (k : nat) (query points : tensor R) (unique NCHW : bool)
  : result (tensor R * tensor Z * tensor R) :=
_ <- (if NCHW
      then match shape points with [_; _; _] => Ok tt | _ => Raise ValueError end
      else Ok tt) ;;
let points_trans := if NCHW then transpose21 points else points in
let query_trans := if NCHW then transpose21 query else query in
match shape points_trans with
| [batch_size; num_points; _] =>
    _ <- assert_ (k <=? num_points)%nat ;;
    D <- batch_distance_matrix_general query_trans points_trans ;;
    D <- (if unique then
            maxD <- max_all D ;;
            Ok (penalised points_trans D maxD)
          else Ok D) ;;
    let M := nth 1 (shape D) O in
    let Cn := nth 2 (shape points_trans) O in
    let selected := fun b m => topk (map Ropp (row D b m)) k in
    let distances :=
      mkTensor [batch_size; M; k]
        (fun I => match I with
                  | [b; m; t] => nth t (fst (selected b m)) 0
                  | _ => 0
                  end) in
    let point_indices :=
      mkTensor [batch_size; M; k]
        (fun I => match I with
                  | [b; m; t] => Z.of_nat (nth t (snd (selected b m)) O)
                  | _ => 0%Z
                  end) in
    let knn_trans :=
      mkTensor [batch_size; M; k; Cn]
        (fun I => match I with
                  | [b; m; t; c] =>
                      get points_trans [b; nth t (snd (selected b m)) O; c]
                  | _ => 0
                  end) in
    let knn_trans :=
      if NCHW
      then mkTensor [batch_size; Cn; M; k]
             (fun I => match I with
                       | [b; c; m; t] => get knn_trans [b; m; t; c]
                       | _ => 0
                       end)
      else knn_trans in
    Ok (knn_trans, point_indices, tmap Ropp distances)
| _ => Raise ValueError
end.

End WithArithmetic.

(** What torch documents of [topk] with [sorted=True], for [k] at most the
    length of the row: [k] distinct positions of the row, their values, in
    descending order, none smaller than a value left out. *)
Definition topk_contract (topk : list R -> nat -> list R * list nat) : Prop :=
forall (r : list R) (k : nat),
  (k <= length r)%nat ->
  let values := fst (topk r k) in
  let idxs := snd (topk r k) in
  length idxs = k /\
  NoDup idxs /\
  (forall i, In i idxs -> (i < length r)%nat) /\
  values = map (fun i => nth i r 0) idxs /\
  (forall s t, (s <= t < k)%nat -> nth t values 0 <= nth s values 0) /\
  (forall j, (j < length r)%nat -> ~ In j idxs ->
             forall i, In i idxs -> nth j r 0 <= nth i r 0).

(** Two selections that meet the contract, by insertion sort.  They differ
    among equal values: with [low_first] the lower position comes first,
    without it the higher one. *)
Definition goes_after (low_first : bool) (x y : R * nat) : bool :=
if low_first
then (if Rlt_dec (fst x) (fst y) then true else false)
else (if Rle_dec (fst x) (fst y) then true else false).

Fixpoint insert_desc (low_first : bool) (x : R * nat) (l : list (R * nat))
  : list (R * nat) :=
match l with
| [] => [x]
| y :: l' => if goes_after low_first x y then y :: insert_desc low_first x l' else x :: l
end.

Definition sort_desc (low_first : bool) (l : list (R * nat)) : list (R * nat) :=
fold_right (insert_desc low_first) [] l.

Definition topk_by (low_first : bool) (r : list R) (k : nat) : list R * list nat :=
let s := firstn k (sort_desc low_first (combine r (seq 0 (length r)))) in
(map fst s, map snd s).

Definition topk_stable : list R -> nat -> list R * list nat := topk_by true.

Definition topk_last : list R -> nat -> list R * list nat := topk_by false.

(** The squared Euclidean distance between query [m] and point [j] of batch
    [b], both given as [(B, ., C)] tensors. *)
Definition sqdist (query_trans points_trans : tensor R) (b m j : nat) : R :=
Rsum (map (fun c => (get query_trans [b; m; c] - get points_trans [b; j; c]) ^ 2)
          (seq 0 (nth 2 (shape points_trans) O))).

(** Ascending insertion sort of distances: the brute-force reference. *)
Fixpoint insert_asc (x : R) (l : list R) : list R :=
match l with
| [] => [x]
| y :: l' => if Rle_dec x y then x :: l else y :: insert_asc x l'
end.

Definition sort_asc (l : list R) : list R := fold_right insert_asc [] l.

(** The [k] smallest squared distances of a query row, by brute force. *)
Definition brute_force (query_trans points_trans : tensor R) (k b m : nat) : list R :=
firstn k (sort_asc (map (sqdist query_trans points_trans b m)
                        (seq 0 (nth 1 (shape points_trans) O)))).

(** The positions of the first occurrence of every distinct point of batch
    [b]: one representative per coordinate tuple. *)
Definition representatives (points_trans : tensor R) (b : nat) : list nat :=
filter (fun j => negb (existsb (fun i => same_point points_trans b i j) (seq 0 j)))
       (seq 0 (nth 1 (shape points_trans) O)).

End NeighborSearch.

(** ** geo_operations.py: mean value coordinates on a triangle mesh *)

Module MeanValue.
Import CotLaplacian.

(** The module constant [PI = 3.1415927] of geo_operations.py; [PI] itself
    is the real number here. *)
Definition PI_const : R := 3.1415927.

(** [normalize(v, dim=-1)] of operations.py along the three coordinates of a
    vector: [v / max(|v|, 1e-12)]. *)
Definition normalize (v : vec3) : vec3 :=
let m := Rmax (vnorm v) 1e-12 in
let '(x, y, z) := v in (x / m, y / m, z / m).

(** [torch.det] of the matrix whose rows are [u0], [u1], [u2]. *)
Definition det (u0 u1 u2 : vec3) : R := vdot u0 (vcross u1 u2).

(** The index lists [[1, 2, 0]] and [[2, 0, 1]] the code permutes the
    corners of a face with. *)
Definition next (s : nat) : nat := match s with 0 => 1 | 1 => 2 | _ => 0 end%nat.
Definition prev (s : nat) : nat := match s with 0 => 2 | 1 => 0 | _ => 1 end%nat.

(** Modelled from the spec: [check_values] of utils.pytorch_utils, which is
    not part of the sources.  The spec gives it as the numeric-validity
    check that inspects a tensor for nan and infinity; the code asserts its
    result. *)
Definition check_values (t : tensor fl) : bool := forallb is_finite (elements t).

Section PerQuery.
Variables (query vertices : tensor R) (faces : tensor Z).

(** Point [n] of batch [b] of a [(B, n, 3)] tensor. *)
Definition point (t : tensor R) (b n : nat) : vec3 :=
(get t [b; n; 0%nat], get t [b; n; 1%nat], get t [b; n; 2%nat]).

(** [vertices.unsqueeze(1) - query.unsqueeze(2)] at [(b, p, n)]: the first
    value of [uj]. *)
Definition uj_diff (b p n : nat) : vec3 :=
vsub (point vertices b n) (point query b p).

(** [dj = torch.norm(uj, dim=-1)]. *)
Definition dj (b p n : nat) : R := vnorm (uj_diff b p n).

(** [uj = normalize(uj, dim=-1)]. *)
Definition uj (b p n : nat) : vec3 := normalize (uj_diff b p n).

(** [ui]: the three unit vectors of face [f], gathered by [faces]. *)
Definition ui (b p f s : nat) : vec3 := uj b p (Z.to_nat (get faces [b; f; s])).

(** [li = torch.norm(ui[.., [1,2,0], :] - ui[.., [2,0,1], :])], then the two
    [torch.where] that keep it inside [(-2, 2)]. *)
Definition li (b p f s : nat) : R :=
let eps := 2e-5 in
let li := vnorm (vsub (ui b p f (next s)) (ui b p f (prev s))) in
let li := if Rle_dec 2 li then li - (li - (2 - eps)) else li in
if Rle_dec li (-2) then li - (li + (2 - eps)) else li.

(** [theta_i = 2 * torch.asin(li / 2)]. *)
Definition theta_i (b p f s : nat) : fl :=
fmul (Some 2) (fasin (Some (li b p f s / 2))).

(** [h = torch.sum(theta_i, dim=-1, keepdim=True) / 2]. *)
Definition h (b p f : nat) : fl :=
fdiv (fsum (map (theta_i b p f) [0; 1; 2]%nat)) (Some 2).

(** [ci], with the two [torch.where] that keep it inside [(-1, 1)]. *)
Definition ci (b p f s : nat) : fl :=
let ci :=
  fsub (fdiv (fmul (fmul (Some 2) (fsin (h b p f)))
                   (fsin (fsub (h b p f) (theta_i b p f s))))
             (fmul (fsin (theta_i b p f (next s)))
                   (fsin (theta_i b p f (prev s)))))
       (Some 1) in
let eps := 1e-5 in
let ci := if fge ci 1 then fsub ci (fsub ci (Some (1 - eps))) else ci in
if fle ci (-1) then fsub ci (fadd ci (Some (1 - eps))) else ci.

(** [si = sign(det(ui)) * sqrt(1 - ci**2)]. *)
Definition si (b p f s : nat) : fl :=
fmul (Some (sign (det (ui b p f 0) (ui b p f 1) (ui b p f 2))))
     (fsqrt (fsub (Some 1) (fmul (ci b p f s) (ci b p f s)))).

(** [di]: the distances [dj] of the three corners of face [f]. *)
Definition di (b p f s : nat) : R := dj b p (Z.to_nat (get faces [b; f; s])).

(** [inside_triangle = (PI - h) < 1e-4]. *)
Definition inside_triangle (b p f : nat) : bool :=
flt (fsub (Some PI_const) (h b p f)) 1e-4.

(** [wi] for [Fc] faces: the general formula, then the three [torch.where]:
    zero on a face with some [|si| <= 1e-5]; zero on every face of a query
    that lies on some face; and on that face the planar weights. *)
Definition wi (Fc : nat) (b p f s : nat) : fl :=
let wi :=
  fdiv (fsub (fsub (theta_i b p f s)
                   (fmul (ci b p f (next s)) (theta_i b p f (prev s))))
             (fmul (ci b p f (prev s)) (theta_i b p f (next s))))
       (fmul (fmul (Some (di b p f s)) (fsin (theta_i b p f (next s))))
             (si b p f (prev s))) in
let wi :=
  if existsb (fun t => fle (fabs (si b p f t)) 1e-5) [0; 1; 2]%nat
  then Some 0 else wi in
let wi :=
  if existsb (inside_triangle b p) (seq 0 Fc) then Some 0 else wi in
if inside_triangle b p f
then fmul (fmul (fsin (theta_i b p f s)) (Some (di b p f (prev s))))
          (Some (di b p f (next s)))
else wi.

(** [close_to_point = dj < 1e-8]. *)
Definition close_to_point (b p n : nat) : bool :=
if Rlt_dec (dj b p n) 1e-8 then true else false.

End PerQuery.

(** A [(B, P, F, 3)] tensor given by its elements. *)
Definition per_corner {A : Type} (B P Fc : nat) (d : A) (g : nat -> nat -> nat -> nat -> A)
  : tensor A :=
mkTensor [B; P; Fc; 3%nat]
  (fun I => match I with [b; p; f; s] => g b p f s | _ => d end).

(** [t.reshape(B, P, -1)] of a [(B, P, F, 3)] tensor. *)
Definition reshape_faces {A : Type} (B P Fc : nat) (d : A) (g : nat -> nat -> nat -> nat -> A)
  : tensor A :=
mkTensor [B; P; (Fc * 3)%nat]
  (fun I => match I with
            | [b; p; k] => g b p (k / 3)%nat (k mod 3)%nat
            | _ => d
            end).

(** The weights [wj] before they are normalised (up to the second
    [torch.where] on [close_to_point]).  The tensors are [query (B,P,3)],
    [vertices (B,N,3)] and [faces (B,F,3)] of one batch size; [torch.gather]
    raises on a face index outside the vertices, the three [assert] on a
    value that is not finite. *)
Definition vertex_weights (query vertices : tensor R) (faces : tensor Z)
  : result (tensor fl) :=
match shape faces, shape query, shape vertices with
| [B; Fc; 3%nat], [Bq; P; 3%nat], [Bv; N; 3%nat] =>
    if (Bq =? B)%nat && (Bv =? B)%nat && index_in_range faces N then
      _ <- assert_ (check_values
                      (per_corner B P Fc None (theta_i query vertices faces))) ;;
      _ <- assert_ (check_values
                      (per_corner B P Fc None (si query vertices faces))) ;;
      _ <- assert_ (check_values
                      (per_corner B P Fc None
                         (fun b p f s => Some (di query vertices faces b p f s)))) ;;
      wj <- scatter_add
              (reshape_faces B P Fc (Some 0) (wi query vertices faces Fc))
              (reshape_faces B P Fc 0%Z (fun b _ f s => get faces [b; f; s]))
              2 None (Some 0) ;;
      let close_to_point :=
        mkTensor [B; P; N]
          (fun I => match I with
                    | [b; p; n] => close_to_point query vertices b p n
                    | _ => false
                    end) in
      any_close <- reduce_keepdim (existsb (fun c => c)) close_to_point 2 ;;
      wj <- broadcast2 (fun (c : bool) (w : fl) => if c then Some 0 else w) any_close wj ;;
      broadcast2 (fun (c : bool) (w : fl) => if c then Some 1 else w) close_to_point wj
    else Raise RuntimeError
| _, _, _ => Raise ValueError
end.

(** [mean_value_coordinates_3D(query, vertices, faces)]: the weights, each
    row divided by its sum, or left as it is when the sum is zero. *)
Definition mean_value_coordinates_3D (query vertices : tensor R) (faces : tensor Z)
  : result (tensor fl) :=
wj <- vertex_weights query vertices faces ;;
sumWj <- sum_keepdim wj 2 ;;
let sumWj := tmap (fun s => if feqb s 0 then Some 1 else s) sumWj in
broadcast2 fdiv wj sumWj.

(** The sum of row [(b, p)] of a [(B, P, N)] tensor of weights. *)
Definition row_total (w : tensor fl) (b p : nat) : fl :=
fsum (map (fun n => get w [b; p; n]) (seq 0 (nth 2 (shape w) O))).

End MeanValue.

(** ** The angles and the coincident vertices of a query *)

Module MeanValueMeaning.
Import CotLaplacian MeanValue.

(** The chord between two unit vectors of a face: [li] before its clamps. *)
Definition chord (query vertices : tensor R) (faces : tensor Z) (b p f s : nat) : R :=
vnorm (vsub (ui query vertices faces b p f (next s))
            (ui query vertices faces b p f (prev s))).

(** The angle the chord subtends, as a real number. *)
Definition theta (query vertices : tensor R) (faces : tensor Z) (b p f s : nat) : R :=
2 * asin (li query vertices faces b p f s / 2).



(** The number of vertices of the mesh that query [(b, p)] is close to. *)
Definition close_count (query vertices : tensor R) (N b p : nat) : R :=
Rsum (map (fun n => if close_to_point query vertices b p n then 1 else 0) (seq 0 N)).

End MeanValueMeaning.

(** ** Small meshes *)

(** The query at the origin. *)
Definition mv_query : tensor R := mkTensor [1; 1; 3]%nat (fun _ => 0).

(** One face over the first three vertices. *)
Definition mv_faces : tensor Z :=
mkTensor [1; 1; 3]%nat
  (fun I => match I with [_; _; s] => Z.of_nat s | _ => 0%Z end).



(** The triangle [(1,0,0), (0,1,0), (0,0,0)]: the origin is its last
    vertex. *)
Definition corner_vertices : tensor R :=
mkTensor [1; 3; 3]%nat
  (fun I => match I with
            | [_; 0%nat; 0%nat] => 1 | [_; 1%nat; 1%nat] => 1
            | _ => 0
            end).

(** Four vertices [(0,0,0), (1,0,0), (0,1,0), (0,0,0)], the first and the
    last at the origin, and the face over the last three. *)
Definition twin_vertices : tensor R :=
mkTensor [1; 4; 3]%nat
  (fun I => match I with
            | [_; 1%nat; 0%nat] => 1 | [_; 2%nat; 1%nat] => 1
            | _ => 0
            end).

Definition twin_faces : tensor Z :=
mkTensor [1; 1; 3]%nat
  (fun I => match I with [_; _; s] => Z.of_nat (S s) | _ => 0%Z end).

(** ** Small inputs and auxiliary notions of the proofs *)

(** A concrete call for C10: three source values scattered along dimension 1
    to positions 2, 0, 2. *)
Definition c10_src : tensor R :=
  mkTensor [1; 3]%nat
    (fun I => match I with
              | [_; 0%nat] => 5 | [_; 1%nat] => 7 | [_; 2%nat] => 11 | _ => 0
              end).

Definition c10_idx : tensor Z :=
  mkTensor [1; 3]%nat
    (fun I => match I with
              | [_; 0%nat] => 2 | [_; 1%nat] => 0 | [_; 2%nat] => 2 | _ => 0
              end)%Z.

(** A concrete call for C1: one batch, two channels, three points; the
    index names point 2 twice. *)
Definition c1_features : tensor R :=
  mkTensor [1; 2; 3]%nat
    (fun I => match I with
              | [_; 0%nat; 0%nat] => 1 | [_; 0%nat; 1%nat] => 2 | [_; 0%nat; 2%nat] => 3
              | [_; 1%nat; 0%nat] => 4 | [_; 1%nat; 1%nat] => 5 | [_; 1%nat; 2%nat] => 6
              | _ => 0
              end).

Definition c1_idx : tensor Z :=
  mkTensor [1; 2]%nat (fun _ => 2%Z).

(** A cloud of two distinct points, in the [(B, N, 3)] layout. *)
Definition c9_two_points : tensor R :=
  mkTensor [1; 2; 3]%nat
    (fun I => match I with [_; 1%nat; 0%nat] => 2 | _ => 0 end).

(** A cloud of a single point [(1, 2, 3)], in the [(B, N, 3)] layout. *)
Definition c9_single_point : tensor R :=
  mkTensor [1; 1; 3]%nat
    (fun I => match I with
              | [_; _; 0%nat] => 1 | [_; _; 1%nat] => 2 | [_; _; 2%nat] => 3
              | _ => 0
              end).

(** Case analysis on the comparisons of natural numbers in the goal. *)
Ltac bool_cases :=
  repeat match goal with
         | |- context [(?x <=? ?y)%nat] => destruct (Nat.leb_spec x y)
         | |- context [(?x <? ?y)%nat] => destruct (Nat.ltb_spec x y)
         | |- context [(?x =? ?y)%nat] => destruct (Nat.eqb_spec x y)
         end; simpl; try reflexivity; try lia.

(** A right triangle with sides 3, 4, 5: vertex 1 at the right angle, so the
    angle at vertex 0, opposite the edge 2-3 of length 4, has cotangent 3/4. *)
Definition c7_V : tensor R :=
  mkTensor [1; 3; 3]%nat
    (fun I => match I with
              | [_; 0%nat; 0%nat] => 3
              | [_; 2%nat; 1%nat] => 4
              | _ => 0
              end).

Definition c7_F : tensor Z :=
  mkTensor [1; 1; 3]%nat
    (fun I => match I with
              | [_; _; 0%nat] => 0 | [_; _; 1%nat] => 1 | [_; _; 2%nat] => 2
              | _ => 0
              end)%Z.

(** The order [sort_desc] sorts by: larger values first. *)
Definition desc (x y : R * nat) : Prop := fst y <= fst x.

(** Points on a line (one channel), as a tensor of shape [(1, n, 1)]. *)
Definition line (l : list R) : tensor R :=
  mkTensor [1; length l; 1]%nat
    (fun I => match I with [_; j; _] => nth j l 0 | _ => 0 end).

(** Two copies of the point [0] on a line and one query at [1]. *)
Definition c3_points : tensor R := mkTensor [1; 2; 1]%nat (fun _ => 0).

Definition c3_query : tensor R := mkTensor [1; 1; 1]%nat (fun _ => 1).

(** Two distinct points on a line. *)
Definition c5_points : tensor R :=
  mkTensor [1; 2; 1]%nat (fun I => match I with [_; 1%nat; _] => 3 | _ => 0 end).

(** A point, its copy and a second point, with the query on the first. *)
Definition tie_points : tensor R :=
  mkTensor [1; 3; 1]%nat (fun I => match I with [_; 2%nat; _] => 1 | _ => 0 end).

Definition tie_query : tensor R := mkTensor [1; 1; 1]%nat (fun _ => 0).

(** Coordinates whose squares need more than the 24 bits of float32. *)
Definition far_query : tensor R := line [5793].

Definition far_points : tensor R := line [5794; 5791].

Definition far_query' : tensor R := line [8194].

Definition far_points' : tensor R := line [8195; 8195; 8154].

(** A point, its copy and a second point, seen from [1]; and two points at the
    same distance from [1]. *)
Definition copy_points : tensor R := line [0; 0; 3].

Definition copy_query : tensor R := line [1].

Definition equidistant_points : tensor R := line [0; 2].

(* ================================================================== *)
(** * Part II: proofs *)
(* ================================================================== *)

Unset Implicit Arguments.

(** ** Sums and folds *)

Lemma Rsum_app (l1 l2 : list R) : Rsum (l1 ++ l2) = Rsum l1 + Rsum l2.
Proof. induction l1 as [|x l1 IH]; simpl; [lra | rewrite IH; lra]. Qed.

Lemma Rsum_map_plus {X : Type} (f g : X -> R) (l : list X) :
  Rsum (map (fun x => f x + g x) l) = Rsum (map f l) + Rsum (map g l).
Proof. induction l as [|x l IH]; simpl; [lra | rewrite IH; lra]. Qed.

Lemma Rsum_map_scal {X : Type} (c : R) (f : X -> R) (l : list X) :
  Rsum (map (fun x => c * f x) l) = c * Rsum (map f l).
Proof. induction l as [|x l IH]; simpl; [lra | rewrite IH; lra]. Qed.

Lemma Rsum_map_ext {X : Type} (f g : X -> R) (l : list X) :
  (forall x, In x l -> f x = g x) -> Rsum (map f l) = Rsum (map g l).
Proof.
  induction l as [|x l IH]; simpl; intros Hfg; [reflexivity|].
  rewrite (Hfg x) by auto. rewrite IH; auto.
Qed.

Lemma Rsum_map_zero {X : Type} (f : X -> R) (l : list X) :
  (forall x, In x l -> f x = 0) -> Rsum (map f l) = 0.
Proof.
  induction l as [|x l IH]; simpl; intros Hf; [reflexivity|].
  rewrite (Hf x) by auto. rewrite IH by auto. lra.
Qed.

Lemma fold_left_Rplus (l : list R) (a : R) : fold_left Rplus l a = a + Rsum l.
Proof.
  revert a; induction l as [|x l IH]; simpl; intros a; [lra | rewrite IH; lra].
Qed.

(** Picking the one element equal to [J0] out of a duplicate-free list. *)
Lemma Rsum_pick (g : list nat -> R) (J0 : list nat) (L : list (list nat)) :
  NoDup L -> In J0 L ->
  Rsum (map (fun J => if index_eqb J J0 then g J else 0) L) = g J0.
Proof.
  unfold index_eqb.
  induction L as [|J L IH]; simpl; intros Hnd Hin; [contradiction|].
  inversion Hnd as [|? ? Hnotin Hnd']; subst.
  destruct (list_eq_dec Nat.eq_dec J J0) as [->|Hne].
  - rewrite Rsum_map_zero; [lra|].
    intros K HK. destruct (list_eq_dec Nat.eq_dec K J0); [congruence | reflexivity].
  - destruct Hin as [Heq|Hin]; [congruence|]. rewrite IH by assumption. lra.
Qed.

(** ** Multi-indices *)

Lemma in_indices_cons (i : nat) (I : list nat) (n : nat) (sh : list nat) :
  In (i :: I) (indices (n :: sh)) <-> (i < n)%nat /\ In I (indices sh).
Proof.
  simpl. rewrite in_flat_map. split.
  - intros [j [Hj Hin]]. apply in_map_iff in Hin as [I' [Heq HI']].
    injection Heq as -> ->. apply in_seq in Hj. split; [lia | assumption].
  - intros [Hlt HI]. exists i. split; [apply in_seq; lia | now apply in_map].
Qed.

Lemma in_indices_length (sh : list nat) (I : list nat) :
  In I (indices sh) -> length I = length sh.
Proof.
  revert I; induction sh as [|n sh IH]; simpl; intros I HI.
  - destruct HI as [<-|[]]. reflexivity.
  - apply in_flat_map in HI as [j [_ Hin]].
    apply in_map_iff in Hin as [I' [<- HI']]. simpl. now rewrite (IH I').
Qed.

Lemma in_indices_nth (sh I : list nat) :
  In I (indices sh) <->
  length I = length sh /\ forall d, (d < length sh)%nat -> (nth d I O < nth d sh O)%nat.
Proof.
  revert I; induction sh as [|n sh IH]; intros I.
  - simpl. split.
    + intros [<-|[]]. split; [reflexivity | intros d Hd; inversion Hd].
    + intros [Hlen _]. destruct I; [now left | discriminate].
  - destruct I as [|i I].
    + split.
      * intros HI. apply in_indices_length in HI. discriminate.
      * intros [Hlen _]. discriminate.
    + rewrite in_indices_cons, IH. simpl. split.
      * intros [Hi [Hlen Hall]]. split; [congruence|].
        intros [|d] Hd; [assumption | apply Hall; lia].
      * intros [Hlen Hall]. split; [apply (Hall O); lia|].
        split; [congruence|]. intros d Hd. apply (Hall (S d)). lia.
Qed.

Lemma NoDup_indices (sh : list nat) : NoDup (indices sh).
Proof.
  induction sh as [|n sh IH]; simpl.
  - constructor; [intros [] | constructor].
  - generalize (seq_NoDup n 0). generalize (seq 0 n) as l.
    induction l as [|j l IHl]; simpl; intros Hnd; [constructor|].
    inversion Hnd as [|? ? Hnotin Hnd']; subst.
    apply NoDup_app.
    + apply NoDup_map_NoDup_ForallPairs; [|assumption].
      intros x y _ _ Heq. now injection Heq.
    + now apply IHl.
    + intros I HI1 HI2. apply in_map_iff in HI1 as [I1 [<- _]].
      apply in_flat_map in HI2 as [k [Hk HI2]].
      apply in_map_iff in HI2 as [I2 [Heq _]]. injection Heq as <- _. contradiction.
Qed.

Lemma set_nth_length (d v : nat) (I : list nat) :
  length (set_nth d v I) = length I.
Proof.
  revert d; induction I as [|i I IH]; intros [|d]; simpl; try reflexivity.
  now rewrite IH.
Qed.

Lemma nth_set_nth_same (d v : nat) (I : list nat) :
  (d < length I)%nat -> nth d (set_nth d v I) O = v.
Proof.
  revert d; induction I as [|i I IH]; intros [|d]; simpl; intros Hd;
    try lia; try reflexivity. apply IH; lia.
Qed.

Lemma nth_set_nth_other (d e v : nat) (I : list nat) :
  d <> e -> nth e (set_nth d v I) O = nth e I O.
Proof.
  revert d e; induction I as [|i I IH]; intros [|d] [|e]; simpl; intros Hne;
    try reflexivity; try congruence. apply IH. congruence.
Qed.

Lemma shape_le_spec (s1 s2 : list nat) :
  shape_le s1 s2 = true <->
  length s1 = length s2 /\ forall d, (nth d s1 O <= nth d s2 O)%nat.
Proof.
  revert s2; induction s1 as [|a s1 IH]; intros [|b s2]; simpl.
  - split; [intros _; split; [reflexivity | intros [|d]; lia] | reflexivity].
  - split; [discriminate | intros [Hl _]; discriminate].
  - split; [discriminate | intros [Hl _]; discriminate].
  - rewrite andb_true_iff, Nat.leb_le, IH. split.
    + intros [Hab [Hl Hall]]. split; [congruence|]. intros [|d]; [assumption | apply Hall].
    + intros [Hl Hall]. split; [apply (Hall O)|]. split; [congruence|].
      intros d. apply (Hall (S d)).
Qed.

Lemma shape_le_except_spec (dim : nat) (s1 s2 : list nat) :
  shape_le_except dim s1 s2 = true <->
  length s1 = length s2 /\ forall d, d <> dim -> (nth d s1 O <= nth d s2 O)%nat.
Proof.
  revert dim s2; induction s1 as [|a s1 IH]; intros dim [|b s2]; simpl.
  - split; [intros _; split; [reflexivity | intros [|d]; lia] | reflexivity].
  - split; [discriminate | intros [Hl _]; discriminate].
  - split; [discriminate | intros [Hl _]; discriminate].
  - destruct dim as [|dim].
    + rewrite shape_le_spec. split.
      * intros [Hl Hall]. split; [congruence|]. intros [|d] Hd; [congruence | apply Hall].
      * intros [Hl Hall]. split; [congruence|]. intros d. apply (Hall (S d)). congruence.
    + rewrite andb_true_iff, Nat.leb_le, IH. split.
      * intros [Hab [Hl Hall]]. split; [congruence|].
        intros [|d] Hd; [assumption | apply Hall; congruence].
      * intros [Hl Hall]. split; [apply (Hall O); congruence|]. split; [congruence|].
        intros d Hd. apply (Hall (S d)). congruence.
Qed.

(** A position of the index tensor is sent inside the output. *)
Lemma target_in_shape (dim : nat) (idx : tensor Z) (out_shape : list nat) (I : list nat) :
  (dim < length out_shape)%nat ->
  shape_le_except dim (shape idx) out_shape = true ->
  index_in_range idx (nth dim out_shape O) = true ->
  In I (indices (shape idx)) ->
  In (target dim idx I) (indices out_shape).
Proof.
  intros Hdim Hle Hrange HI.
  apply shape_le_except_spec in Hle as [Hlen Hle].
  apply in_indices_nth in HI as HI'. destruct HI' as [HIlen HIall].
  unfold target. apply in_indices_nth. split.
  - rewrite set_nth_length. congruence.
  - intros d Hd. destruct (Nat.eq_dec dim d) as [<-|Hne].
    + rewrite nth_set_nth_same by lia.
      unfold index_in_range in Hrange. rewrite forallb_forall in Hrange.
      specialize (Hrange (get idx I)).
      assert (Hin : In (get idx I) (elements idx)) by (unfold elements; now apply in_map).
      apply Hrange in Hin. apply andb_true_iff in Hin as [H0 H1].
      apply Z.leb_le in H0. apply Z.ltb_lt in H1. lia.
    + rewrite nth_set_nth_other by assumption.
      specialize (HIall d ltac:(lia)). specialize (Hle d ltac:(congruence)). lia.
Qed.

(** ** scatter_add_ and gather, elementwise *)

Lemma index_eqb_refl (I : list nat) : index_eqb I I = true.
Proof. unfold index_eqb. destruct (list_eq_dec Nat.eq_dec I I); congruence. Qed.

Lemma index_eqb_eq (I J : list nat) : index_eqb I J = true <-> I = J.
Proof.
  unfold index_eqb. destruct (list_eq_dec Nat.eq_dec I J); split; congruence.
Qed.

Section ScatterFacts.
Context {A : Type} `{Elem A}.

(** The accumulation loop leaves at [J] the initial value plus, in order,
    the source elements sent to [J]. *)
Lemma scatter_loop_get (dim : nat) (idx : tensor Z) (src : tensor A)
      (L : list (list nat)) (g : list nat -> A) (J : list nat) :
  fold_left
    (fun g I => upd g (target dim idx I)
                    (eadd (g (target dim idx I)) (get src I))) L g J
  = fold_left eadd
      (map (get src) (filter (fun I => index_eqb J (target dim idx I)) L))
      (g J).
Proof.
  revert g; induction L as [|I L IH]; intros g; simpl; [reflexivity|].
  rewrite IH. unfold upd at 1.
  destruct (index_eqb J (target dim idx I)) eqn:E; simpl; [|reflexivity].
  apply index_eqb_eq in E. now subst J.
Qed.

Lemma scatter_add__get (self : tensor A) (dim : nat) (idx : tensor Z)
      (src out : tensor A) :
  scatter_add_ self dim idx src = Ok out ->
  shape out = shape self /\
  forall J, get out J
            = fold_left eadd (map (get src) (scattered_to dim idx J)) (get self J).
Proof.
  unfold scatter_add_. destruct (_ && _); [|discriminate].
  intros [= <-]. simpl. split; [reflexivity|].
  intros J. apply scatter_loop_get.
Qed.

Lemma scatter_add__ok (self : tensor A) (dim : nat) (idx : tensor Z) (src : tensor A) :
  (dim < length (shape self))%nat ->
  shape_le (shape idx) (shape src) = true ->
  shape_le_except dim (shape idx) (shape self) = true ->
  index_in_range idx (nth dim (shape self) O) = true ->
  exists out, scatter_add_ self dim idx src = Ok out.
Proof.
  intros Hd H1 H2 H3. unfold scatter_add_.
  apply Nat.ltb_lt in Hd. rewrite Hd, H1, H2, H3. simpl. eauto.
Qed.

End ScatterFacts.

Lemma fold_left_Zmax_ge (l : list Z) (x : Z) :
  (x <= fold_left Z.max l x)%Z /\ Forall (fun v => v <= fold_left Z.max l x)%Z l.
Proof.
  revert x; induction l as [|y l IH]; intros x; simpl.
  - split; [lia | constructor].
  - destruct (IH (Z.max x y)) as [H1 H2]. split; [lia|].
    constructor; [lia | assumption].
Qed.

Lemma fold_left_Zmax_in (l : list Z) (x : Z) : In (fold_left Z.max l x) (x :: l).
Proof.
  revert x; induction l as [|y l IH]; intros x; simpl; [now left|].
  destruct (IH (Z.max x y)) as [Heq|Hin].
  - rewrite <- Heq.
    destruct (Z.max_spec x y) as [[_ Hm]|[_ Hm]]; rewrite Hm; auto.
  - auto.
Qed.

Lemma tmax_spec (idx : tensor Z) :
  elements idx <> [] ->
  exists m, tmax idx = Some m /\ In m (elements idx) /\
            Forall (fun v => v <= m)%Z (elements idx).
Proof.
  unfold tmax. destruct (elements idx) as [|x l]; [congruence|]. intros _.
  exists (fold_left Z.max l x). split; [reflexivity|].
  split; [apply fold_left_Zmax_in|].
  destruct (fold_left_Zmax_ge l x). now constructor.
Qed.

Lemma shape_le_except_set_nth (dim v : nat) (s1 s2 : list nat) :
  shape_le s1 s2 = true -> shape_le_except dim s1 (set_nth dim v s2) = true.
Proof.
  intros Hle. apply shape_le_spec in Hle as [Hlen Hall].
  apply shape_le_except_spec. rewrite set_nth_length. split; [assumption|].
  intros d Hd. rewrite nth_set_nth_other by congruence. apply Hall.
Qed.

Lemma tmax_Some (idx : tensor Z) (m : Z) :
  tmax idx = Some m ->
  In m (elements idx) /\ Forall (fun v => v <= m)%Z (elements idx).
Proof.
  intros Hm. assert (Hne : elements idx <> []).
  { intros E. unfold tmax in Hm. rewrite E in Hm. discriminate. }
  destruct (tmax_spec idx Hne) as [m' [Hm' H]].
  rewrite Hm in Hm'. injection Hm' as <-. exact H.
Qed.

(** What a call of [scatter_add] without [out_size] that returns has
    computed. *)
Lemma scatter_add_returned {A : Type} `{Elem A} (src : tensor A) (idx : tensor Z)
      (dim : nat) (fill : A) (out : tensor A) :
  scatter_add src idx dim None fill = Ok out ->
  exists m, tmax idx = Some m /\ (0 <= m + 1)%Z /\
            shape out = set_nth dim (Z.to_nat (m + 1)) (shape src) /\
            forall J, get out J
                      = fold_left eadd (map (get src) (scattered_to dim idx J)) fill.
Proof.
  unfold scatter_add. destruct (tmax idx) as [m|]; [|discriminate].
  destruct (dim <? length (shape src))%nat; [|discriminate].
  destruct (Z.ltb_spec (m + 1) 0) as [|Hm]; [discriminate|].
  unfold _scatter_add, ScatterAdd_forward.
  destruct (scatter_add_ _ dim idx src) as [o|] eqn:E; [|discriminate].
  simpl. intros [= <-]. apply scatter_add__get in E as [Hs Hg].
  exists m. split; [reflexivity|]. split; [assumption|]. split; assumption.
Qed.

(** A call of [scatter_add] without [out_size] returns when the index has an
    element, fits inside [src] and holds no negative entry. *)
Lemma scatter_add_returns {A : Type} `{Elem A} (src : tensor A) (idx : tensor Z)
      (dim : nat) (fill : A) :
  (dim < length (shape src))%nat ->
  shape_le (shape idx) (shape src) = true ->
  elements idx <> [] ->
  Forall (fun v => 0 <= v)%Z (elements idx) ->
  exists out, scatter_add src idx dim None fill = Ok out.
Proof.
  intros Hdim Hfit Hne Hpos.
  destruct (tmax_spec idx Hne) as [m [Hm [Hin Hmax]]].
  assert (Hm0 : (0 <= m)%Z).
  { rewrite Forall_forall in Hpos. now apply Hpos. }
  unfold scatter_add. rewrite Hm.
  apply Nat.ltb_lt in Hdim as Hdim'. rewrite Hdim'.
  destruct (Z.ltb_spec (m + 1) 0) as [|_]; [lia|].
  unfold _scatter_add, ScatterAdd_forward.
  destruct (@scatter_add__ok A _ (full (set_nth dim (Z.to_nat (m + 1)) (shape src)) fill)
              dim idx src) as [out Hout].
  - simpl. now rewrite set_nth_length.
  - assumption.
  - simpl. now apply shape_le_except_set_nth.
  - simpl. rewrite nth_set_nth_same by assumption.
    unfold index_in_range. apply forallb_forall. intros v Hv.
    rewrite Forall_forall in Hpos, Hmax.
    specialize (Hpos v Hv). specialize (Hmax v Hv).
    apply andb_true_iff. split; [apply Z.leb_le | apply Z.ltb_lt]; lia.
  - rewrite Hout. simpl. eauto.
Qed.

(** C10: [scatter_add] without [out_size].  For an index tensor that has at
    least one element, fits inside [src] and holds no negative entry, the call
    returns; the output has [idx.max() + 1] positions along [dim] and the
    sizes of [src] along every other dimension; every position holds [fill]
    plus the source values sent to it, so a position no index names keeps
    [fill]. *)
Theorem scatter_add_default_out_size
        {A : Type} `{Elem A} (src : tensor A) (idx : tensor Z) (dim : nat) (fill : A) :
  (dim < length (shape src))%nat ->
  shape_le (shape idx) (shape src) = true ->
  elements idx <> [] ->
  Forall (fun v => 0 <= v)%Z (elements idx) ->
  exists (out : tensor A) (m : Z),
    tmax idx = Some m /\
    In m (elements idx) /\ Forall (fun v => v <= m)%Z (elements idx) /\
    scatter_add src idx dim None fill = Ok out /\
    length (shape out) = length (shape src) /\
    nth dim (shape out) O = (Z.to_nat m + 1)%nat /\
    (forall d, d <> dim -> nth d (shape out) O = nth d (shape src) O) /\
    (forall J, get out J
               = fold_left eadd (map (get src) (scattered_to dim idx J)) fill) /\
    (forall J, scattered_to dim idx J = [] -> get out J = fill).
Proof.
  intros Hdim Hfit Hne Hpos.
  destruct (scatter_add_returns src idx dim fill Hdim Hfit Hne Hpos) as [out Hout].
  destruct (scatter_add_returned src idx dim fill out Hout) as [m [Hm [_ [Hshape Hval]]]].
  destruct (tmax_Some idx m Hm) as [Hin Hmax].
  assert (Hm0 : (0 <= m)%Z).
  { rewrite Forall_forall in Hpos. now apply Hpos. }
  exists out, m. repeat split; try assumption.
  - rewrite Hshape. apply set_nth_length.
  - rewrite Hshape, nth_set_nth_same by assumption.
    rewrite Z2Nat.inj_add by lia. reflexivity.
  - intros d Hd. rewrite Hshape. apply nth_set_nth_other. congruence.
  - intros J HJ. rewrite Hval, HJ. reflexivity.
Qed.

Lemma scatter_add_default_out_size_witness :
  exists (out : tensor R) (m : Z),
    tmax c10_idx = Some m /\
    In m (elements c10_idx) /\ Forall (fun v => v <= m)%Z (elements c10_idx) /\
    scatter_add c10_src c10_idx 1 None 0 = Ok out /\
    length (shape out) = length (shape c10_src) /\
    nth 1 (shape out) O = (Z.to_nat m + 1)%nat /\
    (forall d, d <> 1%nat -> nth d (shape out) O = nth d (shape c10_src) O) /\
    (forall J, get out J
               = fold_left eadd (map (get c10_src) (scattered_to 1 c10_idx J)) 0) /\
    (forall J, scattered_to 1 c10_idx J = [] -> get out J = 0).
Proof.
  apply (@scatter_add_default_out_size R _ c10_src c10_idx 1%nat 0).
  - simpl. lia.
  - reflexivity.
  - simpl. discriminate.
  - unfold elements, c10_idx. simpl.
    repeat (apply Forall_cons; [lia|]). apply Forall_nil.
Defined.

(** The same call, evaluated: the output is [[16, 0, 7]] after filling with
    [0]: position 0 receives 7, position 1 nothing, position 2 receives 5 + 11. *)
Example scatter_add_default_out_size_example :
  exists out : tensor R,
    scatter_add c10_src c10_idx 1 None 0 = Ok out /\
    shape out = [1; 3]%nat /\
    get out [0; 0]%nat = 7 /\ get out [0; 1]%nat = 0 /\ get out [0; 2]%nat = 16.
Proof.
  eexists. split; [reflexivity|]. simpl. unfold upd. simpl.
  repeat split; lra.
Qed.

(** ** Gather and scatter-add are adjoint *)

(** Swapping the two sums of a scatter: pairing the scattered values with
    [G] over the output positions is pairing the source with [G] read back
    at the targets. *)
Lemma scatter_pairing (t : list nat -> list nat) (s G : list nat -> R)
      (LI LJ : list (list nat)) :
  NoDup LJ ->
  (forall I, In I LI -> In (t I) LJ) ->
  Rsum (map (fun J => Rsum (map s (filter (fun I => index_eqb J (t I)) LI)) * G J) LJ)
  = Rsum (map (fun I => s I * G (t I)) LI).
Proof.
  intros Hnd. induction LI as [|a LI IH]; intros Hin; simpl.
  - apply Rsum_map_zero. intros J _. lra.
  - rewrite <- IH by (intros I HI; apply Hin; now right).
    rewrite <- (Rsum_pick (fun J => s a * G J) (t a) LJ Hnd) by (apply Hin; now left).
    rewrite <- Rsum_map_plus. apply Rsum_map_ext. intros J _.
    destruct (index_eqb J (t a)); simpl; lra.
Qed.

Lemma scatter_add__adjoint (self src out G : tensor R) (dim : nat) (idx : tensor Z) :
  scatter_add_ self dim idx src = Ok out ->
  Rsum (map (fun J => get out J * get G J) (indices (shape self)))
  = Rsum (map (fun J => get self J * get G J) (indices (shape self)))
    + Rsum (map (fun I => get src I * get G (target dim idx I)) (indices (shape idx))).
Proof.
  intros Hout. pose proof (scatter_add__get _ _ _ _ _ Hout) as [_ Hget].
  unfold scatter_add_ in Hout.
  destruct (_ && _) eqn:Hok; [|discriminate].
  repeat (apply andb_true_iff in Hok as [Hok ?]). apply Nat.ltb_lt in Hok.
  rewrite <- (scatter_pairing (target dim idx) (get src) (get G)
                (indices (shape idx)) (indices (shape self))).
  - rewrite <- Rsum_map_plus. apply Rsum_map_ext. intros J _.
    rewrite Hget. simpl. rewrite fold_left_Rplus. unfold scattered_to. lra.
  - apply NoDup_indices.
  - intros I HI. now apply target_in_shape.
Qed.

Lemma Rsum_map_const_mult {X : Type} (c : R) (f : X -> R) (l : list X) :
  Rsum (map (fun x => c * f x) l) = c * Rsum (map f l).
Proof. apply Rsum_map_scal. Qed.

(** The backward pass of [ScatterAdd] is the gather of the output gradient,
    and the two are adjoint: the pairing of the forward output with any
    [ograd] is [fill * sum(ograd)] plus the pairing of [src] with the
    gradient returned for it. *)
Lemma ScatterAdd_backward_is_gather (src ograd out : tensor R) (idx : tensor Z)
      (dim : nat) (out_size : list nat) (fill : R) (ctx : ScatterAdd_ctx) :
  ScatterAdd_forward src idx dim out_size fill = Ok (out, ctx) ->
  shape ograd = out_size ->
  exists grad : tensor R,
    gather ograd dim idx = Ok grad /\
    ScatterAdd_backward ctx ograd = Ok (grad, None, None, None, None) /\
    shape grad = shape idx /\
    (forall I, get grad I = get ograd (target dim idx I)) /\
    inner out ograd = fill * tsum ograd + inner grad src.
Proof.
  unfold ScatterAdd_forward. intros Hfw Hshape.
  destruct (scatter_add_ (full out_size fill) dim idx src) as [o|e] eqn:Hout;
    simpl in Hfw; [|discriminate].
  injection Hfw as <- <-.
  pose proof (scatter_add__adjoint _ _ _ ograd _ _ Hout) as Hadj.
  pose proof (scatter_add__get _ _ _ _ _ Hout) as [Hsh _].
  unfold scatter_add_ in Hout. simpl in Hout.
  destruct (_ && _) eqn:Hok; [|discriminate].
  apply andb_true_iff in Hok as [Hok Hrange].
  apply andb_true_iff in Hok as [Hok Hexc].
  apply andb_true_iff in Hok as [Hdim Hfit].
  assert (Hg : gather ograd dim idx
               = Ok (mkTensor (shape idx) (fun I => get ograd (target dim idx I)))).
  { unfold gather. rewrite Hshape, Hdim, Hexc, Hrange. reflexivity. }
  eexists. split; [exact Hg|].
  split; [unfold ScatterAdd_backward; simpl; rewrite Hg; reflexivity|].
  split; [reflexivity|]. split; [reflexivity|].
  unfold inner, tsum, elements. rewrite Hsh. simpl in *. rewrite Hadj.
  rewrite Hshape. f_equal.
  - rewrite <- Rsum_map_scal. reflexivity.
  - apply Rsum_map_ext. intros I _. lra.
Qed.

(** ** The gather kernels, elementwise *)

Lemma fold_left_ext_in {X Y : Type} (f f' : Y -> X -> Y) (L : list X) (g : Y) :
  (forall g x, In x L -> f g x = f' g x) ->
  fold_left f L g = fold_left f' L g.
Proof.
  revert g; induction L as [|x L IH]; intros g Hext; simpl; [reflexivity|].
  rewrite Hext by now left. apply IH. intros g' y Hy. apply Hext. now right.
Qed.

Section GatherKernels.
Context {A : Type} `{Elem A}.
Variables (features : tensor A) (idx : tensor Z).

Let gathered (I : list nat) : A :=
  match I with
  | [b; c; m] => get features [b; c; Z.to_nat (get idx [b; m])]
  | _ => ezero
  end.

Let fstep (g : list nat -> A) (I : list nat) : list nat -> A :=
  match I with
  | [b; c; m] => upd g I (get features [b; c; Z.to_nat (get idx [b; m])])
  | _ => g
  end.

Lemma gather_loop_notin (L : list (list nat)) (g : list nat -> A) (J : list nat) :
  ~ In J L -> fold_left fstep L g J = g J.
Proof.
  revert g; induction L as [|I L IH]; intros g Hnotin; simpl; [reflexivity|].
  rewrite IH by (intros HJ; apply Hnotin; now right).
  assert (Hne : J <> I) by (intros ->; apply Hnotin; now left).
  unfold fstep. destruct I as [|b [|c [|m [|? ?]]]]; try reflexivity.
  unfold upd. destruct (index_eqb J [b; c; m]) eqn:E; [|reflexivity].
  apply index_eqb_eq in E. contradiction.
Qed.

Lemma gather_loop_in (L : list (list nat)) (g : list nat -> A) (J : list nat) :
  length J = 3%nat -> In J L -> fold_left fstep L g J = gathered J.
Proof.
  intros HJ. revert g; induction L as [|I L IH]; intros g Hin; simpl; [contradiction|].
  destruct (in_dec (list_eq_dec Nat.eq_dec) J L) as [HL|HL].
  - now apply IH.
  - destruct Hin as [->|Hin]; [|contradiction].
    rewrite gather_loop_notin by assumption.
    destruct J as [|b [|c [|m [|? ?]]]]; try discriminate.
    simpl. unfold upd. now rewrite index_eqb_refl.
Qed.

Lemma sampling_gather_forward_get (B C N npoint : nat) (output : tensor A) (b c m : nat) :
  (b < B)%nat -> (c < C)%nat -> (m < npoint)%nat ->
  get (sampling_gather_forward B C N npoint features idx output) [b; c; m]
  = get features [b; c; Z.to_nat (get idx [b; m])].
Proof.
  intros Hb Hc Hm. unfold sampling_gather_forward. simpl get.
  change (fold_left fstep (indices [B; C; npoint]) (get output) [b; c; m]
          = gathered [b; c; m]).
  apply gather_loop_in; [reflexivity|].
  repeat (apply in_indices_cons; split; [assumption|]). now left.
Qed.

End GatherKernels.

Lemma expand_channels_shape (C B M : nat) (idx : tensor Z) :
  shape idx = [B; M] -> shape (expand_channels C idx) = [B; C; M].
Proof. intros Hs. unfold expand_channels. simpl. now rewrite Hs. Qed.

Lemma expand_channels_in_range (C B M n : nat) (idx : tensor Z) :
  shape idx = [B; M] ->
  index_in_range idx n = true ->
  index_in_range (expand_channels C idx) n = true.
Proof.
  intros Hs Hr. unfold index_in_range in *. rewrite forallb_forall in *.
  intros v Hv. unfold elements in Hv. apply in_map_iff in Hv as [I [<- HI]].
  rewrite (expand_channels_shape C B M idx Hs) in HI.
  destruct I as [|b [|c [|m [|? ?]]]];
    try (apply in_indices_length in HI; discriminate).
  apply in_indices_cons in HI as [Hb HI].
  apply in_indices_cons in HI as [Hc HI].
  apply in_indices_cons in HI as [Hm _].
  simpl. apply Hr. unfold elements. apply in_map. rewrite Hs.
  repeat (apply in_indices_cons; split; [assumption|]). now left.
Qed.

(** The backward kernel of gather is [scatter_add_] along the last
    dimension with the index repeated over the channels. *)
Lemma sampling_gather_backward_is_scatter
      {A : Type} `{Elem A} (B C N M : nat) (grad_out buffer : tensor A) (idx : tensor Z) :
  shape idx = [B; M] ->
  get (sampling_gather_backward B C N M grad_out idx buffer)
  = fold_left
      (fun g I => upd g (target 2 (expand_channels C idx) I)
                      (eadd (g (target 2 (expand_channels C idx) I)) (get grad_out I)))
      (indices (shape (expand_channels C idx))) (get buffer).
Proof.
  intros Hs. rewrite (expand_channels_shape C B M idx Hs).
  unfold sampling_gather_backward. simpl get.
  apply fold_left_ext_in. intros g I HI.
  destruct I as [|b [|c [|m [|? ?]]]];
    try (apply in_indices_length in HI; discriminate).
  reflexivity.
Qed.

(** The backward pass of [GatherFunction], for any incoming gradient: it
    returns, and the gradient of [features] is the scatter-add of the incoming
    gradient along the point axis, adjoint to the forward gather. *)
Lemma GatherFunction_backward_is_scatter
      (features grad_out out : tensor R) (idx : tensor Z) (ctx : Gather_ctx)
      (B C N M : nat) :
  shape features = [B; C; N] ->
  shape idx = [B; M] ->
  index_in_range idx N = true ->
  shape grad_out = [B; C; M] ->
  GatherFunction_forward features idx = Ok (out, ctx) ->
  exists grad_features t : tensor R,
    GatherFunction_backward ctx grad_out = Ok (grad_features, None) /\
    shape grad_features = shape features /\
    scatter_add grad_out (expand_channels C idx) 2 (Some [B; C; N]) 0 = Ok t /\
    same grad_features t /\
    inner out grad_out = inner features grad_features.
Proof.
  intros HsF Hsi Hrange HsG Hfw.
  unfold GatherFunction_forward in Hfw. rewrite Hsi, HsF in Hfw.
  injection Hfw as <- <-.
  set (idx3 := expand_channels C idx).
  assert (Hs3 : shape idx3 = [B; C; M]) by now apply expand_channels_shape.
  destruct (@scatter_add__ok R _ (full [B; C; N] 0) 2 idx3 grad_out) as [t Ht].
  { simpl. lia. }
  { rewrite Hs3, HsG. simpl. now rewrite !Nat.leb_refl. }
  { rewrite Hs3. simpl. now rewrite !Nat.leb_refl. }
  { simpl. now apply (expand_channels_in_range C B M). }
  exists (sampling_gather_backward B C N M grad_out idx (full [B; C; N] 0)), t.
  assert (Hsame : get (sampling_gather_backward B C N M grad_out idx (full [B; C; N] 0))
                  = get t).
  { rewrite (sampling_gather_backward_is_scatter B C N M) by assumption.
    unfold scatter_add_ in Ht. destruct (_ && _); [|discriminate].
    injection Ht as <-. reflexivity. }
  split; [unfold GatherFunction_backward; simpl; rewrite Hsi; reflexivity|].
  split; [simpl; congruence|].
  split; [unfold scatter_add, _scatter_add, ScatterAdd_forward; fold idx3;
          rewrite Ht; reflexivity|].
  split.
  { split; [simpl; now destruct (scatter_add__get _ _ _ _ _ Ht) | intros I _; now rewrite Hsame]. }
  pose proof (scatter_add__adjoint _ _ _ features _ _ Ht) as Hadj.
  unfold full in Hadj. cbn [shape get] in Hadj.
  unfold inner. simpl shape. rewrite HsF.
  transitivity
    (Rsum (map (fun I => get grad_out I * get features (target 2 idx3 I))
               (indices (shape idx3)))).
  - rewrite Hs3. apply Rsum_map_ext. intros I HI.
    destruct I as [|b [|c [|m [|? ?]]]];
      try (apply in_indices_length in HI; discriminate).
    apply in_indices_cons in HI as [Hb HI].
    apply in_indices_cons in HI as [Hc HI].
    apply in_indices_cons in HI as [Hm _].
    rewrite sampling_gather_forward_get by assumption.
    unfold target, idx3. simpl. lra.
  - rewrite Hsame.
    assert (H0 : Rsum (map (fun J : list nat => 0 * get features J) (indices [B; C; N])) = 0).
    { apply Rsum_map_zero. intros; lra. }
    rewrite H0 in Hadj. rewrite Rplus_0_l in Hadj. rewrite <- Hadj.
    apply Rsum_map_ext. intros; lra.
Qed.

Lemma inner_ones (t : tensor R) (sz : list nat) :
  shape t = sz -> inner t (full sz 1) = tsum t.
Proof.
  intros Hs. unfold inner, tsum, elements. simpl.
  induction (indices (shape t)) as [|I L IH]; simpl; [reflexivity | rewrite IH; lra].
Qed.

(** C1: gather and scatter-add are an adjoint pair.  For features of shape
    [(B, C, N)] and an index of shape [(B, M)] with entries in [[0, N)]:
    the forward pass selects the feature columns named by the index; the
    backward pass returns, as gradient of the features, the scatter-add of the
    incoming gradient to the positions named by the index (accumulating on
    repeats), which is the adjoint of the forward pass, and returns no
    gradient for the index; the gradient of [sum(gather(F, idx))] is the
    scatter-add of ones; and the backward pass of [scatter_add] is the gather
    of the output gradient at the index, adjoint to its forward pass. *)
Theorem gather_scatter_add_adjoint_pair
        (features : tensor R) (idx : tensor Z) (B C N M : nat) :
  shape features = [B; C; N] ->
  shape idx = [B; M] ->
  index_in_range idx N = true ->
  exists (out : tensor R) (ctx : Gather_ctx),
    GatherFunction_forward features idx = Ok (out, ctx) /\
    shape out = [B; C; M] /\
    (forall b c m, (b < B)%nat -> (c < C)%nat -> (m < M)%nat ->
       get out [b; c; m] = get features [b; c; Z.to_nat (get idx [b; m])]) /\
    (* the gradient for an arbitrary incoming gradient *)
    (forall grad_out : tensor R,
       shape grad_out = [B; C; M] ->
       exists grad_features t : tensor R,
         GatherFunction_backward ctx grad_out = Ok (grad_features, None) /\
         shape grad_features = shape features /\
         scatter_add grad_out (expand_channels C idx) 2 (Some [B; C; N]) 0 = Ok t /\
         same grad_features t /\
         inner out grad_out = inner features grad_features) /\
    (* the gradient of the sum of the gathered features *)
    (exists grad_features t : tensor R,
       GatherFunction_backward ctx (full [B; C; M] 1) = Ok (grad_features, None) /\
       scatter_add (full [B; C; M] 1) (expand_channels C idx) 2 (Some [B; C; N]) 0 = Ok t /\
       same grad_features t /\
       tsum out = inner features grad_features) /\
    (* conversely, the backward pass of scatter_add *)
    (forall (src ograd out' : tensor R) (idx' : tensor Z) (dim : nat)
            (out_size : list nat) (fill : R) (ctx' : ScatterAdd_ctx),
       ScatterAdd_forward src idx' dim out_size fill = Ok (out', ctx') ->
       shape ograd = out_size ->
       exists grad : tensor R,
         gather ograd dim idx' = Ok grad /\
         ScatterAdd_backward ctx' ograd = Ok (grad, None, None, None, None) /\
         shape grad = shape idx' /\
         (forall I, get grad I = get ograd (target dim idx' I)) /\
         inner out' ograd = fill * tsum ograd + inner grad src).
Proof.
  intros HsF Hsi Hrange.
  assert (Hfw : exists out ctx, GatherFunction_forward features idx = Ok (out, ctx)).
  { unfold GatherFunction_forward. rewrite Hsi, HsF. eauto. }
  destruct Hfw as [out [ctx Hfw]]. exists out, ctx.
  assert (Hso : shape out = [B; C; M]).
  { unfold GatherFunction_forward in Hfw. rewrite Hsi, HsF in Hfw.
    injection Hfw as <- _. reflexivity. }
  split; [assumption|]. split; [assumption|]. split.
  { intros b c m Hb Hc Hm.
    unfold GatherFunction_forward in Hfw. rewrite Hsi, HsF in Hfw.
    injection Hfw as <- _. now apply sampling_gather_forward_get. }
  split.
  { intros grad_out HsG.
    now apply (GatherFunction_backward_is_scatter features grad_out out idx ctx B C N M). }
  split.
  { destruct (GatherFunction_backward_is_scatter features (full [B; C; M] 1) out idx ctx
                B C N M HsF Hsi Hrange eq_refl Hfw)
      as [gF [t [Hbw [_ [Hsc [Hsame Hadj]]]]]].
    exists gF, t. repeat split; try assumption; try apply Hsame.
    rewrite <- Hadj. symmetry. now apply inner_ones. }
  intros src ograd out' idx' dim out_size fill ctx' Hf Hs.
  now apply (ScatterAdd_backward_is_gather src ograd out' idx' dim out_size fill ctx').
Qed.

Lemma gather_scatter_add_adjoint_pair_witness :
  exists (out : tensor R) (ctx : Gather_ctx),
    GatherFunction_forward c1_features c1_idx = Ok (out, ctx) /\
    shape out = [1; 2; 2]%nat /\
    exists grad_features t : tensor R,
      GatherFunction_backward ctx (full [1; 2; 2]%nat 1) = Ok (grad_features, None) /\
      scatter_add (full [1; 2; 2]%nat 1) (expand_channels 2 c1_idx) 2
                  (Some [1; 2; 3]%nat) 0 = Ok t /\
      same grad_features t /\
      tsum out = inner c1_features grad_features.
Proof.
  destruct (gather_scatter_add_adjoint_pair c1_features c1_idx 1 2 3 2
              eq_refl eq_refl eq_refl)
    as [out [ctx [Hfw [Hs [_ [_ [Hsum _]]]]]]].
  exists out, ctx. split; [exact Hfw|]. split; [exact Hs|]. exact Hsum.
Defined.

(** The same call, evaluated: both gathered columns are column 2, and the
    gradient of their sum puts 2 on point 2 and 0 elsewhere. *)
Example gather_backward_accumulates :
  exists (out : tensor R) (ctx : Gather_ctx) (grad_features : tensor R),
    GatherFunction_forward c1_features c1_idx = Ok (out, ctx) /\
    get out [0; 0; 0]%nat = 3 /\ get out [0; 0; 1]%nat = 3 /\
    get out [0; 1; 0]%nat = 6 /\ get out [0; 1; 1]%nat = 6 /\
    GatherFunction_backward ctx (full [1; 2; 2]%nat 1) = Ok (grad_features, None) /\
    get grad_features [0; 0; 0]%nat = 0 /\ get grad_features [0; 0; 1]%nat = 0 /\
    get grad_features [0; 0; 2]%nat = 2 /\ get grad_features [0; 1; 2]%nat = 2.
Proof.
  do 3 eexists. split; [reflexivity|]. simpl. unfold upd. simpl.
  do 4 (split; [reflexivity|]). split; [reflexivity|].
  simpl. unfold upd. simpl. repeat split; lra.
Qed.

(** ** Batched SVD without an accelerator *)

(** The guard written in the source lets every call through. *)
Lemma svd_guard_never_fails (cuda_is_available : bool) :
  (if negb cuda_is_available
   then assert_ (BatchedSVD.truthy_class RuntimeError)
   else Ok tt) = Ok tt.
Proof. destruct cuda_is_available; reflexivity. Qed.

(** C4: with no accelerator, [BatchSVDFunction.forward] and [batch_svd]
    raise for every input and every native kernel: no result is computed (the
    outcome does not depend on the kernel) and there is no other path. *)
Theorem batch_svd_fails_without_cuda
        (kernel : tensor fl -> tensor fl * tensor fl * tensor fl)
        (x : BatchedSVD.dtensor) :
  BatchedSVD.BatchSVDFunction_forward false kernel x = Raise RuntimeError /\
  (exists e, BatchedSVD.batch_svd false kernel x = Raise e) /\
  (forall r, BatchedSVD.batch_svd false kernel x <> Ok r).
Proof.
  assert (Hf : BatchedSVD.BatchSVDFunction_forward false kernel x = Raise RuntimeError)
    by reflexivity.
  split; [exact Hf|].
  unfold BatchedSVD.batch_svd. rewrite Hf.
  destruct (assert_ (BatchedSVD.dim x =? 3)%nat) as [[]|e]; simpl.
  - split; [eauto | discriminate].
  - split; [eauto | discriminate].
Qed.

(** With an accelerator the same call returns what the kernel computes. *)
Example batch_svd_runs_with_cuda
        (kernel : tensor fl -> tensor fl * tensor fl * tensor fl)
        (x : BatchedSVD.dtensor) :
  exists r, BatchedSVD.BatchSVDFunction_forward true kernel x = Ok r.
Proof.
  unfold BatchedSVD.BatchSVDFunction_forward, BatchedSVD.to_cuda. simpl.
  destruct (kernel (BatchedSVD.val x)) as [[U S_] V]. eauto.
Qed.

(** ** Floats *)

Lemma fdiv_Some (a b : R) : b <> 0 -> fdiv (Some a) (Some b) = Some (a / b).
Proof. intros Hb. unfold fdiv. destruct (Req_dec_T b 0); [contradiction | reflexivity]. Qed.

Lemma fdiv_zero (x : fl) : fdiv x (Some 0) = None.
Proof.
  destruct x as [a|]; [|reflexivity]. unfold fdiv.
  destruct (Req_dec_T 0 0); [reflexivity | congruence].
Qed.

Lemma fsqrt_Some (a : R) : 0 <= a -> fsqrt (Some a) = Some (sqrt a).
Proof. intros Ha. unfold fsqrt. destruct (Rlt_dec a 0); [lra | reflexivity]. Qed.

Lemma fold_left_fadd_Some (l : list R) (a : R) :
  fold_left fadd (map Some l) (Some a) = Some (a + Rsum l).
Proof.
  revert a; induction l as [|x l IH]; intros a; simpl.
  - f_equal; lra.
  - rewrite IH. f_equal; lra.
Qed.

Lemma fsum_Some (l : list R) : fsum (map Some l) = Some (Rsum l).
Proof. unfold fsum. rewrite fold_left_fadd_Some. f_equal; lra. Qed.

Lemma map_Some_ext {X : Type} (g : X -> fl) (r : X -> R) (L : list X) :
  (forall k, In k L -> g k = Some (r k)) -> map g L = map Some (map r L).
Proof.
  induction L as [|k L IH]; intros Hg; simpl; [reflexivity|].
  rewrite Hg by now left. f_equal. apply IH. intros k' Hk'. apply Hg. now right.
Qed.

Lemma fold_left_fmax_Some (l : list R) (x : R) :
  fold_left fmax (map Some l) (Some x) = Some (fold_left Rmax l x).
Proof. revert x; induction l as [|y l IH]; intros x; simpl; [reflexivity | apply IH]. Qed.

Lemma fold_left_Rmax_ge (l : list R) (x : R) :
  x <= fold_left Rmax l x /\ forall y, In y l -> y <= fold_left Rmax l x.
Proof.
  revert x; induction l as [|z l IH]; intros x; simpl.
  - split; [lra | intros y []].
  - destruct (IH (Rmax x z)) as [H1 H2]. split.
    + pose proof (Rmax_l x z). lra.
    + intros y [Hy|Hy]; [subst z; pose proof (Rmax_r x y); lra | now apply H2].
Qed.

Lemma Rsum_nonneg (l : list R) : (forall x, In x l -> 0 <= x) -> 0 <= Rsum l.
Proof.
  induction l as [|x l IH]; simpl; intros Hl; [lra|].
  assert (0 <= x) by (apply Hl; now left).
  assert (0 <= Rsum l) by (apply IH; intros y Hy; apply Hl; now right). lra.
Qed.

Lemma Rsum_ge_term (l : list R) (x : R) :
  (forall y, In y l -> 0 <= y) -> In x l -> x <= Rsum l.
Proof.
  induction l as [|z l IH]; simpl; intros Hl Hx; [contradiction|].
  assert (0 <= z) by (apply Hl; now left).
  assert (0 <= Rsum l) by (apply Rsum_nonneg; intros y Hy; apply Hl; now right).
  destruct Hx as [->|Hx]; [lra|].
  assert (x <= Rsum l) by (apply IH; [intros y Hy; apply Hl; now right | assumption]). lra.
Qed.

Lemma Rsum_const {X : Type} (c : R) (L : list X) :
  Rsum (map (fun _ => c) L) = INR (length L) * c.
Proof.
  induction L as [|k L IH]; [simpl; lra|].
  change (length (k :: L)) with (S (length L)). rewrite S_INR. simpl. rewrite IH. lra.
Qed.

(** ** Broadcasting *)

Lemma bidx_in_range (sh I : list nat) : In I (indices sh) -> bidx sh I = I.
Proof.
  revert I; induction sh as [|s sh IH]; intros I HI.
  - destruct I; reflexivity.
  - destruct I as [|i I]; [reflexivity|].
    apply in_indices_cons in HI as [Hi HI]. simpl. rewrite (IH I HI).
    destruct (Nat.eqb_spec s 1); [subst; f_equal; lia | reflexivity].
Qed.

Lemma broadcast_shape_refl (sh : list nat) : broadcast_shape sh sh = Some sh.
Proof.
  induction sh as [|s sh IH]; simpl; [reflexivity|].
  now rewrite IH, Nat.eqb_refl.
Qed.

Lemma broadcast_shape_set1 (d : nat) (sh : list nat) :
  broadcast_shape sh (set_nth d 1%nat sh) = Some sh.
Proof.
  revert d; induction sh as [|s sh IH]; intros d; simpl; [reflexivity|].
  destruct d as [|d].
  - rewrite broadcast_shape_refl. destruct (Nat.eqb_spec s 1); reflexivity.
  - rewrite IH. now rewrite Nat.eqb_refl.
Qed.

Lemma broadcast_shape_set11 (d e : nat) (sh : list nat) :
  broadcast_shape sh (set_nth d 1%nat (set_nth e 1%nat sh)) = Some sh.
Proof.
  revert d e; induction sh as [|s sh IH]; intros d e; simpl; [reflexivity|].
  destruct e as [|e], d as [|d]; simpl.
  - rewrite broadcast_shape_refl. destruct (Nat.eqb_spec s 1); reflexivity.
  - rewrite broadcast_shape_set1. destruct (Nat.eqb_spec s 1); reflexivity.
  - rewrite broadcast_shape_set1. destruct (Nat.eqb_spec s 1); reflexivity.
  - rewrite IH. now rewrite Nat.eqb_refl.
Qed.

Lemma bidx_set1 (d : nat) (sh I : list nat) :
  In I (indices sh) -> bidx (set_nth d 1%nat sh) I = set_nth d O I.
Proof.
  revert d I; induction sh as [|s sh IH]; intros d I HI.
  - destruct HI as [<-|[]]. destruct d; reflexivity.
  - destruct I as [|i I]; [apply in_indices_length in HI; discriminate|].
    apply in_indices_cons in HI as [Hi HI]. destruct d as [|d]; simpl.
    + now rewrite bidx_in_range.
    + rewrite (IH d I HI). destruct (Nat.eqb_spec s 1); [subst; f_equal; lia | reflexivity].
Qed.

Lemma bidx_set11 (d e : nat) (sh I : list nat) :
  In I (indices sh) ->
  bidx (set_nth d 1%nat (set_nth e 1%nat sh)) I = set_nth d O (set_nth e O I).
Proof.
  revert d e I; induction sh as [|s sh IH]; intros d e I HI.
  - destruct HI as [<-|[]]. destruct d, e; reflexivity.
  - destruct I as [|i I]; [apply in_indices_length in HI; discriminate|].
    apply in_indices_cons in HI as [Hi HI]. destruct e as [|e], d as [|d]; simpl.
    + now rewrite bidx_in_range.
    + now rewrite bidx_set1.
    + now rewrite bidx_set1.
    + rewrite (IH d e I HI). destruct (Nat.eqb_spec s 1); [subst; f_equal; lia | reflexivity].
Qed.

Lemma set_nth_set_nth (d v w : nat) (I : list nat) :
  set_nth d v (set_nth d w I) = set_nth d v I.
Proof.
  revert d; induction I as [|i I IH]; intros [|d]; simpl; try reflexivity.
  now rewrite IH.
Qed.

Lemma set_nth_in_range (d v : nat) (sh I : list nat) :
  In I (indices sh) -> (v < nth d sh O)%nat -> In (set_nth d v I) (indices sh).
Proof.
  intros HI Hv. apply in_indices_nth in HI as [Hlen Hall].
  apply in_indices_nth. rewrite set_nth_length. split; [assumption|].
  intros e He. destruct (Nat.eq_dec d e) as [<-|Hne].
  - rewrite nth_set_nth_same by lia. assumption.
  - rewrite nth_set_nth_other by assumption. now apply Hall.
Qed.

(** ** Reductions of finite tensors *)

Lemma of_real_realises (pc : tensor R) : realises (of_real pc) (get pc).
Proof. intros I. reflexivity. Qed.

Lemma slice_along_real (t : tensor fl) (r : list nat -> R) (dim : nat) (I : list nat) :
  realises t r ->
  slice_along t dim I
  = map Some (map (fun k => r (set_nth dim k I)) (seq 0 (nth dim (shape t) O))).
Proof. intros Ht. unfold slice_along. apply map_Some_ext. intros k _. apply Ht. Qed.

Lemma mean_keepdim_real (t : tensor fl) (r : list nat -> R) (dim : nat) :
  realises t r ->
  (dim < length (shape t))%nat ->
  nth dim (shape t) O <> O ->
  exists c, mean_keepdim t dim = Ok c /\
            shape c = set_nth dim 1%nat (shape t) /\
            realises c (fun I => Rsum (map (fun k => r (set_nth dim k I))
                                           (seq 0 (nth dim (shape t) O)))
                                 / INR (nth dim (shape t) O)).
Proof.
  intros Ht Hd Hn. unfold mean_keepdim, reduce_keepdim.
  apply Nat.ltb_lt in Hd. rewrite Hd. eexists. split; [reflexivity|].
  split; [reflexivity|]. intros I. cbn [get].
  rewrite (slice_along_real t r dim I Ht), fsum_Some.
  rewrite !length_map, length_seq. apply fdiv_Some. now apply not_0_INR.
Qed.

Lemma sum_keepdim_real (t : tensor fl) (r : list nat -> R) (dim : nat) :
  realises t r ->
  (dim < length (shape t))%nat ->
  exists c, sum_keepdim t dim = Ok c /\
            shape c = set_nth dim 1%nat (shape t) /\
            realises c (fun I => Rsum (map (fun k => r (set_nth dim k I))
                                           (seq 0 (nth dim (shape t) O)))).
Proof.
  intros Ht Hd. unfold sum_keepdim, reduce_keepdim.
  apply Nat.ltb_lt in Hd. rewrite Hd. eexists. split; [reflexivity|].
  split; [reflexivity|]. intros I. cbn [get].
  now rewrite (slice_along_real t r dim I Ht), fsum_Some.
Qed.

Lemma max_keepdim_real (t : tensor fl) (r : list nat -> R) (dim : nat) :
  realises t r ->
  (dim < length (shape t))%nat ->
  nth dim (shape t) O <> O ->
  exists c, max_keepdim t dim = Ok c /\
            shape c = set_nth dim 1%nat (shape t) /\
            realises c (fun I => fold_left Rmax
                                   (map (fun k => r (set_nth dim k I))
                                        (seq 1 (nth dim (shape t) O - 1)))
                                   (r (set_nth dim O I))).
Proof.
  intros Ht Hd Hn. unfold max_keepdim, reduce_keepdim.
  destruct (Nat.eqb_spec (nth dim (shape t) O) 0) as [|_]; [contradiction|].
  apply Nat.ltb_lt in Hd. rewrite Hd. eexists. split; [reflexivity|].
  split; [reflexivity|]. intros I. cbn [get].
  rewrite (slice_along_real t r dim I Ht).
  destruct (nth dim (shape t) O) as [|n']; [contradiction|].
  cbn [seq map]. rewrite fold_left_fmax_Some.
  replace (S n' - 1)%nat with n' by lia. reflexivity.
Qed.

Lemma broadcast2_spec {A B C : Type} (f : A -> B -> C) (a : tensor A) (b : tensor B)
      (s : list nat) :
  broadcast_shape (shape a) (shape b) = Some s ->
  exists c, broadcast2 f a b = Ok c /\ shape c = s /\
            forall I, get c I = f (get a (bidx (shape a) I)) (get b (bidx (shape b) I)).
Proof.
  intros Hs. unfold broadcast2. rewrite Hs. eexists. split; [reflexivity|].
  split; reflexivity.
Qed.

(** ** normalize_point_batch along given axes *)

Section NormalizeAxes.
Variables (pc : tensor R) (pa da : nat).

Lemma sqnorm_at_nonneg (I : list nat) : 0 <= sqnorm_at pc pa da I.
Proof.
  unfold sqnorm_at. apply Rsum_nonneg. intros x Hx.
  apply in_map_iff in Hx as [k [<- _]]. nra.
Qed.

Lemma furthest_at_ge (I : list nat) (k : nat) :
  (k < nth pa (shape pc) O)%nat ->
  sqrt (sqnorm_at pc pa da (set_nth pa k I)) <= furthest_at pc pa da I.
Proof.
  intros Hk. unfold furthest_at.
  match goal with |- _ <= fold_left Rmax ?l ?x =>
    destruct (fold_left_Rmax_ge l x) as [H0 Hl] end.
  destruct k as [|k]; [exact H0|].
  apply Hl. apply in_map_iff. exists (S k). split; [reflexivity|].
  apply in_seq. lia.
Qed.

(** The furthest distance is zero only when every point coincides with the
    centroid. *)
Lemma furthest_at_zero (I : list nat) (k k' : nat) :
  furthest_at pc pa da I = 0 ->
  (k < nth pa (shape pc) O)%nat ->
  (k' < nth da (shape pc) O)%nat ->
  centred_at pc pa (set_nth da k' (set_nth pa k I)) = 0.
Proof.
  intros Hf Hk Hk'.
  pose proof (furthest_at_ge I k Hk) as Hge. rewrite Hf in Hge.
  pose proof (sqnorm_at_nonneg (set_nth pa k I)) as Hs.
  pose proof (sqrt_pos (sqnorm_at pc pa da (set_nth pa k I))) as Hsq.
  assert (Hz : sqnorm_at pc pa da (set_nth pa k I) = 0).
  { apply sqrt_eq_0; [assumption | lra]. }
  set (d := centred_at pc pa (set_nth da k' (set_nth pa k I))).
  assert (Hterm : d * d <= sqnorm_at pc pa da (set_nth pa k I)).
  { unfold sqnorm_at. apply Rsum_ge_term.
    - intros y Hy. apply in_map_iff in Hy as [j [<- _]]. nra.
    - apply in_map_iff. exists k'. split; [reflexivity|]. apply in_seq. lia. }
  nra.
Qed.

Hypothesis Hpa : (pa < length (shape pc))%nat.
Hypothesis Hda : (da < length (shape pc))%nat.
Hypothesis Hne : pa <> da.
Hypothesis Hn : nth pa (shape pc) O <> O.

Lemma normalize_axes_spec :
  exists pcn c fd : tensor fl,
    (centroid <- mean_keepdim (of_real pc) pa ;;
     pc' <- broadcast2 fsub (of_real pc) centroid ;;
     sq <- sum_keepdim (tmap (fun x => fmul x x) pc') da ;;
     furthest_distance <- max_keepdim (tmap fsqrt sq) pa ;;
     pc'' <- broadcast2 fdiv pc' furthest_distance ;;
     Ok (pc'', centroid, furthest_distance)) = Ok (pcn, c, fd) /\
    shape pcn = shape pc /\
    shape c = set_nth pa 1%nat (shape pc) /\
    shape fd = set_nth pa 1%nat (set_nth da 1%nat (shape pc)) /\
    realises c (centroid_at pc pa) /\
    realises fd (furthest_at pc pa da) /\
    (forall I, get pcn I
               = fdiv (Some (centred_at pc pa (bidx (shape pc) I)))
                      (get fd (bidx (set_nth pa 1%nat (set_nth da 1%nat (shape pc))) I))).
Proof.
  destruct (mean_keepdim_real (of_real pc) (get pc) pa (of_real_realises pc) Hpa Hn)
    as [c [Ec [Hsc Hc]]].
  cbn [of_real shape] in Hsc, Hc. fold (centroid_at pc pa) in Hc.
  rewrite Ec. cbn [bind].
  destruct (broadcast2_spec fsub (of_real pc) c (shape pc)) as [p [Ep [Hsp Hp]]].
  { rewrite Hsc. apply broadcast_shape_set1. }
  rewrite Ep. cbn [bind].
  assert (Hp' : realises p (centred_at pc pa)).
  { intros I. rewrite Hp, Hc, Hsc. reflexivity. }
  assert (Hq : realises (tmap (fun x => fmul x x) p)
                        (fun I => centred_at pc pa I * centred_at pc pa I)).
  { intros I. cbn [tmap get]. now rewrite Hp'. }
  destruct (sum_keepdim_real _ _ da Hq) as [sq [Esq [Hssq Hsq]]].
  { cbn [tmap shape]. now rewrite Hsp. }
  cbn [tmap shape] in Hssq, Hsq. rewrite Hsp in Hssq, Hsq.
  fold (sqnorm_at pc pa da) in Hsq. rewrite Esq. cbn [bind].
  assert (Hr : realises (tmap fsqrt sq) (fun I => sqrt (sqnorm_at pc pa da I))).
  { intros I. cbn [tmap get]. rewrite Hsq. apply fsqrt_Some, sqnorm_at_nonneg. }
  destruct (max_keepdim_real _ _ pa Hr) as [fd [Efd [Hsfd Hfd]]].
  { cbn [tmap shape]. rewrite Hssq, set_nth_length. exact Hpa. }
  { cbn [tmap shape]. rewrite Hssq, nth_set_nth_other by congruence. exact Hn. }
  cbn [tmap shape] in Hsfd, Hfd. rewrite Hssq in Hsfd, Hfd.
  rewrite nth_set_nth_other in Hfd by congruence. fold (furthest_at pc pa da) in Hfd.
  rewrite Efd. cbn [bind].
  destruct (broadcast2_spec fdiv p fd (shape pc)) as [pcn [Epcn [Hspcn Hpcn]]].
  { rewrite Hsp, Hsfd. apply broadcast_shape_set11. }
  rewrite Epcn. cbn [bind].
  exists pcn, c, fd. repeat split; try assumption.
  intros I. rewrite Hpcn, Hp', Hsp, Hsfd. reflexivity.
Qed.

(** Rebuilding the cloud from the three results, for a position where the
    furthest distance is not zero. *)
Lemma reconstruct_axes (pcn c fd : tensor fl) :
  shape pcn = shape pc ->
  shape c = set_nth pa 1%nat (shape pc) ->
  shape fd = set_nth pa 1%nat (set_nth da 1%nat (shape pc)) ->
  realises c (centroid_at pc pa) ->
  realises fd (furthest_at pc pa da) ->
  (forall I, get pcn I
             = fdiv (Some (centred_at pc pa (bidx (shape pc) I)))
                    (get fd (bidx (set_nth pa 1%nat (set_nth da 1%nat (shape pc))) I))) ->
  exists recon,
    Normalize.reconstruct pcn fd c = Ok recon /\
    shape recon = shape pc /\
    forall I, In I (indices (shape pc)) ->
              furthest_at pc pa da (set_nth pa O (set_nth da O I)) <> 0 ->
              get recon I = Some (get pc I).
Proof.
  intros Hspcn Hsc Hsfd Hc Hfd Hpcn. unfold Normalize.reconstruct.
  destruct (broadcast2_spec fmul pcn fd (shape pc)) as [sc [Esc [Hssc Hscv]]].
  { rewrite Hspcn, Hsfd. apply broadcast_shape_set11. }
  rewrite Esc. cbn [bind].
  destruct (broadcast2_spec fadd sc c (shape pc)) as [recon [Er [Hsr Hrv]]].
  { rewrite Hssc, Hsc. apply broadcast_shape_set1. }
  exists recon. split; [exact Er|]. split; [exact Hsr|].
  intros I HI Hnz.
  rewrite Hrv, Hscv, Hssc, Hspcn, Hsc, Hsfd, Hpcn.
  rewrite !(bidx_in_range (shape pc) I HI).
  rewrite (bidx_set11 pa da (shape pc) I HI), (bidx_set1 pa (shape pc) I HI).
  rewrite Hfd, Hc. rewrite fdiv_Some by exact Hnz.
  unfold centred_at. rewrite (bidx_in_range (shape pc) I HI).
  rewrite (bidx_set1 pa (shape pc) I HI).
  simpl. f_equal. field. exact Hnz.
Qed.

End NormalizeAxes.

Lemma centred_at_in_range (pc : tensor R) (pa : nat) (K : list nat) :
  In K (indices (shape pc)) ->
  centred_at pc pa K
  = get pc K
    - Rsum (map (fun k => get pc (set_nth pa k K)) (seq 0 (nth pa (shape pc) O)))
      / INR (nth pa (shape pc) O).
Proof.
  intros HK. unfold centred_at, centroid_at.
  rewrite (bidx_in_range _ _ HK), (bidx_set1 pa _ _ HK).
  f_equal. f_equal. apply Rsum_map_ext. intros k _. now rewrite set_nth_set_nth.
Qed.

(** Two points of the same cloud that differ keep the furthest distance
    away from zero. *)
Lemma spread_furthest_nonzero (pc : tensor R) (pa da : nat) (I0 J : list nat) (n1 n2 : nat) :
  In I0 (indices (shape pc)) ->
  (n1 < nth pa (shape pc) O)%nat ->
  (n2 < nth pa (shape pc) O)%nat ->
  get pc (set_nth pa n1 I0) <> get pc (set_nth pa n2 I0) ->
  set_nth da (nth da I0 O) (set_nth pa n1 J) = set_nth pa n1 I0 ->
  set_nth da (nth da I0 O) (set_nth pa n2 J) = set_nth pa n2 I0 ->
  (da < length (shape pc))%nat ->
  furthest_at pc pa da J <> 0.
Proof.
  intros HI0 Hn1 Hn2 Hdiff E1 E2 Hda Hz.
  assert (Hk' : (nth da I0 O < nth da (shape pc) O)%nat).
  { apply in_indices_nth in HI0 as [_ Hall]. now apply Hall. }
  pose proof (furthest_at_zero pc pa da J n1 (nth da I0 O) Hz Hn1 Hk') as Z1.
  pose proof (furthest_at_zero pc pa da J n2 (nth da I0 O) Hz Hn2 Hk') as Z2.
  rewrite E1 in Z1. rewrite E2 in Z2.
  rewrite centred_at_in_range in Z1 by now apply set_nth_in_range.
  rewrite centred_at_in_range in Z2 by now apply set_nth_in_range.
  apply Hdiff.
  assert (Hsame : Rsum (map (fun k => get pc (set_nth pa k (set_nth pa n1 I0)))
                            (seq 0 (nth pa (shape pc) O)))
                  = Rsum (map (fun k => get pc (set_nth pa k (set_nth pa n2 I0)))
                              (seq 0 (nth pa (shape pc) O)))).
  { apply Rsum_map_ext. intros k _. now rewrite !set_nth_set_nth. }
  rewrite Hsame in Z1. lra.
Qed.

(** C9, amended: for a batch of shape [(B, N, 3)] or [(B, 3, N)] with at least
    one point per cloud and, in every cloud, two points that differ,
    [normalize_point_batch] returns and
    [pc_normalized * furthest_distance + centroid] is the input, exactly. *)
Theorem normalize_point_batch_round_trip
        (pc : tensor R) (NCHW : bool) (B d1 d2 : nat) :
  shape pc = [B; d1; d2] ->
  (0 < nth (if NCHW then 2 else 1) (shape pc) O)%nat ->
  (forall b, (b < B)%nat -> Normalize.spread pc NCHW b) ->
  Normalize.round_trip pc NCHW.
Proof.
  intros Hs Hn Hspread.
  set (pa := if NCHW then 2%nat else 1%nat) in *.
  set (da := if NCHW then 1%nat else 2%nat).
  assert (Hpa : (pa < length (shape pc))%nat) by (rewrite Hs; destruct NCHW; simpl; lia).
  assert (Hda : (da < length (shape pc))%nat) by (rewrite Hs; destruct NCHW; simpl; lia).
  assert (Hne : pa <> da) by (destruct NCHW; discriminate).
  assert (Hn' : nth pa (shape pc) O <> O) by lia.
  destruct (normalize_axes_spec pc pa da Hpa Hda Hne Hn')
    as [pcn [c [fd [Enorm [Hspcn [Hsc [Hsfd [Hc [Hfd Hpcn]]]]]]]]].
  destruct (reconstruct_axes pc pa da pcn c fd Hspcn Hsc Hsfd Hc Hfd Hpcn)
    as [recon [Erec [Hsrec Hrec]]].
  exists pcn, c, fd, recon.
  split; [exact Enorm|]. split; [exact Erec|]. split; [exact Hsrec|].
  intros I HI. apply Hrec; [exact HI|].
  assert (HI' := HI). rewrite Hs in HI'.
  destruct I as [|b [|i [|j [|? ?]]]];
    try (apply in_indices_length in HI'; discriminate).
  apply in_indices_cons in HI' as [Hb _].
  destruct (Hspread b Hb) as [I0 [n1 [n2 [HI0 [Hb0 [Hn1 [Hn2 Hdiff]]]]]]].
  fold pa in Hn1, Hn2, Hdiff.
  assert (HI0' := HI0). rewrite Hs in HI0'.
  destruct I0 as [|b0 [|i0 [|j0 [|? ?]]]];
    try (apply in_indices_length in HI0'; discriminate).
  simpl in Hb0. subst b0.
  apply (spread_furthest_nonzero pc pa da [b; i0; j0] _ n1 n2); try assumption;
    unfold pa, da; destruct NCHW; reflexivity.
Qed.

(** Where the furthest distance is zero, the division yields a non-finite
    value and so does the reconstruction. *)
Lemma reconstruct_degenerate (pc : tensor R) (pa da : nat) (pcn c fd recon : tensor fl) :
  shape pcn = shape pc ->
  shape c = set_nth pa 1%nat (shape pc) ->
  shape fd = set_nth pa 1%nat (set_nth da 1%nat (shape pc)) ->
  realises fd (furthest_at pc pa da) ->
  (forall I, get pcn I
             = fdiv (Some (centred_at pc pa (bidx (shape pc) I)))
                    (get fd (bidx (set_nth pa 1%nat (set_nth da 1%nat (shape pc))) I))) ->
  Normalize.reconstruct pcn fd c = Ok recon ->
  forall I, In I (indices (shape pc)) ->
            furthest_at pc pa da (set_nth pa O (set_nth da O I)) = 0 ->
            get recon I = None.
Proof.
  intros Hspcn Hsc Hsfd Hfd Hpcn Erec I HI Hz.
  unfold Normalize.reconstruct in Erec.
  destruct (broadcast2_spec fmul pcn fd (shape pc)) as [sc [Esc [Hssc Hscv]]].
  { rewrite Hspcn, Hsfd. apply broadcast_shape_set11. }
  rewrite Esc in Erec. cbn [bind] in Erec.
  destruct (broadcast2_spec fadd sc c (shape pc)) as [recon' [Er [Hsr Hrv]]].
  { rewrite Hssc, Hsc. apply broadcast_shape_set1. }
  rewrite Er in Erec. injection Erec as <-.
  rewrite Hrv, Hscv, Hssc, Hspcn, Hpcn.
  rewrite !(bidx_in_range (shape pc) I HI).
  rewrite (bidx_set11 pa da (shape pc) I HI).
  rewrite Hfd, Hz, fdiv_zero. reflexivity.
Qed.

Lemma normalize_point_batch_round_trip_witness :
  Normalize.round_trip c9_two_points false.
Proof.
  apply (normalize_point_batch_round_trip c9_two_points false 1 2 3).
  - reflexivity.
  - simpl. lia.
  - intros b Hb. exists [0; 0; 0]%nat, 0%nat, 1%nat.
    split; [simpl; auto|]. split; [simpl; lia|].
    split; [simpl; lia|]. split; [simpl; lia|]. simpl. lra.
Defined.

Lemma c9_single_point_furthest :
  furthest_at c9_single_point 1 2 [0; 0; 0]%nat = 0.
Proof.
  unfold furthest_at, sqnorm_at, centred_at, centroid_at. simpl.
  match goal with |- sqrt ?x = 0 => replace x with 0 by field end.
  apply sqrt_0.
Qed.

(** C9 as stated fails on a cloud with a single point: the furthest distance
    is [0], the normalized cloud is [0 / 0], and the reconstruction is not
    the input. *)
Lemma normalize_point_batch_single_point :
  (exists pcn c fd recon : tensor fl,
      Normalize.normalize_point_batch (of_real c9_single_point) false
      = Ok (pcn, c, fd) /\
      get fd [0; 0; 0]%nat = Some 0 /\
      get pcn [0; 0; 0]%nat = None /\
      Normalize.reconstruct pcn fd c = Ok recon /\
      get recon [0; 0; 0]%nat = None) /\
  ~ Normalize.round_trip c9_single_point false.
Proof.
  assert (Hpa : (1 < length (shape c9_single_point))%nat) by (simpl; lia).
  assert (Hda : (2 < length (shape c9_single_point))%nat) by (simpl; lia).
  assert (Hne : 1%nat <> 2%nat) by discriminate.
  assert (Hn : nth 1 (shape c9_single_point) O <> O) by (simpl; discriminate).
  destruct (normalize_axes_spec c9_single_point 1 2 Hpa Hda Hne Hn)
    as [pcn [c [fd [Enorm [Hspcn [Hsc [Hsfd [Hc [Hfd Hpcn]]]]]]]]].
  destruct (reconstruct_axes c9_single_point 1 2 pcn c fd Hspcn Hsc Hsfd Hc Hfd Hpcn)
    as [recon [Erec [Hsrec _]]].
  assert (HI : In [0; 0; 0]%nat (indices (shape c9_single_point))) by (simpl; auto).
  assert (Hnone : get recon [0; 0; 0]%nat = None).
  { apply (reconstruct_degenerate c9_single_point 1 2 pcn c fd recon); try assumption.
    exact c9_single_point_furthest. }
  split.
  - exists pcn, c, fd, recon. split; [exact Enorm|].
    split; [rewrite Hfd; f_equal; exact c9_single_point_furthest|].
    split; [|split; [exact Erec | exact Hnone]].
    rewrite Hpcn.
    change (bidx (set_nth 1 1%nat (set_nth 2 1%nat (shape c9_single_point)))
                 [0; 0; 0]%nat) with [0; 0; 0]%nat.
    rewrite Hfd, c9_single_point_furthest. apply fdiv_zero.
  - intros [pcn' [c' [fd' [recon' [E1 [E2 [_ Hall]]]]]]].
    unfold Normalize.normalize_point_batch in E1.
    rewrite Enorm in E1. injection E1 as <- <- <-.
    rewrite Erec in E2. injection E2 as <-.
    specialize (Hall [0; 0; 0]%nat HI). rewrite Hnone in Hall. discriminate.
Qed.

(** ** The cotangent of a triangle's angle *)

Import CotLaplacian.

Lemma indices_repeat_shape (F : tensor Z) (B Fc s : nat) :
  shape F = [B; Fc; 3]%nat -> shape (indices_repeat F s) = [B; Fc; 3]%nat.
Proof. intros Hs. unfold indices_repeat. simpl. now rewrite Hs. Qed.

Lemma indices_repeat_in_range (F : tensor Z) (B Fc N s : nat) :
  shape F = [B; Fc; 3]%nat -> (s < 3)%nat ->
  index_in_range F N = true ->
  index_in_range (indices_repeat F s) N = true.
Proof.
  intros Hs Hlt Hr. unfold index_in_range in *. rewrite forallb_forall in *.
  intros v Hv. unfold elements in Hv. apply in_map_iff in Hv as [I [<- HI]].
  rewrite (indices_repeat_shape F B Fc s Hs) in HI.
  destruct I as [|b [|f [|r [|? ?]]]];
    try (apply in_indices_length in HI; discriminate).
  apply in_indices_cons in HI as [Hb HI].
  apply in_indices_cons in HI as [Hf HI].
  simpl. apply Hr. unfold elements. apply in_map. rewrite Hs.
  repeat (apply in_indices_cons; split; [assumption|]). now left.
Qed.

Lemma gather_corner (V : tensor R) (F : tensor Z) (B N Fc s : nat) :
  shape V = [B; N; 3]%nat -> shape F = [B; Fc; 3]%nat -> (s < 3)%nat ->
  index_in_range F N = true ->
  exists v, gather V 1 (indices_repeat F s) = Ok v /\
            forall b f r, get v [b; f; r] = get V [b; Z.to_nat (get F [b; f; s]); r].
Proof.
  intros HV HF Hs Hr. unfold gather.
  rewrite HV, (indices_repeat_shape F B Fc s HF). simpl.
  rewrite !Nat.leb_refl. simpl.
  rewrite (indices_repeat_in_range F B Fc N s HF Hs Hr).
  eexists. split; [reflexivity|]. intros b f r. reflexivity.
Qed.

Lemma edge_length_dist (V : tensor R) (F : tensor Z) (u w : tensor R) (s t b f : nat) :
  (forall b f r, get u [b; f; r] = get V [b; Z.to_nat (get F [b; f; s]); r]) ->
  (forall b f r, get w [b; f; r] = get V [b; Z.to_nat (get F [b; f; t]); r]) ->
  edge_length u w b f = dist (corner V F b f s) (corner V F b f t).
Proof.
  intros Hu Hw. unfold edge_length, dist, vnorm, corner, vsub, vdot. simpl.
  rewrite !Hu, !Hw. f_equal. ring.
Qed.


Lemma vdot_self_nonneg (p : vec3) : 0 <= vdot p p.
Proof. destruct p as [[x y] z]. unfold vdot. nra. Qed.

Lemma dist_sqr (p q : vec3) : dist p q * dist p q = vdot (vsub p q) (vsub p q).
Proof. unfold dist, vnorm. apply sqrt_sqrt, vdot_self_nonneg. Qed.

Lemma dist_nonneg (p q : vec3) : 0 <= dist p q.
Proof. unfold dist, vnorm. apply sqrt_pos. Qed.

Lemma vnorm_sqr (p : vec3) : vnorm p * vnorm p = vdot p p.
Proof. unfold vnorm. apply sqrt_sqrt, vdot_self_nonneg. Qed.

(** The law of cosines, without the cosine. *)
Lemma law_of_cosines (p q r : vec3) :
  dist r p ^ 2 + dist p q ^ 2 - dist q r ^ 2 = 2 * vdot (vsub q p) (vsub r p).
Proof.
  simpl. rewrite !Rmult_1_r, !dist_sqr.
  destruct p as [[px py] pz], q as [[qx qy] qz], r as [[rx ry] rz].
  unfold vsub, vdot. ring.
Qed.

(** Heron's radicand is a quarter of the squared norm of the cross product. *)
Lemma heron_radicand (p q r : vec3) :
  let l1 := dist q r in
  let l2 := dist r p in
  let l3 := dist p q in
  let sp := (l1 + l2 + l3) * 0.5 in
  sp * (sp - l1) * (sp - l2) * (sp - l3)
  = (vnorm (vcross (vsub q p) (vsub r p)) / 2) * (vnorm (vcross (vsub q p) (vsub r p)) / 2).
Proof.
  intros l1 l2 l3 sp.
  assert (H1 : l1 * l1 = vdot (vsub q r) (vsub q r)) by apply dist_sqr.
  assert (H2 : l2 * l2 = vdot (vsub r p) (vsub r p)) by apply dist_sqr.
  assert (H3 : l3 * l3 = vdot (vsub p q) (vsub p q)) by apply dist_sqr.
  transitivity ((2 * (l1 * l1) * (l2 * l2) + 2 * (l2 * l2) * (l3 * l3)
                 + 2 * (l3 * l3) * (l1 * l1)
                 - (l1 * l1) * (l1 * l1) - (l2 * l2) * (l2 * l2)
                 - (l3 * l3) * (l3 * l3)) / 16).
  { unfold sp. replace 0.5 with (/ 2) by lra. field. }
  rewrite H1, H2, H3.
  transitivity (vdot (vcross (vsub q p) (vsub r p)) (vcross (vsub q p) (vsub r p)) / 4).
  - destruct p as [[px py] pz], q as [[qx qy] qz], r as [[rx ry] rz].
    unfold vsub, vdot, vcross. field.
  - rewrite <- vnorm_sqr. field.
Qed.

Lemma heron_value (p q r : vec3) :
  heron (dist q r) (dist r p) (dist p q) = vnorm (vcross (vsub q p) (vsub r p)) / 2.
Proof.
  unfold heron.
  replace ((dist q r + dist r p + dist p q) / 2) with ((dist q r + dist r p + dist p q) * 0.5) by lra.
  rewrite (heron_radicand p q r). apply sqrt_square.
  unfold vnorm. pose proof (sqrt_pos (vdot (vcross (vsub q p) (vsub r p)) (vcross (vsub q p) (vsub r p)))). lra.
Qed.

Lemma cot_opposite_is_cot_at (p q r : vec3) :
  0 < heron (dist q r) (dist r p) (dist p q) ->
  cot_opposite (dist q r) (dist r p) (dist p q) = cot_at p q r.
Proof.
  intros Hpos. unfold cot_opposite, cot_at.
  rewrite heron_value in *. rewrite law_of_cosines. field. lra.
Qed.

Lemma heron_rot (a b c : R) : heron a b c = heron b c a.
Proof. unfold heron. f_equal. field. Qed.

Lemma sqrt_pos_arg (x : R) : 0 < sqrt x -> 0 < x.
Proof.
  intros H. destruct (Rlt_le_dec 0 x) as [|Hle]; [assumption|].
  rewrite sqrt_neg_0 in H by assumption. lra.
Qed.

(** The value the source computes from the three edge lengths and a
    numerator, for a triangle of positive area. *)
Lemma cotangent_entry (l1 l2 l3 x : R) :
  0 < heron l1 l2 l3 ->
  let sp := (l1 + l2 + l3) * 0.5 in
  fdiv (fdiv (Some x)
             (fmul (Some 2) (fsqrt (Some (sp * (sp - l1) * (sp - l2) * (sp - l3))))))
       (Some 4)
  = Some (x / (8 * heron l1 l2 l3)).
Proof.
  intros Hpos sp. unfold heron in *.
  replace ((l1 + l2 + l3) / 2) with sp in * by (unfold sp; lra).
  set (rad := sp * (sp - l1) * (sp - l2) * (sp - l3)) in *.
  pose proof (sqrt_pos_arg rad Hpos) as Hrad.
  rewrite fsqrt_Some by lra. unfold fmul, lift2.
  rewrite fdiv_Some by lra. rewrite fdiv_Some by lra.
  f_equal. field. lra.
Qed.

(** The value of every entry of [cotangent(V, F)] on a face of positive area. *)
Lemma cotangent_value
        (V : tensor R) (F : tensor Z) (B N Fc : nat) :
  shape V = [B; N; 3]%nat ->
  shape F = [B; Fc; 3]%nat ->
  index_in_range F N = true ->
  exists C : tensor fl,
    cotangent V F = Ok C /\
    shape C = [B; Fc; 3]%nat /\
    forall b f s p q r,
      (s < 3)%nat ->
      (p, q, r) = (let '(o, e1, e2) := opposite s in
                   (corner V F b f o, corner V F b f e1, corner V F b f e2)) ->
      0 < heron (dist q r) (dist r p) (dist p q) ->
      get C [b; f; s]
      = Some ((dist r p ^ 2 + dist p q ^ 2 - dist q r ^ 2)
              / (8 * heron (dist q r) (dist r p) (dist p q))) /\
      get C [b; f; s] = Some (cot_opposite (dist q r) (dist r p) (dist p q) / 2) /\
      get C [b; f; s] = Some (cot_at p q r / 2).
Proof.
  intros HV HF Hr.
  destruct (gather_corner V F B N Fc 0 HV HF ltac:(lia) Hr) as [v1 [E1 H1]].
  destruct (gather_corner V F B N Fc 1 HV HF ltac:(lia) Hr) as [v2 [E2 H2]].
  destruct (gather_corner V F B N Fc 2 HV HF ltac:(lia) Hr) as [v3 [E3 H3]].
  unfold cotangent. rewrite E1, E2, E3. cbn [bind].
  eexists. split; [reflexivity|]. cbn [shape get].
  split; [now apply indices_repeat_shape|].
  intros b f s p q r Hs Hpqr Hpos.
  rewrite (edge_length_dist V F v2 v3 1 2 b f H2 H3).
  rewrite (edge_length_dist V F v3 v1 2 0 b f H3 H1).
  rewrite (edge_length_dist V F v1 v2 0 1 b f H1 H2).
  set (c0 := corner V F b f 0) in *.
  set (c1 := corner V F b f 1) in *.
  set (c2 := corner V F b f 2) in *.
  assert (Hmain :
    fdiv (fdiv (Some match s with
                     | 0%nat => dist c2 c0 ^ 2 + dist c0 c1 ^ 2 - dist c1 c2 ^ 2
                     | 1%nat => dist c1 c2 ^ 2 + dist c0 c1 ^ 2 - dist c2 c0 ^ 2
                     | _ => dist c1 c2 ^ 2 + dist c2 c0 ^ 2 - dist c0 c1 ^ 2
                     end)
               (fmul (Some 2)
                  (fsqrt (Some ((dist c1 c2 + dist c2 c0 + dist c0 c1) * 0.5
                                * ((dist c1 c2 + dist c2 c0 + dist c0 c1) * 0.5 - dist c1 c2)
                                * ((dist c1 c2 + dist c2 c0 + dist c0 c1) * 0.5 - dist c2 c0)
                                * ((dist c1 c2 + dist c2 c0 + dist c0 c1) * 0.5 - dist c0 c1))))))
         (Some 4)
    = Some ((dist r p ^ 2 + dist p q ^ 2 - dist q r ^ 2)
            / (8 * heron (dist q r) (dist r p) (dist p q)))).
  { destruct s as [|[|[|s]]]; [| | |lia]; cbn [opposite] in Hpqr;
      injection Hpqr as -> -> ->; fold c0 c1 c2 in Hpos |- *.
    - rewrite (cotangent_entry _ _ _ _ Hpos). reflexivity.
    - rewrite (heron_rot (dist c2 c0)), (heron_rot (dist c0 c1)) in Hpos |- *.
      rewrite (cotangent_entry _ _ _ _ Hpos).
      match goal with |- Some (?a / ?d) = Some (?b / ?d) =>
        replace a with b by ring; reflexivity end.
    - rewrite (heron_rot (dist c0 c1)) in Hpos |- *.
      rewrite (cotangent_entry _ _ _ _ Hpos).
      match goal with |- Some (?a / ?d) = Some (?b / ?d) =>
        replace a with b by ring; reflexivity end. }
  rewrite Hmain. split; [reflexivity|].
  assert (Hhalf : (dist r p ^ 2 + dist p q ^ 2 - dist q r ^ 2)
                  / (8 * heron (dist q r) (dist r p) (dist p q))
                  = cot_opposite (dist q r) (dist r p) (dist p q) / 2).
  { unfold cot_opposite. field. lra. }
  rewrite Hhalf. split; [reflexivity|].
  now rewrite cot_opposite_is_cot_at.
Qed.

(** ** Sums of finite floats *)

Lemma fsum_finite (l : list fl) :
  Forall (fun x => is_finite x = true) l -> fsum l = Some (Rsum (map real_of l)).
Proof.
  intros Hl. rewrite <- fsum_Some. f_equal.
  induction Hl as [|x l Hx Hl IH]; simpl; [reflexivity|].
  destruct x as [a|]; [|discriminate]. simpl. now rewrite <- IH.
Qed.



(** ** Square roots *)

Lemma sqrt_of_square (x y : R) : 0 <= y -> x = y * y -> sqrt x = y.
Proof. intros Hy ->. now apply sqrt_square. Qed.

(** ** The cotangent weights *)

(** C7, amended: for every face whose triangle has positive area, the value
    [cotangent(V, F)] computes for an edge is half the cotangent of the angle
    opposite that edge: [(l2^2 + l3^2 - l1^2) / (8 * Area)] with Heron's area,
    [l1] the edge and [l2], [l3] the two other sides.  The factor one half is
    the source's [A = 2 * sqrt(...)]. *)
Theorem cotangent_is_half_cotangent
        (V : tensor R) (F : tensor Z) (B N Fc : nat) :
  shape V = [B; N; 3]%nat ->
  shape F = [B; Fc; 3]%nat ->
  index_in_range F N = true ->
  exists C : tensor fl,
    cotangent V F = Ok C /\
    shape C = [B; Fc; 3]%nat /\
    forall b f s p q r,
      (s < 3)%nat ->
      (p, q, r) = (let '(o, e1, e2) := opposite s in
                   (corner V F b f o, corner V F b f e1, corner V F b f e2)) ->
      0 < heron (dist q r) (dist r p) (dist p q) ->
      get C [b; f; s]
      = Some ((dist r p ^ 2 + dist p q ^ 2 - dist q r ^ 2)
              / (8 * heron (dist q r) (dist r p) (dist p q))) /\
      get C [b; f; s] = Some (cot_opposite (dist q r) (dist r p) (dist p q) / 2) /\
      get C [b; f; s] = Some (cot_at p q r / 2).
Proof. exact (cotangent_value V F B N Fc). Qed.

Lemma c7_lengths :
  let p := corner c7_V c7_F 0 0 0 in
  let q := corner c7_V c7_F 0 0 1 in
  let r := corner c7_V c7_F 0 0 2 in
  dist q r = 4 /\ dist r p = 5 /\ dist p q = 3.
Proof.
  unfold corner, dist, vnorm, vsub, vdot. simpl.
  repeat split; apply sqrt_of_square; lra.
Qed.

Lemma c7_heron : heron 4 5 3 = 6.
Proof. unfold heron. apply sqrt_of_square; lra. Qed.

Lemma cotangent_is_half_cotangent_witness :
  exists C : tensor fl,
    cotangent c7_V c7_F = Ok C /\
    shape C = [1; 1; 3]%nat /\
    get C [0; 0; 0]%nat
    = Some ((5 ^ 2 + 3 ^ 2 - 4 ^ 2) / (8 * heron 4 5 3)).
Proof.
  destruct (cotangent_is_half_cotangent c7_V c7_F 1 3 1 eq_refl eq_refl eq_refl)
    as [C [E [Hs Hall]]].
  exists C. split; [exact E|]. split; [exact Hs|].
  destruct c7_lengths as [H1 [H2 H3]].
  destruct (Hall 0%nat 0%nat 0%nat _ _ _ ltac:(lia) eq_refl) as [Hv _].
  - rewrite H1, H2, H3, c7_heron. lra.
  - rewrite Hv, H1, H2, H3. reflexivity.
Defined.

(** C7 as stated fails on the 3-4-5 triangle: the claim's value for the edge
    2-3 is [(l2^2 + l3^2 - l1^2) / (4 * Area) = 3/4], the cotangent of the
    angle at vertex 0; [cotangent] returns [3/8]. *)
Lemma cotangent_345_triangle :
  exists C : tensor fl,
    cotangent c7_V c7_F = Ok C /\
    let p := corner c7_V c7_F 0 0 0 in
    let q := corner c7_V c7_F 0 0 1 in
    let r := corner c7_V c7_F 0 0 2 in
    let l1 := dist q r in
    let l2 := dist r p in
    let l3 := dist p q in
    l1 = 4 /\ l2 = 5 /\ l3 = 3 /\
    0 < heron l1 l2 l3 /\
    (l2 ^ 2 + l3 ^ 2 - l1 ^ 2) / (4 * heron l1 l2 l3) = 3 / 4 /\
    cot_at p q r = 3 / 4 /\
    get C [0; 0; 0]%nat = Some (3 / 8) /\
    get C [0; 0; 0]%nat <> Some ((l2 ^ 2 + l3 ^ 2 - l1 ^ 2) / (4 * heron l1 l2 l3)).
Proof.
  destruct (cotangent_value c7_V c7_F 1 3 1 eq_refl eq_refl eq_refl)
    as [C [E [Hs Hall]]].
  exists C. split; [exact E|].
  destruct c7_lengths as [H1 [H2 H3]].
  assert (Hpos : 0 < heron 4 5 3) by (rewrite c7_heron; lra).
  destruct (Hall 0%nat 0%nat 0%nat _ _ _ ltac:(lia) eq_refl) as [Hv [Hc Ha]].
  { rewrite H1, H2, H3. exact Hpos. }
  cbv zeta. rewrite H1, H2, H3 in *. rewrite c7_heron in *.
  assert (Hq : (5 ^ 2 + 3 ^ 2 - 4 ^ 2) / (4 * 6) = 3 / 4) by lra.
  assert (He : (5 ^ 2 + 3 ^ 2 - 4 ^ 2) / (8 * 6) = 3 / 8) by lra.
  repeat split; try lra.
  - rewrite <- (cot_opposite_is_cot_at (corner c7_V c7_F 0 0 0)
                  (corner c7_V c7_F 0 0 1) (corner c7_V c7_F 0 0 2)).
    + rewrite H1, H2, H3. unfold cot_opposite. rewrite c7_heron. lra.
    + rewrite H1, H2, H3, c7_heron. lra.
  - rewrite Hv, He. reflexivity.
  - rewrite Hv, He, Hq. intros Heq. injection Heq as Heq. lra.
Qed.

(** ** The assembly of the Laplacian *)

Lemma global_np : global "np"%string = Raise NameError.
Proof. reflexivity. Qed.

Lemma global_sparse : global "sparse"%string = Raise NameError.
Proof. reflexivity. Qed.

(** [computeLaplacian] returns on no input: what [cotangent] lets through
    stops at the first use of [np]. *)
Lemma computeLaplacian_never_returns (V : tensor R) (F : tensor Z) :
  exists e, computeLaplacian V F = Raise e.
Proof.
  unfold computeLaplacian.
  destruct (shape V) as [|B [|N [|c [|? ?]]]]; try (eexists; reflexivity).
  destruct (cotangent V F) as [C|e]; cbn [bind].
  - rewrite global_np. eexists. reflexivity.
  - eexists. reflexivity.
Qed.

(** On a mesh whose faces name vertices of the mesh, the exception is the
    NameError of line 243. *)
Lemma computeLaplacian_NameError (V : tensor R) (F : tensor Z) (B N Fc : nat) :
  shape V = [B; N; 3]%nat ->
  shape F = [B; Fc; 3]%nat ->
  index_in_range F N = true ->
  computeLaplacian V F = Raise NameError.
Proof.
  intros HV HF Hr.
  destruct (cotangent_value V F B N Fc HV HF Hr) as [C [E _]].
  unfold computeLaplacian. rewrite HV, E. cbn [bind]. now rewrite global_np.
Qed.

(** C6: no operator is assembled.  On the 3-4-5 triangle, and on every mesh
    that [cotangent] accepts, [CotLaplacian.computeLaplacian] raises NameError
    at [np.arange]: geo_operations.py imports neither numpy nor scipy.sparse.
    It returns on no input at all, so [self.L] is never set and there is no
    operator whose rows could sum to zero. *)
Theorem computeLaplacian_raises_NameError :
  computeLaplacian c7_V c7_F = Raise NameError /\
  (forall (V : tensor R) (F : tensor Z), exists e, computeLaplacian V F = Raise e) /\
  (forall (V : tensor R) (F : tensor Z) (L : sparse), computeLaplacian V F <> Ok L).
Proof.
  split; [exact (computeLaplacian_NameError c7_V c7_F 1 3 1 eq_refl eq_refl eq_refl)|].
  split; [exact computeLaplacian_never_returns|].
  intros V F L H. destruct (computeLaplacian_never_returns V F) as [e He].
  rewrite He in H. discriminate.
Qed.

(** ** Selecting the largest elements of a row *)

Import Rounding NeighborSearch.

Lemma goes_after_true (lf : bool) (x y : R * nat) :
  goes_after lf x y = true -> fst x <= fst y.
Proof.
  unfold goes_after. destruct lf.
  - destruct (Rlt_dec (fst x) (fst y)); [lra | discriminate].
  - destruct (Rle_dec (fst x) (fst y)); [lra | discriminate].
Qed.

Lemma goes_after_false (lf : bool) (x y : R * nat) :
  goes_after lf x y = false -> fst y <= fst x.
Proof.
  unfold goes_after. destruct lf.
  - destruct (Rlt_dec (fst x) (fst y)); [discriminate | lra].
  - destruct (Rle_dec (fst x) (fst y)); [discriminate | lra].
Qed.

Lemma insert_desc_perm (lf : bool) (x : R * nat) (l : list (R * nat)) :
  Permutation (insert_desc lf x l) (x :: l).
Proof.
  induction l as [|y l IH]; simpl; [reflexivity|].
  destruct (goes_after lf x y); [|reflexivity].
  rewrite IH. apply perm_swap.
Qed.

Lemma sort_desc_perm (lf : bool) (l : list (R * nat)) : Permutation (sort_desc lf l) l.
Proof.
  induction l as [|x l IH]; simpl; [reflexivity|].
  rewrite insert_desc_perm. now constructor.
Qed.

Lemma insert_desc_sorted (lf : bool) (x : R * nat) (l : list (R * nat)) :
  StronglySorted desc l -> StronglySorted desc (insert_desc lf x l).
Proof.
  induction l as [|y l IH]; intros Hs; simpl.
  - constructor; constructor.
  - inversion Hs as [|? ? Hs' Hall]; subst.
    destruct (goes_after lf x y) eqn:Hg.
    + apply goes_after_true in Hg.
      constructor; [now apply IH|].
      apply Forall_forall. intros z Hz.
      apply (Permutation_in _ (insert_desc_perm lf x l)) in Hz.
      destruct Hz as [<-|Hz]; [exact Hg|].
      rewrite Forall_forall in Hall. now apply Hall.
    + apply goes_after_false in Hg.
      constructor; [assumption|].
      constructor; [exact Hg|].
      apply Forall_forall. intros z Hz. rewrite Forall_forall in Hall.
      specialize (Hall z Hz). unfold desc in *. lra.
Qed.

Lemma sort_desc_sorted (lf : bool) (l : list (R * nat)) :
  StronglySorted desc (sort_desc lf l).
Proof.
  induction l as [|x l IH]; simpl; [constructor | now apply insert_desc_sorted].
Qed.

Lemma sorted_app_order {X : Type} (Rel : X -> X -> Prop) (l1 l2 : list X) :
  StronglySorted Rel (l1 ++ l2) ->
  forall x y, In x l1 -> In y l2 -> Rel x y.
Proof.
  induction l1 as [|a l1 IH]; intros Hs x y Hx Hy; [contradiction|].
  simpl in Hs. inversion Hs as [|? ? Hs' Hall]; subst.
  destruct Hx as [<-|Hx].
  - rewrite Forall_forall in Hall. apply Hall. apply in_or_app. now right.
  - now apply (IH Hs').
Qed.
Lemma sorted_app_l {X : Type} (Rel : X -> X -> Prop) (l1 l2 : list X) :
  StronglySorted Rel (l1 ++ l2) -> StronglySorted Rel l1.
Proof.
  induction l1 as [|a l1 IH]; intros Hs; [constructor|].
  simpl in Hs. inversion Hs as [|? ? Hs' Hall]; subst.
  constructor; [now apply IH|].
  apply Forall_forall. intros z Hz. rewrite Forall_forall in Hall.
  apply Hall. apply in_or_app. now left.
Qed.
Lemma sorted_nth {X : Type} (Rel : X -> X -> Prop) (d : X) (l : list X) :
  StronglySorted Rel l ->
  forall s t, (s < t < length l)%nat -> Rel (nth s l d) (nth t l d).
Proof.
  induction l as [|a l IH]; intros Hs s t Hst; [simpl in Hst; lia|].
  inversion Hs as [|? ? Hs' Hall]; subst.
  destruct t as [|t]; [lia|]. destruct s as [|s]; simpl.
  - rewrite Forall_forall in Hall. apply Hall. apply nth_In. simpl in Hst. lia.
  - apply IH; [assumption | simpl in Hst; lia].
Qed.
Lemma combine_seq_in (r : list R) (a : nat) (v : R) (i : nat) :
  In (v, i) (combine r (seq a (length r))) ->
  (a <= i < a + length r)%nat /\ v = nth (i - a) r 0.
Proof.
  revert a; induction r as [|x r IH]; intros a Hin; [contradiction|].
  simpl in Hin. destruct Hin as [Heq|Hin].
  - injection Heq as <- <-. split; [simpl; lia|]. now rewrite Nat.sub_diag.
  - apply IH in Hin as [Hr Hv]. split; [simpl; lia|].
    replace (i - a)%nat with (S (i - S a)) by lia. exact Hv.
Qed.
Lemma in_combine_seq (r : list R) (a j : nat) :
  (j < length r)%nat -> In (nth j r 0, (a + j)%nat) (combine r (seq a (length r))).
Proof.
  revert a j; induction r as [|x r IH]; intros a j Hj; [simpl in Hj; lia|].
  destruct j as [|j]; simpl.
  - left. f_equal. lia.
  - right. replace (a + S j)%nat with (S a + j)%nat by lia. apply IH. simpl in Hj. lia.
Qed.
Lemma map_snd_combine_seq (r : list R) (a : nat) :
  map snd (combine r (seq a (length r))) = seq a (length r).
Proof.
  revert a; induction r as [|x r IH]; intros a; simpl; [reflexivity|].
  now rewrite IH.
Qed.
Lemma NoDup_firstn {X : Type} (k : nat) (l : list X) : NoDup l -> NoDup (firstn k l).
Proof.
  intros Hnd. rewrite <- (firstn_skipn k l) in Hnd. now apply NoDup_app_remove_r in Hnd.
Qed.
(** Both selections meet the contract of [topk]. *)
Lemma topk_by_contract (lf : bool) : topk_contract (topk_by lf).
Proof.
  intros r k Hk. unfold topk_by. cbn [fst snd].
  set (l := combine r (seq 0 (length r))).
  set (S_ := sort_desc lf l).
  assert (Hperm : Permutation S_ l) by apply sort_desc_perm.
  assert (Hsorted : StronglySorted desc S_) by apply sort_desc_sorted.
  assert (Hlen : length S_ = length r).
  { rewrite (Permutation_length Hperm). unfold l.
    rewrite length_combine, length_seq. lia. }
  assert (Hsplit : S_ = firstn k S_ ++ skipn k S_) by (symmetry; apply firstn_skipn).
  assert (HinS : forall v i, In (v, i) S_ -> (i < length r)%nat /\ v = nth i r 0).
  { intros v i Hin. apply (Permutation_in _ Hperm) in Hin.
    apply combine_seq_in in Hin as [Hr Hv]. rewrite Nat.sub_0_r in Hv. split; [lia | exact Hv]. }
  assert (Hnd : NoDup (map snd S_)).
  { apply (Permutation_NoDup (l := map snd l)).
    - apply Permutation_map. now symmetry.
    - unfold l. rewrite map_snd_combine_seq. apply seq_NoDup. }
  split; [|split; [|split; [|split; [|split]]]].
  - rewrite length_map, length_firstn. lia.
  - rewrite <- firstn_map. now apply NoDup_firstn.
  - intros i Hi. apply in_map_iff in Hi as [[v i'] [Heq Hin]]. simpl in Heq. subst i'.
    apply (HinS v i). rewrite Hsplit. apply in_or_app. now left.
  - rewrite map_map. apply map_ext_in. intros [v i] Hin. simpl.
    apply (HinS v i). rewrite Hsplit. apply in_or_app. now left.
  - intros s t Hst.
    destruct (Nat.eq_dec s t) as [->|Hne]; [lra|].
    assert (Hs1 : StronglySorted desc (firstn k S_)).
    { apply (sorted_app_l desc _ (skipn k S_)). now rewrite <- Hsplit. }
    assert (Hl1 : length (firstn k S_) = k) by (rewrite length_firstn; lia).
    pose proof (sorted_nth desc (0, O) _ Hs1 s t ltac:(lia)) as Hd.
    unfold desc in Hd.
    rewrite <- !(map_nth fst) in Hd. exact Hd.
  - intros j Hj Hnot i Hi.
    apply in_map_iff in Hi as [[v i'] [Heq Hin]]. simpl in Heq. subst i'.
    assert (Hv : v = nth i r 0).
    { apply (HinS v i). rewrite Hsplit. apply in_or_app. now left. }
    rewrite <- Hv.
    assert (Hjin : In (nth j r 0, j) S_).
    { apply (Permutation_in _ (Permutation_sym Hperm)).
      apply (in_combine_seq r 0 j Hj). }
    rewrite Hsplit in Hjin. apply in_app_or in Hjin as [Hj1|Hj2].
    + exfalso. apply Hnot. apply in_map_iff. exists (nth j r 0, j). split; [reflexivity | exact Hj1].
    + pose proof (sorted_app_order desc (firstn k S_) (skipn k S_)) as Hord.
      rewrite <- Hsplit in Hord. specialize (Hord Hsorted _ _ Hin Hj2).
      exact Hord.
Qed.

Lemma topk_stable_contract : topk_contract topk_stable.
Proof. exact (topk_by_contract true). Qed.

Lemma topk_last_contract : topk_contract topk_last.
Proof. exact (topk_by_contract false). Qed.

(** ** Rounding to float32 *)

(** [lra] with the images of the integers as atoms. *)
Ltac izr_atoms :=
  repeat match goal with
         | |- context [IZR ?z] =>
             lazymatch z with
             | Z0 => fail | Zpos _ => fail | Zneg _ => fail
             | _ => let r := fresh "r" in set (r := IZR z) in *; clearbody r
             end
         | H : context [IZR ?z] |- _ =>
             lazymatch z with
             | Z0 => fail | Zpos _ => fail | Zneg _ => fail
             | _ => let r := fresh "r" in set (r := IZR z) in *; clearbody r
             end
         end.
Ltac zlra := izr_atoms; lra.

Lemma Int_part_IZR (z : Z) : Int_part (IZR z) = z.
Proof. symmetry. apply Int_part_spec. zlra. Qed.

Lemma nearest_even_IZR (z : Z) : nearest_even (IZR z) = z.
Proof.
  unfold nearest_even. rewrite Int_part_IZR.
  destruct (Rlt_dec (IZR z - IZR z) (1 / 2)); [reflexivity | exfalso; zlra].
Qed.

Lemma IZR_pow2_pos (k : Z) : (0 <= k)%Z -> 0 < IZR (2 ^ k).
Proof. intros Hk. apply IZR_lt. apply Z.pow_pos_nonneg; lia. Qed.

(** The quotient of two integers: its integer part and the position of its
    fractional part with respect to one half. *)
Lemma Int_part_div (a p : Z) : (0 < p)%Z -> Int_part (IZR a / IZR p) = (a / p)%Z.
Proof.
  intros Hp. symmetry. apply Int_part_spec.
  assert (HpR : 0 < IZR p) by now apply IZR_lt.
  pose proof (Z.div_mod a p ltac:(lia)) as Hdm.
  pose proof (Z.mod_pos_bound a p Hp) as Hm.
  assert (Ha : IZR a = IZR p * IZR (a / p) + IZR (a mod p)).
  { rewrite <- mult_IZR, <- plus_IZR. now f_equal. }
  assert (H0 : 0 <= IZR (a mod p)) by (apply IZR_le; lia).
  assert (H1 : IZR (a mod p) < IZR p) by (apply IZR_lt; lia).
  assert (Hq : IZR a / IZR p = IZR (a / p) + IZR (a mod p) / IZR p).
  { rewrite Ha. field. zlra. }
  rewrite Hq.
  assert (0 <= IZR (a mod p) / IZR p).
  { apply Rmult_le_pos; [zlra|]. apply Rlt_le, Rinv_0_lt_compat. zlra. }
  assert (IZR (a mod p) / IZR p < 1).
  { apply (Rmult_lt_reg_r (IZR p)); [zlra|]. unfold Rdiv.
    rewrite Rmult_assoc, Rinv_l by zlra. zlra. }
  zlra.
Qed.

Lemma frac_div (a p : Z) : (0 < p)%Z ->
  IZR a / IZR p - IZR (a / p) = IZR (a mod p) / IZR p.
Proof.
  intros Hp. assert (HpR : 0 < IZR p) by now apply IZR_lt.
  pose proof (Z.div_mod a p ltac:(lia)) as Hdm.
  assert (Ha : IZR a = IZR p * IZR (a / p) + IZR (a mod p)).
  { rewrite <- mult_IZR, <- plus_IZR. now f_equal. }
  rewrite Ha at 1. field. zlra.
Qed.

Lemma nearest_even_div (a p : Z) : (0 < p)%Z ->
  nearest_even (IZR a / IZR p)
  = (let q := a / p in let r := a mod p in
     if 2 * r <? p then q else if p <? 2 * r then q + 1
     else if Z.even q then q else q + 1)%Z.
Proof.
  intros Hp. assert (HpR : 0 < IZR p) by now apply IZR_lt.
  unfold nearest_even. rewrite (Int_part_div a p Hp), (frac_div a p Hp). cbv zeta.
  assert (Hlt : forall u v : Z, IZR u / IZR p < 1 / 2 <-> (2 * u < p)%Z).
  { intros u v. split; intros H.
    - apply lt_IZR. rewrite mult_IZR.
      apply (Rmult_lt_compat_r (IZR p)) in H; [|zlra].
      unfold Rdiv in H. rewrite Rmult_assoc, Rinv_l in H by zlra. zlra.
    - apply IZR_lt in H. rewrite mult_IZR in H.
      apply (Rmult_lt_reg_r (IZR p)); [zlra|].
      unfold Rdiv. rewrite Rmult_assoc, Rinv_l by zlra. zlra. }
  assert (Hgt : forall u : Z, 1 / 2 < IZR u / IZR p <-> (p < 2 * u)%Z).
  { intros u. split; intros H.
    - apply lt_IZR. rewrite mult_IZR.
      apply (Rmult_lt_compat_r (IZR p)) in H; [|zlra].
      unfold Rdiv in H. rewrite (Rmult_assoc (IZR u)), Rinv_l in H by zlra. zlra.
    - apply IZR_lt in H. rewrite mult_IZR in H.
      apply (Rmult_lt_reg_r (IZR p)); [zlra|].
      unfold Rdiv. rewrite (Rmult_assoc (IZR u)), Rinv_l by zlra. zlra. }
  destruct (Rlt_dec (IZR (a mod p) / IZR p) (1 / 2)) as [H|H].
  - apply (Hlt _ 0%Z) in H. apply Z.ltb_lt in H. now rewrite H.
  - assert (H' : ~ (2 * (a mod p) < p)%Z) by (intros C; apply H; now apply (Hlt _ 0%Z)).
    apply Z.ltb_nlt in H'. rewrite H'.
    destruct (Rlt_dec (1 / 2) (IZR (a mod p) / IZR p)) as [G|G].
    + apply Hgt in G. apply Z.ltb_lt in G. now rewrite G.
    + assert (G' : ~ (p < 2 * (a mod p))%Z) by (intros C; apply G; now apply Hgt).
      apply Z.ltb_nlt in G'. now rewrite G'.
Qed.

(** On an integer, [round_f32] is the integer computation [round_f32_Z]. *)
Lemma round_f32_IZR (z : Z) : round_f32 (IZR z) = IZR (round_f32_Z z).
Proof.
  unfold round_f32, round_f32_Z. cbv zeta.
  set (A := Z.abs z).
  assert (Habs : Rabs (IZR z) = IZR A) by (unfold A; now rewrite <- abs_IZR).
  rewrite Habs, <- (mult_IZR A (2 ^ 149)), Int_part_IZR.
  destruct (Z.eq_dec z 0) as [->|Hz].
  { cbn. unfold nearest_even.
    replace (0 / 1) with 0 by zlra. rewrite (Int_part_IZR 0).
    destruct (Rlt_dec (0 - 0) (1 / 2)); [|exfalso; zlra].
    destruct (Rlt_dec 0 0); zlra. }
  assert (HA : (0 < A)%Z) by (unfold A; lia).
  rewrite (Z.log2_mul_pow2 A 149) by lia.
  set (t := (Z.log2 A - 23)%Z).
  pose proof (Z.log2_nonneg A) as Hlog.
  replace (149 + Z.log2 A - 23)%Z with (t + 149)%Z by (unfold t; lia).
  rewrite Z.max_r by (unfold t; lia).
  assert (Hsign : (if Rlt_dec (IZR z) 0 then -1 else 1) = IZR (Z.sgn z)).
  { destruct (Rlt_dec (IZR z) 0) as [H|H].
    - apply lt_IZR in H. rewrite Z.sgn_neg by lia. reflexivity.
    - assert (0 < z)%Z.
      { destruct (Z.lt_total z 0) as [C|[C|C]]; [|lia|lia].
        exfalso. apply H. now apply IZR_lt. }
      rewrite Z.sgn_pos by lia. reflexivity. }
  rewrite Hsign.
  pose proof (IZR_pow2_pos 149 ltac:(lia)) as H149.
  pose proof (IZR_pow2_pos (t + 149) ltac:(unfold t; lia)) as Htk.
  destruct (Z.leb_spec t 0) as [Ht|Ht].
  - (* fewer than 24 bits: exact *)
    pose proof (IZR_pow2_pos (- t) ltac:(lia)) as Hmt.
    assert (Hsplit : IZR (2 ^ 149) = IZR (2 ^ (t + 149)) * IZR (2 ^ (- t))).
    { rewrite <- mult_IZR. f_equal.
      rewrite <- Z.pow_add_r by (unfold t in *; lia). f_equal. lia. }
    assert (Hy : IZR (A * 2 ^ 149) / IZR (2 ^ (t + 149)) = IZR (A * 2 ^ (- t))).
    { rewrite !mult_IZR, Hsplit. field. zlra. }
    rewrite Hy, nearest_even_IZR.
    replace (IZR (A * 2 ^ (- t)) * IZR (2 ^ (t + 149)) / IZR (2 ^ 149)) with (IZR A).
    + rewrite <- mult_IZR. f_equal. unfold A. now rewrite Z.mul_comm, Z.abs_sgn.
    + rewrite mult_IZR, Hsplit. field. split; zlra.
  - pose proof (IZR_pow2_pos t ltac:(lia)) as Hpt.
    assert (Hsplit : IZR (2 ^ (t + 149)) = IZR (2 ^ t) * IZR (2 ^ 149)).
    { rewrite <- mult_IZR. f_equal. rewrite <- Z.pow_add_r by lia. reflexivity. }
    assert (Hy : IZR (A * 2 ^ 149) / IZR (2 ^ (t + 149)) = IZR A / IZR (2 ^ t)).
    { rewrite Hsplit, !mult_IZR. field. split; zlra. }
    rewrite Hy, nearest_even_div by (apply Z.pow_pos_nonneg; lia). cbv zeta.
    set (q' := (if (2 * (A mod 2 ^ t) <? 2 ^ t)%Z then (A / 2 ^ t)%Z
                else if (2 ^ t <? 2 * (A mod 2 ^ t))%Z then (A / 2 ^ t + 1)%Z
                else if Z.even (A / 2 ^ t) then (A / 2 ^ t)%Z else (A / 2 ^ t + 1)%Z)).
    rewrite Hsplit. rewrite !mult_IZR. field. zlra.
Qed.

(** ** float32 rounding is a projection *)

Lemma nearest_even_bounds (y : R) (n : Z) :
  0 <= y -> y < IZR n -> (0 <= nearest_even y <= n)%Z.
Proof.
  intros H0 Hn. unfold nearest_even.
  destruct (base_Int_part y) as [Hlo Hhi].
  assert (Hf0 : (0 <= Int_part y)%Z).
  { apply Z.lt_succ_r. apply lt_IZR. rewrite succ_IZR. zlra. }
  assert (Hfn : (Int_part y < n)%Z) by (apply lt_IZR; zlra).
  destruct (Rlt_dec (y - IZR (Int_part y)) (1 / 2)); [lia|].
  destruct (Rlt_dec (1 / 2) (y - IZR (Int_part y))); [lia|].
  destruct (Z.even (Int_part y)); lia.
Qed.

(** A multiple of [2^-149], counted in that unit, is rounded as the integer
    computation says. *)
Lemma round_f32_grid (z : Z) :
  round_f32 (IZR z / IZR (2 ^ 149)) = IZR (round_f32_Z z) / IZR (2 ^ 149).
Proof.
  pose proof (IZR_pow2_pos 149 ltac:(lia)) as HS.
  unfold round_f32, round_f32_Z. cbv zeta.
  set (S_ := IZR (2 ^ 149)) in *.
  set (A := Z.abs z).
  assert (Habs : Rabs (IZR z / S_) * S_ = IZR A).
  { unfold Rdiv. rewrite Rabs_mult, (Rabs_right (/ S_)).
    - unfold A. rewrite <- abs_IZR. field. lra.
    - apply Rle_ge, Rlt_le, Rinv_0_lt_compat. exact HS. }
  rewrite Habs, Int_part_IZR.
  assert (Hsign : (if Rlt_dec (IZR z / S_) 0 then -1 else 1) * IZR A = IZR z).
  { destruct (Rlt_dec (IZR z / S_) 0) as [H|H].
    - assert (Hz : IZR z < 0).
      { apply (Rmult_lt_compat_r S_) in H; [|exact HS].
        unfold Rdiv in H. rewrite Rmult_assoc, Rinv_l, Rmult_0_l in H by lra. lra. }
      apply lt_IZR in Hz. unfold A. rewrite Z.abs_neq by lia. rewrite opp_IZR. zlra.
    - assert (Hz : 0 <= IZR z).
      { apply Rnot_lt_le in H. apply (Rmult_le_compat_r S_) in H; [|lra].
        unfold Rdiv in H. rewrite Rmult_assoc, Rinv_l, Rmult_0_l in H by lra. lra. }
      apply le_IZR in Hz. unfold A. rewrite Z.abs_eq by lia. zlra. }
  set (t := (Z.log2 A - 23)%Z).
  destruct (Z.leb_spec t 0) as [Ht|Ht].
  - rewrite Z.max_l by lia. change (2 ^ 0)%Z with 1%Z.
    replace (IZR A / 1) with (IZR A) by (unfold Rdiv; rewrite Rinv_1; ring).
    rewrite nearest_even_IZR.
    set (sg := if Rlt_dec (IZR z / S_) 0 then -1 else 1) in *.
    rewrite <- Hsign. unfold Rdiv. ring.
  - rewrite Z.max_r by lia.
    rewrite nearest_even_div by (apply Z.pow_pos_nonneg; lia). cbv zeta.
    set (q' := (if (2 * (A mod 2 ^ t) <? 2 ^ t)%Z then (A / 2 ^ t)%Z
                else if (2 ^ t <? 2 * (A mod 2 ^ t))%Z then (A / 2 ^ t + 1)%Z
                else if Z.even (A / 2 ^ t) then (A / 2 ^ t)%Z else (A / 2 ^ t + 1)%Z)).
    assert (Hsgn : (if Rlt_dec (IZR z / S_) 0 then -1 else 1) = IZR (Z.sgn z)).
    { assert (HA : (0 < A)%Z).
      { destruct (Z.eq_dec A 0) as [E|E]; [|unfold A in *; lia].
        exfalso. unfold t in Ht. rewrite E in Ht. cbn in Ht. lia. }
      destruct (Rlt_dec (IZR z / S_) 0) as [H|H].
      - assert (Hz : (z < 0)%Z).
        { apply lt_IZR. rewrite <- Hsign. 
          assert (0 < IZR A) by (now apply IZR_lt). lra. }
        rewrite Z.sgn_neg by lia. reflexivity.
      - assert (Hz : (0 < z)%Z).
        { apply lt_IZR. rewrite <- Hsign.
          assert (0 < IZR A) by (now apply IZR_lt). lra. }
        rewrite Z.sgn_pos by lia. reflexivity. }
    rewrite Hsgn, !mult_IZR. field. lra.
Qed.

(** Numbers with at most 24 significant bits are left as they are. *)
Lemma round_f32_Z_fixed (w q k : Z) :
  (0 <= q <= 2 ^ 24)%Z -> (0 <= k)%Z -> Z.abs w = (q * 2 ^ k)%Z ->
  round_f32_Z w = w.
Proof.
  intros Hq Hk Hw. unfold round_f32_Z. cbv zeta.
  set (A := Z.abs w) in *.
  destruct (Z.leb_spec (Z.log2 A - 23) 0) as [Ht|Ht]; [reflexivity|].
  set (t := (Z.log2 A - 23)%Z) in *.
  assert (Hp : (0 < 2 ^ t)%Z) by (apply Z.pow_pos_nonneg; lia).
  assert (Hk2 : (0 < 2 ^ k)%Z) by (apply Z.pow_pos_nonneg; lia).
  assert (HA0 : (0 < A)%Z).
  { destruct (Z.eq_dec A 0) as [E|E]; [|unfold A in *; lia].
    exfalso. unfold t in Ht. rewrite E in Ht. cbn in Ht. lia. }
  assert (Hq0 : (0 < q)%Z).
  { destruct (Z.eq_dec q 0) as [E|E]; [|lia]. rewrite E in Hw. lia. }
  assert (Hlog : Z.log2 A = (k + Z.log2 q)%Z)
    by (rewrite Hw; apply Z.log2_mul_pow2; lia).
  assert (Hdiv : exists c, A = (c * 2 ^ t)%Z).
  { destruct (Z.eq_dec q (2 ^ 24)) as [E|E].
    - exists (2 ^ 23)%Z. rewrite Hw, E.
      assert (Ht' : t = (k + 1)%Z).
      { unfold t. rewrite Hlog, E. rewrite Z.log2_pow2 by lia. lia. }
      rewrite Ht', <- !Z.pow_add_r by lia. f_equal. lia.
    - assert (Hlt : (Z.log2 q < 24)%Z) by (apply Z.log2_lt_pow2; lia).
      exists (q * 2 ^ (k - t))%Z.
      rewrite Hw, <- Z.mul_assoc, <- Z.pow_add_r by (unfold t; lia).
      do 2 f_equal. lia. }
  destruct Hdiv as [c Hc].
  assert (Hmod : (A mod 2 ^ t = 0)%Z) by (rewrite Hc; apply Z.mod_mul; lia).
  assert (Hquo : (A / 2 ^ t = c)%Z) by (rewrite Hc; apply Z.div_mul; lia).
  rewrite Hmod, Hquo. cbn [Z.mul].
  destruct (Z.ltb_spec 0 (2 ^ t)) as [_|C]; [|lia].
  rewrite <- Hc. unfold A. now rewrite Z.mul_comm, Z.abs_sgn.
Qed.

(** What [round_f32] returns is a multiple of [2^-149] with at most 24
    significant bits. *)
Lemma round_f32_on_grid (x : R) :
  exists w q k : Z,
    (0 <= q <= 2 ^ 24)%Z /\ (0 <= k)%Z /\ Z.abs w = (q * 2 ^ k)%Z /\
    round_f32 x = IZR w / IZR (2 ^ 149).
Proof.
  pose proof (IZR_pow2_pos 149 ltac:(lia)) as HS.
  unfold round_f32. cbv zeta.
  set (a := Rabs x * IZR (2 ^ 149)).
  set (n := Int_part a).
  set (k := Z.max 0 (Z.log2 n - 23)).
  set (q := nearest_even (a / IZR (2 ^ k))).
  assert (Ha : 0 <= a).
  { unfold a. apply Rmult_le_pos; [apply Rabs_pos | lra]. }
  assert (Hk : (0 <= k)%Z) by (unfold k; lia).
  pose proof (IZR_pow2_pos k Hk) as HPk.
  destruct (base_Int_part a) as [Hlo Hhi]. fold n in Hlo, Hhi.
  assert (Hn0 : (0 <= n)%Z).
  { apply Z.lt_succ_r. apply lt_IZR. rewrite succ_IZR. zlra. }
  assert (Hn : (n < 2 ^ (k + 24))%Z).
  { destruct (Z.eq_dec n 0) as [E|E].
    - rewrite E. apply Z.pow_pos_nonneg; lia.
    - destruct (Z.log2_spec n ltac:(lia)) as [_ Hup].
      apply (Z.lt_le_trans _ _ _ Hup).
      apply Z.pow_le_mono_r; [lia | unfold k; lia]. }
  assert (Hy : a / IZR (2 ^ k) < IZR (2 ^ 24)).
  { assert (Hsplit : IZR (2 ^ (k + 24)) = IZR (2 ^ 24) * IZR (2 ^ k)).
    { rewrite <- mult_IZR. f_equal. rewrite <- Z.pow_add_r by lia. f_equal. lia. }
    assert (Hle : IZR n + 1 <= IZR (2 ^ (k + 24))).
    { rewrite <- succ_IZR. apply IZR_le. lia. }
    apply (Rmult_lt_reg_r (IZR (2 ^ k))); [exact HPk|].
    unfold Rdiv. rewrite Rmult_assoc, Rinv_l, Rmult_1_r by lra.
    rewrite <- Hsplit. zlra. }
  assert (Hy0 : 0 <= a / IZR (2 ^ k)).
  { apply Rmult_le_pos; [exact Ha|]. apply Rlt_le, Rinv_0_lt_compat. exact HPk. }
  pose proof (nearest_even_bounds _ _ Hy0 Hy) as Hq. fold q in Hq.
  exists ((if Rlt_dec x 0 then -1 else 1) * (q * 2 ^ k))%Z, q, k.
  split; [exact Hq|]. split; [exact Hk|]. split.
  - assert (H0 : (0 <= q * 2 ^ k)%Z) by (apply Z.mul_nonneg_nonneg; lia).
    destruct (Rlt_dec x 0); lia.
  - rewrite !mult_IZR.
    assert (Hs : (if Rlt_dec x 0 then -1 else 1)
                 = IZR (if Rlt_dec x 0 then -1 else 1)).
    { destruct (Rlt_dec x 0); reflexivity. }
    rewrite Hs. field. lra.
Qed.

Lemma round_f32_idempotent (x : R) : round_f32 (round_f32 x) = round_f32 x.
Proof.
  destruct (round_f32_on_grid x) as [w [q [k [Hq [Hk [Hw ->]]]]]].
  rewrite round_f32_grid. now rewrite (round_f32_Z_fixed w q k Hq Hk Hw).
Qed.

Lemma round_f32_zero : round_f32 0 = 0.
Proof. rewrite (round_f32_IZR 0). reflexivity. Qed.

(** ** The distance matrix *)

Lemma fold_left_radd_exact (rnd : R -> R) (l : list R) (a : R) :
  (forall x, rnd x = x) -> fold_left (radd rnd) l a = a + Rsum l.
Proof.
  intros Hx. revert a; induction l as [|x l IH]; intros a.
  - simpl. lra.
  - cbn [fold_left]. rewrite IH. unfold radd. rewrite Hx.
    cbn [Rsum fold_right]. unfold Rsum. lra.
Qed.

Lemma rsum_exact (rnd : R -> R) (l : list R) :
  (forall x, rnd x = x) -> rsum rnd l = Rsum l.
Proof.
  intros Hx. destruct l as [|x l]; [reflexivity|].
  unfold rsum. rewrite (fold_left_radd_exact rnd l x Hx).
  cbn [Rsum fold_right]. unfold Rsum. lra.
Qed.

Lemma Rsum_sqdist {X : Type} (a b : X -> R) (l : list X) :
  Rsum (map (fun c => a c * a c) l) - 2 * Rsum (map (fun c => a c * b c) l)
  + Rsum (map (fun c => b c * b c) l)
  = Rsum (map (fun c => (a c - b c) ^ 2) l).
Proof.
  induction l as [|x l IH]; [simpl; lra|].
  cbn [map Rsum fold_right]. unfold Rsum in *. rewrite <- IH. ring.
Qed.
(** The matrix has the shape [(B, M, N)]; each entry is the result of a
    rounded addition, and the squared distance when nothing is rounded. *)
Lemma batch_distance_matrix_spec (rnd : R -> R) (A B : tensor R) (Bn M N C : nat) :
  shape A = [Bn; M; C] -> shape B = [Bn; N; C] ->
  exists D, batch_distance_matrix_general rnd A B = Ok D /\
            shape D = [Bn; M; N] /\
            (forall b i j, exists z, get D [b; i; j] = rnd z) /\
            ((forall x, rnd x = x) ->
             forall b i j, get D [b; i; j] = sqdist A B b i j).
Proof.
  intros HA HB. unfold batch_distance_matrix_general. rewrite HA, HB.
  rewrite !Nat.eqb_refl. cbn [andb]. eexists. split; [reflexivity|].
  split; [reflexivity|]. split.
  - intros b i j. cbn [get]. unfold radd at 1. eexists. reflexivity.
  - intros Hx b i j. cbn [get]. unfold sqdist. rewrite HB. cbn [nth].
    rewrite <- Rsum_sqdist. unfold radd, rsub, rmul at 1. rewrite !Hx.
    rewrite !(rsum_exact rnd _ Hx).
    rewrite (map_ext (fun c => rmul rnd (get A [b; i; c]) (get A [b; i; c]))
                     (fun c => get A [b; i; c] * get A [b; i; c]))
      by (intros c; unfold rmul; apply Hx).
    rewrite (map_ext (fun c => rmul rnd (get A [b; i; c]) (get B [b; j; c]))
                     (fun c => get A [b; i; c] * get B [b; j; c]))
      by (intros c; unfold rmul; apply Hx).
    rewrite (map_ext (fun c => rmul rnd (get B [b; j; c]) (get B [b; j; c]))
                     (fun c => get B [b; j; c] * get B [b; j; c]))
      by (intros c; unfold rmul; apply Hx).
    unfold rmul. rewrite Hx. reflexivity.
Qed.

(** ** Sorting in ascending order *)

Lemma insert_asc_perm (x : R) (l : list R) : Permutation (insert_asc x l) (x :: l).
Proof.
  induction l as [|y l IH]; simpl; [reflexivity|].
  destruct (Rle_dec x y); [reflexivity|]. rewrite IH. apply perm_swap.
Qed.
Lemma sort_asc_perm (l : list R) : Permutation (sort_asc l) l.
Proof.
  induction l as [|x l IH]; simpl; [reflexivity|].
  rewrite insert_asc_perm. now constructor.
Qed.
Lemma insert_asc_sorted (x : R) (l : list R) :
  StronglySorted Rle l -> StronglySorted Rle (insert_asc x l).
Proof.
  induction l as [|y l IH]; intros Hs; simpl.
  - constructor; constructor.
  - inversion Hs as [|? ? Hs' Hall]; subst.
    destruct (Rle_dec x y) as [Hle|Hgt].
    + constructor; [assumption|]. constructor; [assumption|].
      apply Forall_forall. intros z Hz. rewrite Forall_forall in Hall.
      specialize (Hall z Hz). lra.
    + constructor; [now apply IH|].
      apply Forall_forall. intros z Hz.
      apply (Permutation_in _ (insert_asc_perm x l)) in Hz.
      destruct Hz as [<-|Hz]; [lra|].
      rewrite Forall_forall in Hall. now apply Hall.
Qed.
Lemma sort_asc_sorted (l : list R) : StronglySorted Rle (sort_asc l).
Proof.
  induction l as [|x l IH]; simpl; [constructor | now apply insert_asc_sorted].
Qed.
(** A list has one ascending arrangement. *)
Lemma sorted_perm_unique (l1 l2 : list R) :
  StronglySorted Rle l1 -> StronglySorted Rle l2 -> Permutation l1 l2 -> l1 = l2.
Proof.
  revert l2; induction l1 as [|a l1 IH]; intros l2 H1 H2 Hp.
  - apply Permutation_nil in Hp. now subst.
  - destruct l2 as [|b l2]; [apply Permutation_sym, Permutation_nil in Hp; discriminate|].
    inversion H1 as [|? ? H1' Hall1]; subst.
    inversion H2 as [|? ? H2' Hall2]; subst.
    rewrite Forall_forall in Hall1, Hall2.
    assert (Hab : a = b).
    { assert (Ha : In a (b :: l2)) by (apply (Permutation_in _ Hp); now left).
      assert (Hb : In b (a :: l1)) by (apply (Permutation_in _ (Permutation_sym Hp)); now left).
      destruct Ha as [->|Ha]; [reflexivity|]. destruct Hb as [->|Hb]; [reflexivity|].
      specialize (Hall1 b Hb). specialize (Hall2 a Ha). lra. }
    subst b. f_equal. apply IH; try assumption.
    now apply Permutation_cons_inv in Hp.
Qed.
Lemma sorted_app {X : Type} (Rel : X -> X -> Prop) (l1 l2 : list X) :
  StronglySorted Rel l1 -> StronglySorted Rel l2 ->
  (forall x y, In x l1 -> In y l2 -> Rel x y) ->
  StronglySorted Rel (l1 ++ l2).
Proof.
  induction l1 as [|a l1 IH]; intros H1 H2 Hc; [exact H2|].
  inversion H1 as [|? ? H1' Hall]; subst. simpl. constructor.
  - apply IH; try assumption. intros x y Hx Hy. apply Hc; [now right | assumption].
  - apply Forall_forall. intros z Hz. apply in_app_or in Hz as [Hz|Hz].
    + rewrite Forall_forall in Hall. now apply Hall.
    + apply Hc; [now left | assumption].
Qed.
Lemma sorted_of_nth (l : list R) :
  (forall s t, (s <= t < length l)%nat -> nth s l 0 <= nth t l 0) ->
  StronglySorted Rle l.
Proof.
  induction l as [|a l IH]; intros H; [constructor|]. constructor.
  - apply IH. intros s t Hst. apply (H (S s) (S t)). simpl. lia.
  - apply Forall_forall. intros z Hz. destruct (In_nth _ _ 0 Hz) as [t [Ht <-]].
    apply (H 0%nat (S t)). simpl. lia.
Qed.
Lemma map_nth_seq {X : Type} (d : X) (l : list X) :
  map (fun t => nth t l d) (seq 0 (length l)) = l.
Proof.
  induction l as [|a l IH]; [reflexivity|]. simpl. f_equal.
  rewrite <- seq_shift, map_map. exact IH.
Qed.
(** The selected positions and the positions left out rearrange all positions. *)
Lemma selection_perm (sel : list nat) (n : nat) :
  NoDup sel -> (forall i, In i sel -> (i < n)%nat) ->
  Permutation (sel ++ filter (fun j => negb (existsb (Nat.eqb j) sel)) (seq 0 n)) (seq 0 n).
Proof.
  intros Hnd Hr. apply NoDup_Permutation.
  - apply NoDup_app; [assumption | apply NoDup_filter, seq_NoDup |].
    intros i Hi Hf. apply filter_In in Hf as [_ Hf].
    apply negb_true_iff in Hf.
    assert (Ht : existsb (Nat.eqb i) sel = true).
    { apply existsb_exists. exists i. split; [assumption | apply Nat.eqb_refl]. }
    congruence.
  - apply seq_NoDup.
  - intros i. split.
    + intros Hi. apply in_app_or in Hi as [Hi|Hi].
      * apply in_seq. specialize (Hr i Hi). lia.
      * now apply filter_In in Hi as [Hi _].
    + intros Hi. apply in_or_app.
      destruct (existsb (Nat.eqb i) sel) eqn:E.
      * left. apply existsb_exists in E as [x [Hx Hex]]. apply Nat.eqb_eq in Hex. now subst.
      * right. apply filter_In. split; [assumption | now rewrite E].
Qed.
(** The [k] selected values, in ascending order and none larger than a value
    left out, are the first [k] of the sorted list. *)
Lemma selection_is_brute_force (d : nat -> R) (sel : list nat) (n k : nat) :
  length sel = k ->
  NoDup sel -> (forall i, In i sel -> (i < n)%nat) ->
  StronglySorted Rle (map d sel) ->
  (forall j, (j < n)%nat -> ~ In j sel -> forall i, In i sel -> d i <= d j) ->
  firstn k (sort_asc (map d (seq 0 n))) = map d sel.
Proof.
  intros Hlen Hnd Hr Hs Hsmall.
  set (rest := filter (fun j => negb (existsb (Nat.eqb j) sel)) (seq 0 n)).
  assert (Heq : sort_asc (map d (seq 0 n)) = map d sel ++ sort_asc (map d rest)).
  { apply sorted_perm_unique.
    - apply sort_asc_sorted.
    - apply sorted_app; [assumption | apply sort_asc_sorted |].
      intros x y Hx Hy. apply in_map_iff in Hx as [i [<- Hi]].
      apply (Permutation_in _ (sort_asc_perm _)) in Hy.
      apply in_map_iff in Hy as [j [<- Hj]].
      apply filter_In in Hj as [Hj Hnot]. apply in_seq in Hj.
      apply Hsmall; [lia | | assumption].
      intros Hin. apply negb_true_iff in Hnot.
      assert (Ht : existsb (Nat.eqb j) sel = true).
      { apply existsb_exists. exists j. split; [assumption | apply Nat.eqb_refl]. }
      congruence.
    - rewrite sort_asc_perm.
      rewrite (Permutation_app_head _ (sort_asc_perm (map d rest))).
      rewrite <- map_app. apply Permutation_map. symmetry. now apply selection_perm. }
  rewrite Heq. rewrite firstn_app.
  replace (k - length (map d sel))%nat with 0%nat by (rewrite length_map; lia).
  rewrite firstn_all2 by (rewrite length_map; lia). simpl. apply app_nil_r.
Qed.

(** ** group_knn *)
(** ** group_knn *)

Lemma indices_nonempty (B M N : nat) :
  (0 < B)%nat -> (0 < M)%nat -> (0 < N)%nat -> In [0; 0; 0]%nat (indices [B; M; N]).
Proof.
  intros. repeat (apply in_indices_cons; split; [assumption|]). now left.
Qed.
Lemma fold_left_Rmax_in (l : list R) (x : R) : In (fold_left Rmax l x) (x :: l).
Proof.
  revert x; induction l as [|y l IH]; intros x; simpl; [now left|].
  destruct (IH (Rmax x y)) as [Heq|Hin]; [|auto].
  rewrite <- Heq. unfold Rmax. destruct (Rle_dec x y); auto.
Qed.
Lemma max_all_spec (D : tensor R) (B M N : nat) :
  shape D = [B; M; N] -> (0 < B)%nat -> (0 < M)%nat -> (0 < N)%nat ->
  exists maxD, max_all D = Ok maxD /\
               In maxD (elements D) /\
               forall b m j, (b < B)%nat -> (m < M)%nat -> (j < N)%nat ->
                             get D [b; m; j] <= maxD.
Proof.
  intros HD HB HM HN. unfold max_all.
  assert (Hin : forall b m j, (b < B)%nat -> (m < M)%nat -> (j < N)%nat ->
                              In (get D [b; m; j]) (elements D)).
  { intros b m j Hb Hm Hj. unfold elements. apply in_map. rewrite HD.
    repeat (apply in_indices_cons; split; [assumption|]). now left. }
  destruct (elements D) as [|x l] eqn:E.
  - destruct (Hin 0%nat 0%nat 0%nat HB HM HN).
  - eexists. split; [reflexivity|]. split; [apply fold_left_Rmax_in|].
    intros b m j Hb Hm Hj.
    destruct (fold_left_Rmax_ge l x) as [H0 Hl].
    destruct (Hin b m j Hb Hm Hj) as [<-|Hi]; [exact H0 | now apply Hl].
Qed.
Lemma nth_map_seq {X : Type} (f : nat -> X) (d : X) (n j : nat) :
  (j < n)%nat -> nth j (map f (seq 0 n)) d = f j.
Proof.
  intros Hj. rewrite (nth_indep _ d (f O)) by (rewrite length_map, length_seq; lia).
  rewrite (map_nth f (seq 0 n) O j). now rewrite seq_nth.
Qed.
Lemma row_values (D : tensor R) (B M N b m : nat) :
  shape D = [B; M; N] -> row D b m = map (fun j => get D [b; m; j]) (seq 0 N).
Proof. intros HD. unfold row. now rewrite HD. Qed.

(** What [group_knn] returns, in terms of the matrix [D] the selection is
    made on: the matrix of [__batch_distance_matrix_general], penalised when
    [unique] is set. *)
Lemma group_knn_result (rnd : R -> R) (topk : list R -> nat -> list R * list nat)
      (k : nat) (query points : tensor R) (unique NCHW : bool) (B M N C : nat) :
  let pt := if NCHW then transpose21 points else points in
  let qt := if NCHW then transpose21 query else query in
  shape pt = [B; N; C] -> shape qt = [B; M; C] -> (k <= N)%nat ->
  (unique = true -> (0 < B)%nat /\ (0 < M)%nat /\ (0 < N)%nat) ->
  exists (D0 : tensor R) (maxD : R) (knn : tensor R) (idx : tensor Z) (dist : tensor R),
    batch_distance_matrix_general rnd qt pt = Ok D0 /\
    shape D0 = [B; M; N] /\
    (forall b m j, exists z, get D0 [b; m; j] = rnd z) /\
    ((forall x, rnd x = x) -> forall b m j, get D0 [b; m; j] = sqdist qt pt b m j) /\
    (unique = true ->
     max_all D0 = Ok maxD /\
     (exists b m j, (b < B)%nat /\ (m < M)%nat /\ (j < N)%nat /\ maxD = get D0 [b; m; j]) /\
     forall b m j, (b < B)%nat -> (m < M)%nat -> (j < N)%nat -> get D0 [b; m; j] <= maxD) /\
    let D := if unique then penalised rnd pt D0 maxD else D0 in
    group_knn rnd topk k query points unique NCHW = Ok (knn, idx, dist) /\
    shape D = [B; M; N] /\
    shape idx = [B; M; k] /\ shape dist = [B; M; k] /\
    shape knn = (if NCHW then [B; C; M; k] else [B; M; k; C]) /\
    (forall b m t, get idx [b; m; t]
                   = Z.of_nat (nth t (snd (topk (map Ropp (row D b m)) k)) O)) /\
    (forall b m t, get dist [b; m; t]
                   = - nth t (fst (topk (map Ropp (row D b m)) k)) 0) /\
    (forall b m t c,
        get knn (if NCHW then [b; c; m; t] else [b; m; t; c])
        = get pt [b; nth t (snd (topk (map Ropp (row D b m)) k)) O; c]).
Proof.
  intros pt qt Hpt Hqt Hk Hpos.
  destruct (batch_distance_matrix_spec rnd qt pt B M N C Hqt Hpt)
    as [D0 [ED [HsD [Hrnd HD]]]].
  assert (Hguard : (if NCHW
                    then match shape points with
                         | [_; _; _] => Ok tt
                         | _ => Raise ValueError
                         end
                    else Ok tt) = Ok tt).
  { destruct NCHW; [|reflexivity]. unfold pt, transpose21 in Hpt. cbn [shape] in Hpt.
    destruct (shape points) as [|? [|? [|? [|? ?]]]]; try discriminate. reflexivity. }
  unfold group_knn. rewrite Hguard. cbn [bind]. fold pt qt. rewrite Hpt.
  apply Nat.leb_le in Hk. rewrite Hk. cbn [assert_ bind]. rewrite ED. cbn [bind].
  destruct unique.
  - destruct (Hpos eq_refl) as [HB [HM HN]].
    destruct (max_all_spec D0 B M N HsD HB HM HN) as [maxD [Emax [Hatt Hmax]]].
    rewrite Emax. cbn [bind]. cbn [penalised shape]. rewrite HsD. cbn [nth].
    exists D0, maxD. do 3 eexists.
    split; [reflexivity|]. split; [exact HsD|]. split; [exact Hrnd|]. split; [exact HD|].
    split.
    { intros _. split; [exact Emax|]. split.
      - unfold elements in Hatt. apply in_map_iff in Hatt as [I [HI Hin]].
        rewrite HsD in Hin.
        destruct I as [|b [|m [|j [|? ?]]]];
          try (apply in_indices_length in Hin; discriminate).
        apply in_indices_cons in Hin as [Hb Hin].
        apply in_indices_cons in Hin as [Hm Hin].
        apply in_indices_cons in Hin as [Hj _].
        exists b, m, j. repeat split; try assumption. now symmetry.
      - exact Hmax. }
    cbv zeta. cbn [penalised shape]. rewrite HsD.
    split; [reflexivity|]. split; [reflexivity|].
    split; [reflexivity|]. split; [reflexivity|].
    split; [destruct NCHW; reflexivity|].
    split; [reflexivity|]. split; [reflexivity|].
    intros b m t c. destruct NCHW; reflexivity.
  - cbn [bind]. rewrite HsD. cbn [nth].
    exists D0, 0. do 3 eexists.
    split; [reflexivity|]. split; [exact HsD|]. split; [exact Hrnd|]. split; [exact HD|].
    split; [discriminate|]. cbv zeta.
    split; [reflexivity|]. split; [exact HsD|].
    split; [reflexivity|]. split; [reflexivity|].
    split; [destruct NCHW; reflexivity|].
    split; [reflexivity|]. split; [reflexivity|].
    intros b m t c. destruct NCHW; reflexivity.
Qed.

(** What the contract of [topk] gives on a row of the distance matrix. *)
Lemma row_selection (topk : list R -> nat -> list R * list nat)
      (D : tensor R) (B M N k b m : nat) :
  topk_contract topk ->
  shape D = [B; M; N] -> (k <= N)%nat ->
  let sel := snd (topk (map Ropp (row D b m)) k) in
  let vals := fst (topk (map Ropp (row D b m)) k) in
  length sel = k /\ NoDup sel /\ (forall i, In i sel -> (i < N)%nat) /\
  (forall t, (t < k)%nat -> - nth t vals 0 = get D [b; m; nth t sel O]) /\
  (forall s t, (s <= t < k)%nat ->
               get D [b; m; nth s sel O] <= get D [b; m; nth t sel O]) /\
  (forall j, (j < N)%nat -> ~ In j sel ->
             forall i, In i sel -> get D [b; m; i] <= get D [b; m; j]).
Proof.
  intros Hc HD Hk sel vals.
  assert (Hlen : length (map Ropp (row D b m)) = N).
  { unfold row. rewrite HD. cbn [nth]. now rewrite !length_map, length_seq. }
  assert (Hnth : forall j, (j < N)%nat ->
                           nth j (map Ropp (row D b m)) 0 = - get D [b; m; j]).
  { intros j Hj. unfold row. rewrite HD. cbn [nth]. rewrite map_map.
    exact (nth_map_seq (fun x => - get D [b; m; x]) 0 N j Hj). }
  destruct (Hc (map Ropp (row D b m)) k ltac:(lia)) as [H1 [H2 [H3 [H4 [H5 H6]]]]].
  fold sel in H1, H2, H3, H4, H6. fold vals in H4, H5.
  rewrite Hlen in H3, H6.
  assert (Hval : forall t, (t < k)%nat -> - nth t vals 0 = get D [b; m; nth t sel O]).
  { intros t Ht. rewrite H4.
    rewrite (nth_indep _ 0 (nth O (map Ropp (row D b m)) 0))
      by (rewrite length_map; lia).
    rewrite (map_nth (fun i => nth i (map Ropp (row D b m)) 0) sel O t).
    rewrite Hnth; [lra|]. apply H3. apply nth_In. lia. }
  repeat split; try assumption.
  - intros s t Hst. rewrite <- !Hval by lia. specialize (H5 s t Hst). lra.
  - intros j Hj Hnot i Hi. specialize (H6 j Hj Hnot i Hi).
    rewrite !Hnth in H6 by (try assumption; now apply H3). lra.
Qed.
(** C3, amended: for every rounding of the arithmetic and every [topk] that
    meets the documented contract, [group_knn] returns for every query row
    [k] distinct positions of the point set together with the entries the
    distance matrix holds for them, in ascending order; no entry left out is
    smaller than a returned one, and the returned values are exactly the
    first [k] of the sorted row.  The matrix is the one the code computes:
    [r_A - 2 * m + r_B^T], every operation rounded, with [max(D)] added to
    the later copies of a repeated point when [unique] is set.  When nothing
    is rounded and no penalty applies ([unique=False], or no point of the
    cloud repeats), its entries are the squared Euclidean distances and the
    result is the brute-force sort of the distances.  Which of several equal
    entries is returned, and in which order, is left to [torch.topk]. *)
Theorem group_knn_k_smallest
        (rnd : R -> R) (topk : list R -> nat -> list R * list nat)
        (k : nat) (query points : tensor R) (unique NCHW : bool) (B M N C : nat) :
  topk_contract topk ->
  shape (if NCHW then transpose21 points else points) = [B; N; C] ->
  shape (if NCHW then transpose21 query else query) = [B; M; C] ->
  (k <= N)%nat ->
  (unique = true -> (0 < B)%nat /\ (0 < M)%nat /\ (0 < N)%nat) ->
  exists (D0 : tensor R) (maxD : R) (knn : tensor R) (idx : tensor Z) (dist : tensor R),
    batch_distance_matrix_general rnd (if NCHW then transpose21 query else query)
                                  (if NCHW then transpose21 points else points) = Ok D0 /\
    (unique = true -> max_all D0 = Ok maxD) /\
    group_knn rnd topk k query points unique NCHW = Ok (knn, idx, dist) /\
    shape idx = [B; M; k] /\ shape dist = [B; M; k] /\
    forall b m, (b < B)%nat -> (m < M)%nat ->
      let pt := if NCHW then transpose21 points else points in
      let qt := if NCHW then transpose21 query else query in
      let D := if unique then penalised rnd pt D0 maxD else D0 in
      (exists sel : list nat,
          length sel = k /\ NoDup sel /\ (forall i, In i sel -> (i < N)%nat) /\
          (forall t, (t < k)%nat -> get idx [b; m; t] = Z.of_nat (nth t sel O)) /\
          (forall t, (t < k)%nat -> get dist [b; m; t] = get D [b; m; nth t sel O]) /\
          (forall s t, (s <= t < k)%nat -> get dist [b; m; s] <= get dist [b; m; t]) /\
          (forall j t, (j < N)%nat -> ~ In j sel -> (t < k)%nat ->
                       get dist [b; m; t] <= get D [b; m; j]) /\
          map (fun t => get dist [b; m; t]) (seq 0 k) = firstn k (sort_asc (row D b m)) /\
          (forall t c, (t < k)%nat ->
             get knn (if NCHW then [b; c; m; t] else [b; m; t; c])
             = get pt [b; nth t sel O; c])) /\
      ((forall x, rnd x = x) ->
       (unique = false \/
        forall j, (j < N)%nat -> indices_duplicated pt b j = 0) ->
       (forall j, (j < N)%nat -> get D [b; m; j] = sqdist qt pt b m j) /\
       map (fun t => get dist [b; m; t]) (seq 0 k) = brute_force qt pt k b m).
Proof.
  intros Hc Hpt Hqt Hk Hpos.
  destruct (group_knn_result rnd topk k query points unique NCHW B M N C Hpt Hqt Hk Hpos)
    as [D0 [maxD [knn [idx [dist [ED [HsD0 [_ [Hex [Hmax
         [E [HsD [Hsi [Hsd [_ [Hidx [Hdist Hknn]]]]]]]]]]]]]]]]].
  exists D0, maxD, knn, idx, dist.
  split; [exact ED|]. split; [intros Hu; apply (Hmax Hu)|].
  split; [exact E|]. split; [exact Hsi|]. split; [exact Hsd|].
  intros b m Hb Hm pt qt D.
  set (d := fun j => get D [b; m; j]).
  destruct (row_selection topk D B M N k b m Hc HsD Hk)
    as [H1 [H2 [H3 [H4 [H5 H6]]]]].
  fold pt qt D in Hidx, Hdist, Hknn. fold pt qt in Hex.
  set (sel := snd (topk (map Ropp (row D b m)) k)) in *.
  assert (Hdv : forall t, (t < k)%nat -> get dist [b; m; t] = d (nth t sel O)).
  { intros t Ht. rewrite Hdist. exact (H4 t Ht). }
  assert (Hasc : forall s t, (s <= t < k)%nat -> get dist [b; m; s] <= get dist [b; m; t]).
  { intros s t Hst. rewrite !Hdv by lia. now apply H5. }
  assert (Hmap : map (fun t => get dist [b; m; t]) (seq 0 k) = map d sel).
  { transitivity (map d (map (fun t => nth t sel O) (seq 0 (length sel))));
      [|now rewrite map_nth_seq].
    rewrite map_map, H1.
    apply map_ext_in. intros t Ht. apply in_seq in Ht. apply Hdv. lia. }
  assert (Hsorted : map (fun t => get dist [b; m; t]) (seq 0 k)
                    = firstn k (sort_asc (row D b m))).
  { rewrite (row_values D B M N b m HsD). fold d. rewrite Hmap.
    symmetry. apply selection_is_brute_force; try assumption.
    rewrite <- Hmap. apply sorted_of_nth. rewrite length_map, length_seq.
      intros s t Hst.
      rewrite !(nth_map_seq (fun t => get dist [b; m; t]) 0 k) by lia.
      now apply Hasc. }
  split.
  - exists sel. split; [exact H1|]. split; [exact H2|]. split; [exact H3|].
    split; [intros t _; apply Hidx|]. split; [exact Hdv|]. split; [exact Hasc|].
    split.
    { intros j t Hj Hnot Ht. rewrite (Hdv t Ht). apply H6; try assumption.
      apply nth_In. lia. }
    split; [exact Hsorted|]. intros t c _. apply Hknn.
  - intros Hx Hmode.
    assert (HDd : forall j, (j < N)%nat -> get D [b; m; j] = sqdist qt pt b m j).
    { intros j Hj. unfold D. destruct unique.
      - destruct Hmode as [Hf|Hnodup]; [discriminate|].
        cbn [penalised get]. unfold radd, rmul. rewrite !Hx.
        rewrite (Hnodup j Hj), (Hex Hx). lra.
      - apply (Hex Hx). }
    split; [exact HDd|].
    assert (HN1 : nth 1 (shape pt) O = N) by (unfold pt; now rewrite Hpt).
    rewrite Hsorted. unfold brute_force. rewrite HN1.
    rewrite (row_values D B M N b m HsD). do 2 f_equal.
    apply map_ext_in. intros j Hj. apply in_seq in Hj. apply HDd. lia.
Qed.

(** ** Duplicated points *)

Lemma forallb_pointwise {X : Type} (f g : X -> bool) (l : list X) :
  (forall x, f x = g x) -> forallb f l = forallb g l.
Proof.
  intros H. induction l as [|x l IH]; simpl; [reflexivity | now rewrite H, IH].
Qed.
Lemma same_point_sym (pt : tensor R) (b i j : nat) :
  same_point pt b i j = same_point pt b j i.
Proof.
  unfold same_point. apply forallb_pointwise. intros c.
  destruct (Req_dec_T (get pt [b; i; c]) (get pt [b; j; c])),
           (Req_dec_T (get pt [b; j; c]) (get pt [b; i; c])); congruence.
Qed.
Lemma indices_duplicated_cases (pt : tensor R) (b j N : nat) :
  nth 1 (shape pt) O = N -> (j < N)%nat ->
  (In j (representatives pt b) /\ indices_duplicated pt b j = 0) \/
  (~ In j (representatives pt b) /\ indices_duplicated pt b j = 1).
Proof.
  intros HN Hj. unfold indices_duplicated, representatives. rewrite HN.
  destruct (existsb (fun i => same_point pt b i j) (seq 0 j)) eqn:E.
  - right. split; [|reflexivity]. intros Hin. apply filter_In in Hin as [_ Hin].
    rewrite E in Hin. discriminate.
  - left. split; [|reflexivity]. apply filter_In. split; [apply in_seq; lia|].
    now rewrite E.
Qed.
Lemma representatives_distinct (pt : tensor R) (b i j : nat) :
  In i (representatives pt b) -> In j (representatives pt b) -> i <> j ->
  same_point pt b i j = false.
Proof.
  intros Hi Hj Hne. unfold representatives in *.
  apply filter_In in Hi as [_ Hi]. apply filter_In in Hj as [_ Hj].
  apply negb_true_iff in Hi, Hj.
  destruct (same_point pt b i j) eqn:E; [|reflexivity]. exfalso.
  destruct (Nat.lt_total i j) as [Hlt|[Heq|Hgt]]; [|contradiction|].
  - assert (Ht : existsb (fun i0 => same_point pt b i0 j) (seq 0 j) = true).
    { apply existsb_exists. exists i. split; [apply in_seq; lia | exact E]. }
    congruence.
  - assert (Ht : existsb (fun i0 => same_point pt b i0 i) (seq 0 i) = true).
    { apply existsb_exists. exists j. split; [apply in_seq; lia|].
      now rewrite same_point_sym. }
    congruence.
Qed.
(** With at least [k] elements in [l], a selection of [k] positions that
    holds a position outside [l] leaves a position of [l] out. *)
Lemma pigeonhole_left_out (l sel : list nat) (j : nat) :
  NoDup l -> NoDup sel -> (length sel <= length l)%nat ->
  In j sel -> ~ In j l ->
  exists u, In u l /\ ~ In u sel.
Proof.
  intros Hl Hsel Hlen Hj Hjl.
  destruct (Forall_Exists_dec (fun u => In u sel)
              (fun u => in_dec Nat.eq_dec u sel) l) as [Hall|Hex].
  - exfalso. rewrite Forall_forall in Hall.
    assert (Hincl : incl (j :: l) sel).
    { intros u [<-|Hu]; [assumption | now apply Hall]. }
    assert (Hnd : NoDup (j :: l)) by (constructor; assumption).
    pose proof (NoDup_incl_length Hnd Hincl) as Hle. simpl in Hle. lia.
  - apply Exists_exists in Hex as [u [Hu Hnot]]. now exists u.
Qed.
Lemma sqdist_nonneg (qt pt : tensor R) (b m j : nat) : 0 <= sqdist qt pt b m j.
Proof.
  unfold sqdist. apply Rsum_nonneg. intros x Hx.
  apply in_map_iff in Hx as [c [<- _]]. apply pow2_ge_0.
Qed.
(** C5, amended: with [unique=True], for every query row of a cloud that
    has at least [k] distinct coordinate tuples, the [k] returned positions
    are first occurrences of [k] distinct coordinate tuples, provided the
    penalty lifts every later copy above the largest entry of the matrix:
    [max(D) < D[b, m, j] + max(D)], rounded, for every later copy [j].  The
    penalty is [max(D)], not a large constant; [D] is the matrix the code
    computes.  When nothing is rounded the condition says that the query is
    not at the repeated point. *)
Theorem group_knn_unique_representatives
        (rnd : R -> R) (topk : list R -> nat -> list R * list nat)
        (k : nat) (query points : tensor R) (NCHW : bool) (B M N C : nat) :
  topk_contract topk ->
  (forall x, rnd (rnd x) = rnd x) -> rnd 0 = 0 ->
  shape (if NCHW then transpose21 points else points) = [B; N; C] ->
  shape (if NCHW then transpose21 query else query) = [B; M; C] ->
  (0 < B)%nat -> (0 < M)%nat -> (0 < N)%nat -> (k <= N)%nat ->
  exists (D : tensor R) (maxD : R) (knn : tensor R) (idx : tensor Z) (dist : tensor R),
    batch_distance_matrix_general rnd (if NCHW then transpose21 query else query)
                                  (if NCHW then transpose21 points else points) = Ok D /\
    max_all D = Ok maxD /\
    group_knn rnd topk k query points true NCHW = Ok (knn, idx, dist) /\
    forall b m, (b < B)%nat -> (m < M)%nat ->
      let pt := if NCHW then transpose21 points else points in
      let qt := if NCHW then transpose21 query else query in
      ((forall x, rnd x = x) ->
       forall j, (j < N)%nat -> get D [b; m; j] = sqdist qt pt b m j) /\
      ((k <= length (representatives pt b))%nat ->
       (forall j, (j < N)%nat -> ~ In j (representatives pt b) ->
                  maxD < rnd (get D [b; m; j] + maxD)) ->
       exists sel : list nat,
         length sel = k /\ NoDup sel /\
         (forall t, (t < k)%nat -> get idx [b; m; t] = Z.of_nat (nth t sel O)) /\
         (forall i, In i sel -> In i (representatives pt b)) /\
         (forall i j, In i sel -> In j sel -> i <> j -> same_point pt b i j = false)).
Proof.
  intros Hc Hidem Hzero Hpt Hqt HB HM HN Hk.
  destruct (group_knn_result rnd topk k query points true NCHW B M N C Hpt Hqt Hk
              (fun _ => conj HB (conj HM HN)))
    as [D [maxD [knn [idx [dist [ED [HsD0 [Hrnd [Hex [Hmax
         [E [HsD [_ [_ [_ [Hidx _]]]]]]]]]]]]]]]].
  destruct (Hmax eq_refl) as [Emax [[b0 [m0 [j0 [_ [_ [_ Hatt]]]]]] Hle]].
  exists D, maxD, knn, idx, dist.
  split; [exact ED|]. split; [exact Emax|]. split; [exact E|].
  intros b m Hb Hm pt qt.
  split; [intros Hx j _; apply (Hex Hx)|].
  intros Hreps Hfar.
  fold pt in HsD, Hidx.
  set (P := penalised rnd pt D maxD) in *.
  destruct (row_selection topk P B M N k b m Hc HsD Hk)
    as [H1 [H2 [H3 [_ [_ H6]]]]].
  set (sel := snd (topk (map Ropp (row P b m)) k)) in *.
  assert (HN1 : nth 1 (shape pt) O = N) by (unfold pt; now rewrite Hpt).
  assert (HmaxD : rnd maxD = maxD).
  { rewrite Hatt. destruct (Hrnd b0 m0 j0) as [z ->]. apply Hidem. }
  assert (Hfirst : forall u, indices_duplicated pt b u = 0 ->
                             get P [b; m; u] = get D [b; m; u]).
  { intros u Hu. unfold P. cbn [penalised get]. unfold radd, rmul. rewrite Hu.
    rewrite Rmult_0_r, Hzero, Rplus_0_r.
    destruct (Hrnd b m u) as [z ->]. apply Hidem. }
  assert (Hcopy : forall j, indices_duplicated pt b j = 1 ->
                            get P [b; m; j] = rnd (get D [b; m; j] + maxD)).
  { intros j Hj. unfold P. cbn [penalised get]. unfold radd, rmul. rewrite Hj.
    now rewrite Rmult_1_r, HmaxD. }
  assert (Hrep : forall i, In i sel -> In i (representatives pt b)).
  { intros j Hj.
    destruct (indices_duplicated_cases pt b j N HN1 (H3 j Hj)) as [[Hin _]|[Hnot Hdup]];
      [exact Hin|]. exfalso.
    destruct (pigeonhole_left_out (representatives pt b) sel j) as [u [Hu Hnu]];
      try assumption.
    { apply NoDup_filter, seq_NoDup. }
    { lia. }
    assert (HuN : (u < N)%nat).
    { unfold representatives in Hu. apply filter_In in Hu as [Hu _].
      apply in_seq in Hu. lia. }
    specialize (H6 u HuN Hnu j Hj).
    destruct (indices_duplicated_cases pt b u N HN1 HuN) as [[_ Hu0]|[Hnot' _]];
      [|contradiction].
    rewrite (Hfirst u Hu0), (Hcopy j Hdup) in H6.
    pose proof (Hle b m u Hb Hm HuN) as Hmx.
    pose proof (Hfar j (H3 j Hj) Hnot) as Hpos. lra. }
  exists sel. split; [exact H1|]. split; [exact H2|].
  split; [intros t _; apply Hidx|]. split; [exact Hrep|].
  intros i j Hi Hj Hne. apply representatives_distinct; auto.
Qed.

(** ** Examples in exact arithmetic *)

Lemma exact_id (x : R) : exact x = x.
Proof. reflexivity. Qed.

Lemma c3_sqdist (b m j : nat) : sqdist c3_query c3_points b m j = 1.
Proof. unfold sqdist. simpl. lra. Qed.

Lemma c3_same_point : same_point c3_points 0 0 1 = true.
Proof.
  unfold same_point. simpl. destruct (Req_dec_T 0 0); [reflexivity | congruence].
Qed.

Lemma c3_duplicated :
  indices_duplicated c3_points 0 0 = 0 /\ indices_duplicated c3_points 0 1 = 1.
Proof.
  unfold indices_duplicated. simpl. fold (same_point c3_points 0 0 1).
  change (forallb _ _) with (same_point c3_points 0 0 1).
  rewrite c3_same_point. split; reflexivity.
Qed.

(** On this input every [topk] that meets its contract returns both copies,
    the second with the penalised distance [1 + max(D) = 2]. *)
Lemma group_knn_on_duplicates (topk : list R -> nat -> list R * list nat) :
  topk_contract topk ->
  exists (knn : tensor R) (idx : tensor Z) (dist : tensor R),
    group_knn exact topk 2 c3_query c3_points true false = Ok (knn, idx, dist) /\
    get idx [0; 0; 0]%nat = 0%Z /\ get idx [0; 0; 1]%nat = 1%Z /\
    get dist [0; 0; 0]%nat = 1 /\ get dist [0; 0; 1]%nat = 2.
Proof.
  intros Hc.
  destruct (group_knn_result exact topk 2 c3_query c3_points true false 1 1 2 1
              eq_refl eq_refl ltac:(lia) ltac:(intros _; lia))
    as [D0 [maxD [knn [idx [dist [_ [_ [_ [Hex [Hmax
         [E [HsD [_ [_ [_ [Hidx [Hdist _]]]]]]]]]]]]]]]]].
  cbv zeta in *. specialize (Hex exact_id).
  destruct (Hmax eq_refl) as [_ [[b [m [j [_ [_ [_ Hm]]]]]] _]].
  rewrite Hex, c3_sqdist in Hm. subst maxD.
  set (D := penalised exact c3_points D0 1) in *.
  destruct c3_duplicated as [Hd0 Hd1].
  assert (HD0 : get D [0; 0; 0]%nat = 1).
  { unfold D. cbn [penalised get]. unfold radd, rmul, exact.
    rewrite Hex, c3_sqdist, Hd0. lra. }
  assert (HD1 : get D [0; 0; 1]%nat = 2).
  { unfold D. cbn [penalised get]. unfold radd, rmul, exact.
    rewrite Hex, c3_sqdist, Hd1. lra. }
  destruct (row_selection topk D 1 1 2 2 0 0 Hc HsD ltac:(lia))
    as [H1 [H2 [H3 [H4 [H5 _]]]]].
  set (sel := snd (topk (map Ropp (row D 0 0)) 2%nat)) in *.
  assert (Hsel : sel = [0; 1]%nat).
  { destruct sel as [|a [|c [|? ?]]]; try discriminate.
    assert (Ha : (a < 2)%nat) by (apply H3; simpl; auto).
    assert (Hc' : (c < 2)%nat) by (apply H3; simpl; auto).
    inversion H2 as [|? ? Hnotin _]; subst.
    assert (Hne : a <> c) by (intros ->; apply Hnotin; now left).
    specialize (H5 0%nat 1%nat ltac:(lia)). cbn [nth] in H5.
    destruct a as [|[|a]], c as [|[|c]]; try lia; try reflexivity.
    rewrite HD0, HD1 in H5. lra. }
  exists knn, idx, dist. split; [exact E|].
  rewrite !Hidx, !Hdist. fold sel. rewrite !H4 by lia. rewrite Hsel. cbn [nth].
  rewrite HD0, HD1. repeat split; reflexivity.
Qed.

Lemma c3_brute_force : brute_force c3_query c3_points 2 0 0 = [1; 1].
Proof.
  unfold brute_force. simpl. rewrite !c3_sqdist. simpl.
  destruct (Rle_dec 1 1); [reflexivity | lra].
Qed.

(** ** Clouds on a line *)

(** The distance matrix of one query and a cloud on a line: there is one
    channel, so nothing is accumulated. *)
Lemma line_distance (rnd : R -> R) (q : R) (l : list R) (D0 : tensor R) :
  batch_distance_matrix_general rnd (line [q]) (line l) = Ok D0 ->
  forall j, get D0 [0; 0; j]%nat
            = radd rnd (rsub rnd (rmul rnd q q) (rmul rnd 2 (rmul rnd q (nth j l 0))))
                   (rmul rnd (nth j l 0) (nth j l 0)).
Proof.
  unfold batch_distance_matrix_general, line. cbn [shape length Nat.eqb andb].
  intros H. injection H as <-. intros j. reflexivity.
Qed.

Lemma line_sqdist (q : R) (l : list R) (j : nat) :
  sqdist (line [q]) (line l) 0 0 j = (q - nth j l 0) ^ 2.
Proof. unfold sqdist, line. cbn [shape nth seq map Rsum fold_right get]. lra. Qed.

Lemma line_same_point (l : list R) (i j : nat) :
  same_point (line l) 0 i j = if Req_dec_T (nth i l 0) (nth j l 0) then true else false.
Proof.
  unfold same_point, line. cbn [shape nth seq forallb get].
  destruct (Req_dec_T (nth i l 0) (nth j l 0)); reflexivity.
Qed.

Lemma Req_dec_T_same (x : R) {X : Type} (a b : X) :
  (if Req_dec_T x x then a else b) = a.
Proof. destruct (Req_dec_T x x); [reflexivity | congruence]. Qed.

Lemma Req_dec_T_differ (x y : R) {X : Type} (a b : X) :
  x <> y -> (if Req_dec_T x y then a else b) = b.
Proof. intros H. destruct (Req_dec_T x y); [contradiction | reflexivity]. Qed.

(** ** Examples in float32 *)

(** An entry of the distance matrix between integer coordinates, computed on
    the integers. *)
Lemma f32_distance (q p : Z) :
  radd round_f32
       (rsub round_f32 (rmul round_f32 (IZR q) (IZR q))
             (rmul round_f32 2 (rmul round_f32 (IZR q) (IZR p))))
       (rmul round_f32 (IZR p) (IZR p))
  = IZR (round_f32_Z
           (round_f32_Z (round_f32_Z (q * q) - round_f32_Z (2 * round_f32_Z (q * p)))
            + round_f32_Z (p * p))).
Proof.
  unfold radd, rsub, rmul.
  rewrite <- (mult_IZR q q), <- (mult_IZR q p), <- (mult_IZR p p), !round_f32_IZR.
  rewrite <- (mult_IZR 2), round_f32_IZR, <- minus_IZR, round_f32_IZR.
  rewrite <- plus_IZR, round_f32_IZR. reflexivity.
Qed.

(** A penalised entry, computed on the integers. *)
Lemma f32_penalised (d mx f : Z) :
  radd round_f32 (IZR d) (rmul round_f32 (IZR mx) (IZR f))
  = IZR (round_f32_Z (d + round_f32_Z (mx * f))).
Proof.
  unfold radd, rmul.
  now rewrite <- mult_IZR, round_f32_IZR, <- plus_IZR, round_f32_IZR.
Qed.

(** The squares of 5793, 5794 and 5791 and their products need 25 or 26
    bits: float32 keeps 24, and the three terms cancel to [4] for the point
    at distance 1 and to [0] for the point at distance 2. *)
Lemma far_matrix (D0 : tensor R) :
  batch_distance_matrix_general round_f32 far_query far_points = Ok D0 ->
  get D0 [0; 0; 0]%nat = 4 /\ get D0 [0; 0; 1]%nat = 0.
Proof.
  intros H. pose proof (line_distance round_f32 _ _ D0 H) as Hd.
  split.
  - rewrite (Hd 0%nat). cbn [nth]. rewrite (f32_distance 5793 5794). reflexivity.
  - rewrite (Hd 1%nat). cbn [nth]. rewrite (f32_distance 5793 5791). reflexivity.
Qed.

Lemma far_sqdist :
  sqdist far_query far_points 0 0 0 = 1 /\ sqdist far_query far_points 0 0 1 = 4.
Proof.
  unfold far_query, far_points. rewrite !line_sqdist. cbn [nth]. split; lra.
Qed.

Lemma far_brute_force : brute_force far_query far_points 1 0 0 = [1].
Proof.
  destruct far_sqdist as [H0 H1].
  unfold brute_force. cbn [far_points line shape length nth seq map].
  fold far_points. rewrite H0, H1. cbn [sort_asc fold_right insert_asc].
  destruct (Rle_dec 1 4); [reflexivity | lra].
Qed.

(** With [k = 1] every [topk] that meets its contract returns the point at
    distance 2, with the distance [0]. *)
Lemma group_knn_far (topk : list R -> nat -> list R * list nat) :
  topk_contract topk ->
  exists (knn : tensor R) (idx : tensor Z) (dist : tensor R),
    group_knn round_f32 topk 1 far_query far_points false false = Ok (knn, idx, dist) /\
    get idx [0; 0; 0]%nat = 1%Z /\ get dist [0; 0; 0]%nat = 0 /\
    get knn [0; 0; 0; 0]%nat = 5791.
Proof.
  intros Hc.
  destruct (group_knn_result round_f32 topk 1 far_query far_points false false 1 1 2 1
              eq_refl eq_refl ltac:(lia) ltac:(discriminate))
    as [D0 [maxD [knn [idx [dist [ED [_ [_ [_ [_
         [E [HsD [_ [_ [_ [Hidx [Hdist Hknn]]]]]]]]]]]]]]]]].
  cbv zeta in *.
  destruct (far_matrix D0 ED) as [HD0 HD1].
  destruct (row_selection topk D0 1 1 2 1 0 0 Hc HsD ltac:(lia))
    as [H1 [H2 [H3 [H4 [_ H6]]]]].
  set (sel := snd (topk (map Ropp (row D0 0 0)) 1%nat)) in *.
  assert (Hsel : sel = [1]%nat).
  { destruct sel as [|a [|? ?]]; try discriminate.
    assert (Ha : (a < 2)%nat) by (apply H3; simpl; auto).
    destruct a as [|[|a]]; [|reflexivity|lia].
    exfalso. specialize (H6 1%nat ltac:(lia)).
    assert (Hnot : ~ In 1%nat [0%nat]) by (intros [C|[]]; discriminate).
    specialize (H6 Hnot 0%nat ltac:(now left)). rewrite HD0, HD1 in H6. lra. }
  exists knn, idx, dist. split; [exact E|].
  rewrite Hidx, Hdist, (Hknn 0 0 0 0)%nat. fold sel. rewrite (H4 0%nat) by lia.
  rewrite Hsel. cbn [nth]. rewrite HD1.
  split; [reflexivity|]. split; [reflexivity|]. reflexivity.
Qed.

(** 8194 seen from a cloud that holds 8195 twice and 8154: the entries of
    the two copies come out negative. *)
Lemma far_matrix' (D0 : tensor R) :
  batch_distance_matrix_general round_f32 far_query' far_points' = Ok D0 ->
  get D0 [0; 0; 0]%nat = IZR (-8) /\ get D0 [0; 0; 1]%nat = IZR (-8) /\
  get D0 [0; 0; 2]%nat = 1596.
Proof.
  intros H. pose proof (line_distance round_f32 _ _ D0 H) as Hd.
  split; [|split].
  - rewrite (Hd 0%nat). cbn [nth]. rewrite (f32_distance 8194 8195). reflexivity.
  - rewrite (Hd 1%nat). cbn [nth]. rewrite (f32_distance 8194 8195). reflexivity.
  - rewrite (Hd 2%nat). cbn [nth]. rewrite (f32_distance 8194 8154). reflexivity.
Qed.

Lemma far_duplicated' :
  indices_duplicated far_points' 0 0 = 0 /\
  indices_duplicated far_points' 0 1 = 1 /\
  indices_duplicated far_points' 0 2 = 0.
Proof.
  unfold indices_duplicated, far_points'. cbn [seq existsb].
  rewrite !line_same_point. cbn [nth].
  rewrite Req_dec_T_same, !Req_dec_T_differ by lra. repeat split; reflexivity.
Qed.

Lemma far_representatives' : representatives far_points' 0 = [0; 2]%nat.
Proof.
  unfold representatives, far_points'. cbn [line shape length nth seq filter existsb].
  fold (line [8195; 8195; 8154]).
  rewrite !line_same_point. cbn [nth].
  rewrite Req_dec_T_same, !Req_dec_T_differ by lra. reflexivity.
Qed.

(** With [k = 2] every [topk] that meets its contract returns the two copies
    of 8195: the penalised entry [-8 + 1596] of the second copy stays below
    the entry [1596] of the other point. *)
Lemma group_knn_far_copies (topk : list R -> nat -> list R * list nat) :
  topk_contract topk ->
  exists (knn : tensor R) (idx : tensor Z) (dist : tensor R),
    group_knn round_f32 topk 2 far_query' far_points' true false = Ok (knn, idx, dist) /\
    get idx [0; 0; 0]%nat = 0%Z /\ get idx [0; 0; 1]%nat = 1%Z.
Proof.
  intros Hc.
  destruct (group_knn_result round_f32 topk 2 far_query' far_points' true false 1 1 3 1
              eq_refl eq_refl ltac:(lia) ltac:(intros _; lia))
    as [D0 [maxD [knn [idx [dist [ED [_ [_ [_ [Hmax
         [E [HsD [_ [_ [_ [Hidx _]]]]]]]]]]]]]]]].
  cbv zeta in *.
  destruct (far_matrix' D0 ED) as [HD0 [HD1 HD2]].
  destruct (Hmax eq_refl) as [_ [[b [m [j [Hb [Hm [Hj Hatt]]]]]] Hle]].
  assert (b = 0%nat) by lia. assert (m = 0%nat) by lia. subst b m.
  assert (HmaxD : maxD = 1596).
  { pose proof (Hle 0%nat 0%nat 2%nat ltac:(lia) ltac:(lia) ltac:(lia)) as H2.
    rewrite HD2 in H2.
    destruct j as [|[|[|j]]]; [rewrite HD0 in Hatt|rewrite HD1 in Hatt|
                                rewrite HD2 in Hatt|lia]; lra. }
  clear Hatt. subst maxD.
  set (P := penalised round_f32 far_points' D0 1596) in *.
  destruct far_duplicated' as [Hf0 [Hf1 Hf2]].
  assert (HP0 : get P [0; 0; 0]%nat = IZR (-8)).
  { unfold P. cbn [penalised get]. rewrite HD0, Hf0.
    rewrite (f32_penalised (-8) 1596 0). reflexivity. }
  assert (HP1 : get P [0; 0; 1]%nat = 1588).
  { unfold P. cbn [penalised get]. rewrite HD1, Hf1.
    rewrite (f32_penalised (-8) 1596 1). reflexivity. }
  assert (HP2 : get P [0; 0; 2]%nat = 1596).
  { unfold P. cbn [penalised get]. rewrite HD2, Hf2.
    rewrite (f32_penalised 1596 1596 0). reflexivity. }
  destruct (row_selection topk P 1 1 3 2 0 0 Hc HsD ltac:(lia))
    as [H1 [H2 [H3 [_ [H5 H6]]]]].
  set (sel := snd (topk (map Ropp (row P 0 0)) 2%nat)) in *.
  assert (Hsel : sel = [0; 1]%nat).
  { destruct sel as [|a [|c [|? ?]]]; try discriminate.
    assert (Ha : (a < 3)%nat) by (apply H3; simpl; auto).
    assert (Hc' : (c < 3)%nat) by (apply H3; simpl; auto).
    inversion H2 as [|? ? Hnotin _]; subst.
    assert (Hne : a <> c) by (intros ->; apply Hnotin; now left).
    specialize (H5 0%nat 1%nat ltac:(lia)). cbn [nth] in H5.
    assert (Hout : forall u, (u < 3)%nat -> u <> a -> u <> c ->
                             get P [0; 0; a]%nat <= get P [0; 0; u]%nat).
    { intros u Hu Hua Huc. apply H6; [exact Hu | | now left].
      intros [C|[C|[]]]; congruence. }
    destruct a as [|[|[|a]]], c as [|[|[|c]]]; try lia; try reflexivity.
    - specialize (Hout 1%nat ltac:(lia) ltac:(lia) ltac:(lia)).
      specialize (H6 1%nat ltac:(lia)).
      assert (Hn : ~ In 1%nat [0; 2]%nat) by (intros [C|[C|[]]]; discriminate).
      specialize (H6 Hn 2%nat ltac:(right; now left)).
      rewrite HP1, HP2 in H6. lra.
    - rewrite HP0, HP1 in H5. lra.
    - specialize (Hout 0%nat ltac:(lia) ltac:(lia) ltac:(lia)).
      rewrite HP0, HP1 in Hout. lra.
    - rewrite HP0, HP2 in H5. lra.
    - rewrite HP1, HP2 in H5. lra. }
  exists knn, idx, dist. split; [exact E|].
  rewrite !Hidx. fold sel. rewrite Hsel. split; reflexivity.
Qed.

(** ** Equal distances *)

(** Two points at the same distance from the query: the selection that puts
    the higher position first among equal values meets the contract of
    [topk], and [group_knn] returns position 1 before position 0. *)
Lemma group_knn_equidistant :
  exists (knn : tensor R) (idx : tensor Z) (dist : tensor R),
    group_knn exact topk_last 2 c3_query equidistant_points false false
    = Ok (knn, idx, dist) /\
    get dist [0; 0; 0]%nat = 1 /\ get dist [0; 0; 1]%nat = 1 /\
    get idx [0; 0; 0]%nat = 1%Z /\ get idx [0; 0; 1]%nat = 0%Z.
Proof.
  destruct (group_knn_result exact topk_last 2 c3_query equidistant_points false false
              1 1 2 1 eq_refl eq_refl ltac:(lia) ltac:(discriminate))
    as [D0 [maxD [knn [idx [dist [_ [HsD0 [_ [Hex [_
         [E [_ [_ [_ [_ [Hidx [Hdist _]]]]]]]]]]]]]]]]].
  cbv zeta in *. specialize (Hex exact_id).
  assert (Hrow : row D0 0 0 = [1; 1]).
  { rewrite (row_values D0 1 1 2 0 0 HsD0). cbn [seq map]. rewrite !Hex.
    unfold sqdist. simpl. f_equal; [lra | f_equal; lra]. }
  assert (Hsel : topk_last (map Ropp (row D0 0 0)) 2 = ([Ropp 1; Ropp 1], [1; 0]%nat)).
  { rewrite Hrow. unfold topk_last, topk_by.
    cbn [map length seq combine sort_desc fold_right insert_desc].
    unfold goes_after. cbn [fst].
    destruct (Rle_dec (Ropp 1) (Ropp 1)) as [_|C]; [|exfalso; lra].
    reflexivity. }
  exists knn, idx, dist. split; [exact E|].
  rewrite !Hidx, !Hdist, Hsel. cbn [fst snd nth].
  repeat split; try reflexivity; lra.
Qed.

(** ** The claims on examples *)

Lemma c5_brute_force : brute_force c3_query c5_points 2 0 0 = [1; 4].
Proof.
  unfold brute_force. cbn [c5_points shape nth seq map].
  assert (H0 : sqdist c3_query c5_points 0 0 0 = 1) by (unfold sqdist; simpl; lra).
  assert (H1 : sqdist c3_query c5_points 0 0 1 = 4) by (unfold sqdist; simpl; lra).
  fold c5_points. rewrite H0, H1. cbn [sort_asc fold_right insert_asc].
  destruct (Rle_dec 1 4); [reflexivity | lra].
Qed.

Lemma group_knn_k_smallest_witness :
  (exists (knn : tensor R) (idx : tensor Z) (dist : tensor R),
      group_knn exact topk_stable 2 c3_query c5_points false false = Ok (knn, idx, dist) /\
      shape idx = [1; 1; 2]%nat /\
      map (fun t => get dist [0; 0; t]%nat) (seq 0 2)
      = brute_force c3_query c5_points 2 0 0) /\
  (exists (D0 : tensor R) (knn : tensor R) (idx : tensor Z) (dist : tensor R),
      batch_distance_matrix_general round_f32 far_query far_points = Ok D0 /\
      group_knn round_f32 topk_stable 1 far_query far_points false false
      = Ok (knn, idx, dist) /\
      map (fun t => get dist [0; 0; t]%nat) (seq 0 1)
      = firstn 1 (sort_asc (row D0 0 0))).
Proof.
  split.
  - destruct (group_knn_k_smallest exact topk_stable 2 c3_query c5_points false false
                1 1 2 1 topk_stable_contract eq_refl eq_refl
                (le_n 2) (fun H => False_ind _ (diff_false_true H)))
      as [D0 [maxD [knn [idx [dist [_ [_ [E [Hs [_ Hrow]]]]]]]]]].
    destruct (Hrow 0%nat 0%nat (le_n 1) (le_n 1)) as [_ Hexact].
    destruct (Hexact exact_id (or_introl eq_refl)) as [_ Hb].
    exists knn, idx, dist. split; [exact E|]. split; [exact Hs | exact Hb].
  - destruct (group_knn_k_smallest round_f32 topk_stable 1 far_query far_points
                false false 1 1 2 1 topk_stable_contract eq_refl eq_refl
                (le_S 1 1 (le_n 1)) (fun H => False_ind _ (diff_false_true H)))
      as [D0 [maxD [knn [idx [dist [ED [_ [E [_ [_ Hrow]]]]]]]]]].
    destruct (Hrow 0%nat 0%nat (le_n 1) (le_n 1)) as [[sel [_ [_ [_ [_ [_ [_ [_ [Hb _]]]]]]]]] _].
    exists D0, knn, idx, dist. split; [exact ED|]. split; [exact E | exact Hb].
Defined.

(** C3 as stated fails in three ways.  In float32 the three terms of the
    matrix cancel: for the query 5793 and the points 5794 and 5791 the matrix
    holds [4] and [0], so the point at distance 2 is returned as the nearest,
    with the distance [0], whatever [topk] does.  With [unique=True] (the
    default) on a cloud with a repeated point, the second distance returned
    is the penalised [1 + max(D) = 2], while both points are at squared
    distance 1.  And the order among equal distances is the one of [topk]: a
    selection that meets its contract returns position 1 before position 0. *)
Lemma group_knn_not_brute_force :
  (forall topk, topk_contract topk ->
     exists (knn : tensor R) (idx : tensor Z) (dist : tensor R),
       group_knn round_f32 topk 1 far_query far_points false false = Ok (knn, idx, dist) /\
       get idx [0; 0; 0]%nat = 1%Z /\
       get dist [0; 0; 0]%nat = 0 /\
       sqdist far_query far_points 0 0 0 = 1 /\
       sqdist far_query far_points 0 0 1 = 4 /\
       brute_force far_query far_points 1 0 0 = [1] /\
       map (fun t => get dist [0; 0; t]%nat) (seq 0 1)
       <> brute_force far_query far_points 1 0 0) /\
  (forall topk, topk_contract topk ->
     exists (knn : tensor R) (idx : tensor Z) (dist : tensor R),
       group_knn exact topk 2 c3_query c3_points true false = Ok (knn, idx, dist) /\
       get idx [0; 0; 1]%nat = 1%Z /\
       get dist [0; 0; 1]%nat = 2 /\
       sqdist c3_query c3_points 0 0 1 = 1 /\
       brute_force c3_query c3_points 2 0 0 = [1; 1] /\
       map (fun t => get dist [0; 0; t]%nat) (seq 0 2) = [1; 2] /\
       map (fun t => get dist [0; 0; t]%nat) (seq 0 2)
       <> brute_force c3_query c3_points 2 0 0) /\
  topk_contract topk_stable /\
  topk_contract topk_last /\
  (exists (knn : tensor R) (idx : tensor Z) (dist : tensor R),
      group_knn exact topk_last 2 c3_query equidistant_points false false
      = Ok (knn, idx, dist) /\
      get dist [0; 0; 0]%nat = get dist [0; 0; 1]%nat /\
      get idx [0; 0; 0]%nat = 1%Z /\ get idx [0; 0; 1]%nat = 0%Z).
Proof.
  split; [|split; [|split; [|split]]].
  - intros topk Hc.
    destruct (group_knn_far topk Hc) as [knn [idx [dist [E [Hi [Hd _]]]]]].
    destruct far_sqdist as [H0 H1].
    exists knn, idx, dist. split; [exact E|]. split; [exact Hi|]. split; [exact Hd|].
    split; [exact H0|]. split; [exact H1|]. split; [exact far_brute_force|].
    rewrite far_brute_force. cbn [seq map]. rewrite Hd.
    intros Heq. injection Heq as Heq. lra.
  - intros topk Hc.
    destruct (group_knn_on_duplicates topk Hc) as [knn [idx [dist [E [_ [Hi [Hd0 Hd1]]]]]]].
    exists knn, idx, dist. split; [exact E|]. split; [exact Hi|]. split; [exact Hd1|].
    split; [apply c3_sqdist|]. split; [exact c3_brute_force|].
    assert (Hmap : map (fun t => get dist [0; 0; t]%nat) (seq 0 2) = [1; 2])
      by (simpl; now rewrite Hd0, Hd1).
    split; [exact Hmap|]. rewrite Hmap, c3_brute_force. intros Heq.
    injection Heq as Heq. lra.
  - exact topk_stable_contract.
  - exact topk_last_contract.
  - destruct group_knn_equidistant as [knn [idx [dist [E [Hd0 [Hd1 [Hi0 Hi1]]]]]]].
    exists knn, idx, dist. split; [exact E|]. split; [now rewrite Hd0, Hd1|].
    split; assumption.
Qed.

Lemma copy_same_point : same_point copy_points 0 0 1 = true.
Proof.
  unfold copy_points. rewrite line_same_point. cbn [nth]. apply Req_dec_T_same.
Qed.

Lemma copy_representatives : representatives copy_points 0 = [0; 2]%nat.
Proof.
  unfold representatives, copy_points. cbn [line shape length nth seq filter existsb].
  fold (line [0; 0; 3]).
  rewrite !line_same_point. cbn [nth].
  rewrite Req_dec_T_same, !Req_dec_T_differ by lra. reflexivity.
Qed.

(** The matrix of the query [1] and the points [0, 0, 3] in float32, and its
    largest entry. *)
Lemma copy_matrix (D : tensor R) (maxD : R) :
  batch_distance_matrix_general round_f32 copy_query copy_points = Ok D ->
  max_all D = Ok maxD ->
  get D [0; 0; 1]%nat = 1 /\ maxD = 4.
Proof.
  intros ED Emax.
  pose proof (line_distance round_f32 1 [0; 0; 3] D ED) as Hd.
  assert (H0 : get D [0; 0; 0]%nat = 1)
    by (rewrite (Hd 0%nat); cbn [nth]; rewrite (f32_distance 1 0); reflexivity).
  assert (H1 : get D [0; 0; 1]%nat = 1)
    by (rewrite (Hd 1%nat); cbn [nth]; rewrite (f32_distance 1 0); reflexivity).
  assert (H2 : get D [0; 0; 2]%nat = 4)
    by (rewrite (Hd 2%nat); cbn [nth]; rewrite (f32_distance 1 3); reflexivity).
  split; [exact H1|].
  assert (HsD : shape D = [1; 1; 3]%nat).
  { revert ED. unfold batch_distance_matrix_general, copy_query, copy_points, line.
    cbn [shape length Nat.eqb andb]. intros H. now injection H as <-. }
  destruct (max_all_spec D 1 1 3 HsD ltac:(lia) ltac:(lia) ltac:(lia))
    as [mx [Emx [Hin Hle]]].
  rewrite Emax in Emx. injection Emx as <-.
  pose proof (Hle 0%nat 0%nat 2%nat ltac:(lia) ltac:(lia) ltac:(lia)) as Hge.
  rewrite H2 in Hge.
  unfold elements in Hin. rewrite HsD in Hin. cbn [indices seq flat_map map app] in Hin.
  rewrite H0, H1, H2 in Hin.
  destruct Hin as [H|[H|[H|[]]]]; lra.
Qed.

Lemma group_knn_unique_representatives_witness :
  same_point copy_points 0 0 1 = true /\
  representatives copy_points 0 = [0; 2]%nat /\
  (exists (knn : tensor R) (idx : tensor Z) (dist : tensor R),
      group_knn round_f32 topk_stable 2 copy_query copy_points true false
      = Ok (knn, idx, dist) /\
      exists sel : list nat,
        length sel = 2%nat /\ NoDup sel /\
        (forall t, (t < 2)%nat -> get idx [0; 0; t]%nat = Z.of_nat (nth t sel O)) /\
        (forall i, In i sel -> In i (representatives copy_points 0))) /\
  (exists (knn : tensor R) (idx : tensor Z) (dist : tensor R),
      group_knn exact topk_stable 2 copy_query copy_points true false
      = Ok (knn, idx, dist) /\
      exists sel : list nat,
        length sel = 2%nat /\ NoDup sel /\
        (forall t, (t < 2)%nat -> get idx [0; 0; t]%nat = Z.of_nat (nth t sel O)) /\
        (forall i, In i sel -> In i (representatives copy_points 0))).
Proof.
  split; [exact copy_same_point|]. split; [exact copy_representatives|].
  assert (Hlater : forall j, (j < 3)%nat -> ~ In j (representatives copy_points 0) ->
                             j = 1%nat).
  { intros j Hj Hnot. rewrite copy_representatives in Hnot.
    destruct j as [|[|[|j]]]; [|reflexivity| |lia];
      exfalso; apply Hnot; simpl; auto. }
  split.
  - destruct (group_knn_unique_representatives round_f32 topk_stable 2
                copy_query copy_points false 1 1 3 1
                topk_stable_contract round_f32_idempotent round_f32_zero
                eq_refl eq_refl (le_n 1) (le_n 1) (le_S 1 2 (le_S 1 1 (le_n 1)))
                (le_S 2 2 (le_n 2)))
      as [D [maxD [knn [idx [dist [ED [Emax [E Hrow]]]]]]]].
    destruct (copy_matrix D maxD ED Emax) as [H1 Hmax].
    destruct (Hrow 0%nat 0%nat (le_n 1) (le_n 1)) as [_ Hsel].
    destruct Hsel as [sel [Hl [Hnd [Hidx [Hrep _]]]]].
    + rewrite copy_representatives. apply le_n.
    + intros j Hj Hnot. rewrite (Hlater j Hj Hnot), H1, Hmax.
      rewrite <- plus_IZR, round_f32_IZR.
      apply IZR_lt. reflexivity.
    + exists knn, idx, dist. split; [exact E|].
      exists sel. repeat split; assumption.
  - destruct (group_knn_unique_representatives exact topk_stable 2
                copy_query copy_points false 1 1 3 1
                topk_stable_contract exact_id eq_refl
                eq_refl eq_refl (le_n 1) (le_n 1) (le_S 1 2 (le_S 1 1 (le_n 1)))
                (le_S 2 2 (le_n 2)))
      as [D [maxD [knn [idx [dist [ED [Emax [E Hrow]]]]]]]].
    destruct (Hrow 0%nat 0%nat (le_n 1) (le_n 1)) as [Hexact Hsel].
    destruct Hsel as [sel [Hl [Hnd [Hidx [Hrep _]]]]].
    + rewrite copy_representatives. apply le_n.
    + intros j Hj Hnot. rewrite (Hlater j Hj Hnot).
      rewrite (Hexact exact_id 1%nat ltac:(lia)).
      unfold exact, copy_query, copy_points. rewrite line_sqdist. cbn [nth]. lra.
    + exists knn, idx, dist. split; [exact E|].
      exists sel. repeat split; assumption.
Defined.

(** C5 as stated fails in two ways.  When [k] exceeds the number of distinct
    points, the copies come back: on two copies of one point and [k = 2],
    both are returned, whatever [topk] does.  And in float32 the entries of
    the matrix can be negative, so that a copy with the penalty [max(D)] stays
    below another point: for the query 8194 and the points 8195, 8195, 8154
    (two distinct points, none at the query) and [k = 2], the two copies of
    8195 are returned. *)
Lemma group_knn_unique_returns_duplicates :
  topk_contract topk_stable /\
  (forall topk, topk_contract topk ->
     exists (knn : tensor R) (idx : tensor Z) (dist : tensor R),
       group_knn exact topk 2 c3_query c3_points true false = Ok (knn, idx, dist) /\
       get idx [0; 0; 0]%nat = 0%Z /\
       get idx [0; 0; 1]%nat = 1%Z /\
       same_point c3_points 0 0 1 = true) /\
  (forall topk, topk_contract topk ->
     exists (knn : tensor R) (idx : tensor Z) (dist : tensor R),
       group_knn round_f32 topk 2 far_query' far_points' true false
       = Ok (knn, idx, dist) /\
       get idx [0; 0; 0]%nat = 0%Z /\
       get idx [0; 0; 1]%nat = 1%Z /\
       same_point far_points' 0 0 1 = true /\
       representatives far_points' 0 = [0; 2]%nat /\
       sqdist far_query' far_points' 0 0 0 = 1 /\
       sqdist far_query' far_points' 0 0 1 = 1 /\
       sqdist far_query' far_points' 0 0 2 = 1600).
Proof.
  split; [exact topk_stable_contract|]. split.
  - intros topk Hc.
    destruct (group_knn_on_duplicates topk Hc) as [knn [idx [dist [E [Hi0 [Hi1 _]]]]]].
    exists knn, idx, dist. repeat split; try assumption. exact c3_same_point.
  - intros topk Hc.
    destruct (group_knn_far_copies topk Hc) as [knn [idx [dist [E [Hi0 Hi1]]]]].
    exists knn, idx, dist. split; [exact E|]. split; [exact Hi0|]. split; [exact Hi1|].
    split.
    { unfold far_points'. rewrite line_same_point. cbn [nth]. apply Req_dec_T_same. }
    split; [exact far_representatives'|].
    unfold far_query', far_points'. rewrite !line_sqdist. cbn [nth].
    repeat split; lra.
Qed.

(** With two distinct points and [k = 2], the copy at distance zero ties with
    the second point after the penalty [max(D)], and a [topk] that breaks
    ties by the lower position returns the copy. *)
Example group_knn_unique_tie_keeps_duplicate :
  exists (knn : tensor R) (idx : tensor Z) (dist : tensor R),
    group_knn exact topk_stable 2 tie_query tie_points true false = Ok (knn, idx, dist) /\
    get idx [0; 0; 0]%nat = 0%Z /\ get idx [0; 0; 1]%nat = 1%Z /\
    same_point tie_points 0 0 1 = true /\
    length (representatives tie_points 0) = 2%nat.
Proof.
  destruct (group_knn_result exact topk_stable 2 tie_query tie_points true false 1 1 3 1
              eq_refl eq_refl ltac:(lia) ltac:(intros _; lia))
    as [D0 [maxD [knn [idx [dist [_ [_ [_ [Hex [Hmax
         [E [HsD [_ [_ [_ [Hidx _]]]]]]]]]]]]]]]].
  cbv zeta in *. specialize (Hex exact_id).
  assert (Hs : forall j, sqdist tie_query tie_points 0 0 j
                         = match j with 2%nat => 1 | _ => 0 end).
  { intros j. unfold sqdist. simpl. destruct j as [|[|[|j]]]; lra. }
  destruct (Hmax eq_refl) as [_ [[b [m [j [Hb [Hm [Hj Hatt]]]]]] Hle]].
  assert (b = 0%nat) by lia. assert (m = 0%nat) by lia. subst b m.
  assert (HmaxD : maxD = 1).
  { pose proof (Hle 0%nat 0%nat 2%nat ltac:(lia) ltac:(lia) ltac:(lia)) as H2.
    rewrite Hex, Hs in H2, Hatt. destruct j as [|[|[|j]]]; lra. }
  clear Hatt. subst maxD.
  set (P := penalised exact tie_points D0 1) in *.
  assert (Hsame : same_point tie_points 0 0 1 = true).
  { unfold same_point. simpl. destruct (Req_dec_T 0 0); [reflexivity | congruence]. }
  assert (Hdiff0 : same_point tie_points 0 0 2 = false).
  { unfold same_point. simpl. destruct (Req_dec_T 0 1); [lra | reflexivity]. }
  assert (Hdiff1 : same_point tie_points 0 1 2 = false).
  { unfold same_point. simpl. destruct (Req_dec_T 0 1); [lra | reflexivity]. }
  assert (Hdup : indices_duplicated tie_points 0 0 = 0 /\
                 indices_duplicated tie_points 0 1 = 1 /\
                 indices_duplicated tie_points 0 2 = 0).
  { unfold indices_duplicated. cbn [seq existsb].
    rewrite Hsame, Hdiff0, Hdiff1. repeat split; reflexivity. }
  destruct Hdup as [Hd0 [Hd1 Hd2]].
  assert (HP : forall u, get P [0; 0; u]%nat
                         = sqdist tie_query tie_points 0 0 u
                           + 1 * indices_duplicated tie_points 0 u).
  { intros u. unfold P. cbn [penalised get]. unfold radd, rmul, exact.
    now rewrite Hex. }
  assert (HP0 : get P [0; 0; 0]%nat = 0) by (rewrite HP, Hs, Hd0; lra).
  assert (HP1 : get P [0; 0; 1]%nat = 1) by (rewrite HP, Hs, Hd1; lra).
  assert (HP2 : get P [0; 0; 2]%nat = 1) by (rewrite HP, Hs, Hd2; lra).
  assert (Hsel : snd (topk_stable (map Ropp (row P 0 0)) 2) = [0; 1]%nat).
  { rewrite (row_values P 1 1 3 0 0 HsD). cbn [seq map]. rewrite HP0, HP1, HP2.
    unfold topk_stable, topk_by.
    cbn [length seq combine sort_desc fold_right insert_desc].
    unfold goes_after. cbn [fst].
    repeat (match goal with
            | |- context [Rlt_dec ?a ?c] => destruct (Rlt_dec a c); [exfalso; lra|]
            end; cbn [insert_desc fst]; unfold goes_after; cbn [fst]).
    reflexivity. }
  exists knn, idx, dist. split; [exact E|].
  rewrite !Hidx, Hsel. split; [reflexivity|]. split; [reflexivity|].
  split; [exact Hsame|].
  unfold representatives. cbn [shape tie_points nth seq filter].
  cbn [existsb]. rewrite Hsame, Hdiff0, Hdiff1. reflexivity.
Qed.

Import MeanValue MeanValueMeaning.

(** ** Mean value coordinates: the angles of a face *)

Lemma vnorm_nonneg (v : vec3) : 0 <= vnorm v.
Proof. apply sqrt_pos. Qed.

Lemma vnorm_pos (v : vec3) : 0 < vdot v v -> 0 < vnorm v.
Proof. intros Hv. now apply sqrt_lt_R0. Qed.

Lemma asin_le (x y : R) : -1 <= x -> x <= y -> y <= 1 -> asin x <= asin y.
Proof.
  intros Hx Hxy Hy. destruct (Rle_dec (asin x) (asin y)) as [|Hn]; [assumption|].
  exfalso. apply Rnot_le_lt in Hn.
  pose proof (asin_bound x) as Bx. pose proof (asin_bound y) as By.
  assert (Hs : sin (asin y) < sin (asin x)) by (apply sin_increasing_1; lra).
  rewrite !sin_asin in Hs by lra. lra.
Qed.

Lemma asin_pos (x : R) : 0 < x -> x <= 1 -> 0 < asin x.
Proof.
  intros Hx Hx1. destruct (Rlt_dec 0 (asin x)) as [|Hn]; [assumption|].
  exfalso. apply Rnot_lt_le in Hn.
  pose proof (asin_bound x) as Bx. pose proof (asin_le 0 x ltac:(lra) ltac:(lra) Hx1) as Hle.
  rewrite asin_0 in Hle. assert (E : asin x = 0) by lra.
  pose proof (sin_asin x ltac:(lra)) as Hs. rewrite E, sin_0 in Hs. lra.
Qed.

Lemma next_lt (s : nat) : (next s < 3)%nat.
Proof. destruct s as [|[|s]]; simpl; lia. Qed.

Lemma prev_lt (s : nat) : (prev s < 3)%nat.
Proof. destruct s as [|[|s]]; simpl; lia. Qed.

Lemma prev_in (s : nat) : In (prev s) [0; 1; 2]%nat.
Proof. destruct s as [|[|s]]; simpl; auto. Qed.

Lemma prev_prev (s : nat) : prev (prev s) = next s.
Proof. destruct s as [|[|[|s]]]; reflexivity. Qed.

Section FaceAngles.
Variables (query vertices : tensor R) (faces : tensor Z).

Lemma li_value (b p f s : nat) :
  li query vertices faces b p f s
  = if Rle_dec 2 (chord query vertices faces b p f s) then 2 - 2e-5
    else chord query vertices faces b p f s.
Proof.
  unfold li. fold (chord query vertices faces b p f s).
  pose proof (vnorm_nonneg (vsub (ui query vertices faces b p f (next s))
                                 (ui query vertices faces b p f (prev s)))) as Hn.
  fold (chord query vertices faces b p f s) in Hn.
  destruct (Rle_dec 2 (chord query vertices faces b p f s)).
  - destruct (Rle_dec _ (-2)); lra.
  - destruct (Rle_dec _ (-2)); lra.
Qed.

Lemma chord_nonneg (b p f s : nat) : 0 <= chord query vertices faces b p f s.
Proof. apply vnorm_nonneg. Qed.

Lemma li_range (b p f s : nat) : 0 <= li query vertices faces b p f s < 2.
Proof.
  rewrite li_value. pose proof (chord_nonneg b p f s).
  destruct (Rle_dec 2 (chord query vertices faces b p f s)); lra.
Qed.

Lemma li_pos (b p f s : nat) :
  0 < chord query vertices faces b p f s -> 0 < li query vertices faces b p f s.
Proof.
  intros Hc. rewrite li_value.
  destruct (Rle_dec 2 (chord query vertices faces b p f s)); lra.
Qed.

(** The angle is always defined: the clamp keeps [li / 2] inside the domain of
    [asin]. *)
Lemma theta_i_value (b p f s : nat) :
  theta_i query vertices faces b p f s = Some (theta query vertices faces b p f s).
Proof.
  unfold theta_i, theta, fasin. pose proof (li_range b p f s) as Hl.
  destruct (Rle_dec (-1) (li query vertices faces b p f s / 2)); [|lra].
  destruct (Rle_dec (li query vertices faces b p f s / 2) 1); [|lra]. reflexivity.
Qed.


(** The sine of an angle of a face is positive as soon as the two unit vectors
    differ. *)
Lemma sin_theta_pos (b p f s : nat) :
  0 < chord query vertices faces b p f s ->
  0 < sin (theta query vertices faces b p f s).
Proof.
  intros Hc. pose proof (li_pos b p f s Hc) as Hp.
  pose proof (li_range b p f s) as Hl. unfold theta.
  pose proof (asin_pos (li query vertices faces b p f s / 2) ltac:(lra) ltac:(lra)) as H0.
  pose proof (asin_bound_lt (li query vertices faces b p f s / 2) ltac:(lra)) as H1.
  apply sin_gt_0; lra.
Qed.

Lemma h_value (b p f : nat) :
  h query vertices faces b p f
  = Some ((theta query vertices faces b p f 0 + theta query vertices faces b p f 1
           + theta query vertices faces b p f 2) / 2).
Proof.
  unfold h. cbn [map]. rewrite !theta_i_value.
  unfold fsum. cbn [fold_left fadd lift2].
  rewrite fdiv_Some by lra. f_equal. lra.
Qed.

(** [ci] is finite exactly when the two sines it divides by are not zero, and
    the clamps then keep it strictly between [-1] and [1]. *)
Lemma ci_cases (b p f s : nat) :
  (sin (theta query vertices faces b p f (next s))
   * sin (theta query vertices faces b p f (prev s)) = 0
   /\ ci query vertices faces b p f s = None)
  \/ (sin (theta query vertices faces b p f (next s))
      * sin (theta query vertices faces b p f (prev s)) <> 0
      /\ exists c, ci query vertices faces b p f s = Some c /\ -1 < c < 1).
Proof.
  unfold ci. rewrite h_value, !theta_i_value. cbn [fsin lift1 option_map fmul fsub lift2].
  set (D := sin (theta query vertices faces b p f (next s))
            * sin (theta query vertices faces b p f (prev s))).
  set (X := 2 * sin _ * sin _).
  unfold fdiv. destruct (Req_dec_T D 0) as [HD|HD].
  - left. split; [assumption|]. reflexivity.
  - right. split; [assumption|]. cbn [fsub lift2 fge].
    destruct (Rle_dec 1 (X / D - 1)).
    + cbn [fsub lift2 fle]. destruct (Rle_dec _ (-1)) as [Hc|Hc]; [exfalso; lra|].
      eexists. split; [reflexivity|]. lra.
    + cbn [fle]. destruct (Rle_dec (X / D - 1) (-1)).
      * cbn [fadd fsub lift2]. eexists. split; [reflexivity|]. lra.
      * eexists. split; [reflexivity|]. lra.
Qed.

Lemma si_cases (b p f s : nat) :
  (ci query vertices faces b p f s = None /\ si query vertices faces b p f s = None)
  \/ (exists c, ci query vertices faces b p f s = Some c /\ -1 < c < 1
                /\ si query vertices faces b p f s
                   = Some (sign (det (ui query vertices faces b p f 0)
                                     (ui query vertices faces b p f 1)
                                     (ui query vertices faces b p f 2))
                           * sqrt (1 - c * c))).
Proof.
  unfold si. destruct (ci_cases b p f s) as [[_ Hc]|[_ [c [Hc Hr]]]]; rewrite Hc.
  - left. split; reflexivity.
  - right. exists c. split; [reflexivity|]. split; [assumption|].
    cbn [fmul fsub lift2]. rewrite fsqrt_Some by nra. reflexivity.
Qed.

(** After its three [torch.where], the weight of a corner is finite when the
    values [si] of the face are and the corner is not at distance zero. *)
Lemma wi_finite (Fc b p f s : nat) :
  (forall t, (t < 3)%nat -> is_finite (si query vertices faces b p f t) = true) ->
  di query vertices faces b p f s <> 0 ->
  is_finite (wi query vertices faces Fc b p f s) = true.
Proof.
  intros Hsi Hdi. unfold wi. rewrite !theta_i_value.
  destruct (inside_triangle query vertices faces b p f); [reflexivity|].
  destruct (existsb (inside_triangle query vertices faces b p) (seq 0 Fc)); [reflexivity|].
  destruct (existsb _ [0; 1; 2]%nat) eqn:Eany; [reflexivity|].
  pose proof (Hsi (next s) (next_lt s)) as Hn.
  pose proof (Hsi (prev s) (prev_lt s)) as Hp.
  destruct (si_cases b p f (next s)) as [[_ E]|[cn [Ecn [_ _]]]];
    [rewrite E in Hn; discriminate|].
  destruct (si_cases b p f (prev s)) as [[_ E]|[cp [Ecp [_ Esp]]]];
    [rewrite E in Hp; discriminate|].
  rewrite Ecn, Ecp, Esp. cbn [fsin lift1 option_map fmul fsub lift2].
  assert (Hsp : fle (fabs (si query vertices faces b p f (prev s))) 1e-5 = false).
  { destruct (fle (fabs (si query vertices faces b p f (prev s))) 1e-5) eqn:E; [|reflexivity].
    exfalso. apply (eq_true_false_abs _ (proj2 (existsb_exists _ _)
      (ex_intro _ (prev s) (conj (prev_in s) E))) Eany). }
  rewrite Esp in Hsp. cbn [fabs lift1 option_map fle] in Hsp.
  destruct (Rle_dec _ 1e-5) as [|Hgt]; [discriminate|].
  assert (Hs0 : sign (det (ui query vertices faces b p f 0)
                          (ui query vertices faces b p f 1)
                          (ui query vertices faces b p f 2)) * sqrt (1 - cp * cp) <> 0).
  { intros E0. rewrite E0, Rabs_R0 in Hgt. lra. }
  assert (Hsn : sin (theta query vertices faces b p f (next s)) <> 0).
  { destruct (ci_cases b p f (prev s)) as [[_ E]|[HD _]]; [congruence|].
    rewrite prev_prev in HD. intros E0. apply HD. rewrite E0. ring. }
  unfold fdiv. destruct (Req_dec_T _ 0) as [E0|]; [|reflexivity].
  exfalso. apply Rmult_integral in E0 as [E0|E0]; [|contradiction].
  apply Rmult_integral in E0 as [E0|E0]; contradiction.
Qed.

End FaceAngles.

(** ** Mean value coordinates: the tensors of the call *)

Lemma in_indices3 (b p n B P N : nat) :
  In [b; p; n] (indices [B; P; N]) <-> (b < B)%nat /\ (p < P)%nat /\ (n < N)%nat.
Proof.
  rewrite !in_indices_cons. simpl. intuition.
Qed.

Lemma in_indices4 (b p f s B P Fc S_ : nat) :
  In [b; p; f; s] (indices [B; P; Fc; S_])
  <-> (b < B)%nat /\ (p < P)%nat /\ (f < Fc)%nat /\ (s < S_)%nat.
Proof.
  rewrite !in_indices_cons. simpl. intuition.
Qed.

Lemma check_values_per_corner (B P Fc : nat) (g : nat -> nat -> nat -> nat -> fl) :
  check_values (per_corner B P Fc None g) = true
  <-> forall b p f s, (b < B)%nat -> (p < P)%nat -> (f < Fc)%nat -> (s < 3)%nat ->
                      is_finite (g b p f s) = true.
Proof.
  unfold check_values, elements. rewrite forallb_forall. cbn [shape get per_corner]. split.
  - intros Hall b p f s Hb Hp Hf Hs. apply (Hall (g b p f s)).
    apply in_map_iff. exists [b; p; f; s]. split; [reflexivity|].
    apply in_indices4. auto.
  - intros Hall x Hx. apply in_map_iff in Hx as [I [<- HI]].
    pose proof (in_indices_length _ _ HI) as Hlen.
    destruct I as [|b [|p [|f [|s [|]]]]]; try discriminate.
    apply in_indices4 in HI as [Hb [Hp [Hf Hs]]]. now apply Hall.
Qed.

Lemma at_most_one (i n : nat) :
  (i < n)%nat -> (if (n =? 1)%nat then O else i) = i.
Proof. intros Hi. destruct (Nat.eqb_spec n 1); lia. Qed.

Lemma bidx3 (B P K b p n : nat) :
  (b < B)%nat -> (p < P)%nat ->
  bidx [B; P; K] [b; p; n] = [b; p; if (K =? 1)%nat then O else n].
Proof.
  intros Hb Hp. simpl.
  destruct (Nat.eqb_spec B 1), (Nat.eqb_spec P 1); repeat f_equal; lia.
Qed.

Lemma broadcast_shape_last1 (B P K : nat) :
  broadcast_shape [B; P; 1%nat] [B; P; K] = Some [B; P; K].
Proof.
  destruct K as [|[|K]]; simpl; rewrite !Nat.eqb_refl; reflexivity.
Qed.

Lemma existsb_map {X Y : Type} (f : Y -> bool) (g : X -> Y) (l : list X) :
  existsb f (map g l) = existsb (fun x => f (g x)) l.
Proof. induction l as [|x l IH]; simpl; [reflexivity | now rewrite IH]. Qed.

Lemma existsb_false {X : Type} (f : X -> bool) (l : list X) (x : X) :
  existsb f l = false -> In x l -> f x = false.
Proof.
  intros He Hx. destruct (f x) eqn:E; [|reflexivity].
  exfalso. apply (eq_true_false_abs _ (proj2 (existsb_exists _ _)
                                        (ex_intro _ x (conj Hx E))) He).
Qed.

Lemma is_finite_fold_fadd (l : list fl) (a : R) :
  Forall (fun x => is_finite x = true) l ->
  is_finite (fold_left fadd l (Some a)) = true.
Proof.
  intros Hl. revert a. induction Hl as [|x l Hx Hl IH]; intros a; simpl; [reflexivity|].
  destruct x as [v|]; [|discriminate]. simpl. apply IH.
Qed.

(** The face index at position [k] of the reshaped [(B, P, F*3)] index. *)
Lemma reshape_faces_in_range (faces : tensor Z) (B P Fc N : nat) :
  shape faces = [B; Fc; 3%nat] ->
  index_in_range faces N = true ->
  forall b f s, (b < B)%nat -> (f < Fc)%nat -> (s < 3)%nat ->
    (0 <= get faces [b; f; s] < Z.of_nat N)%Z.
Proof.
  intros Hs Hr b f s Hb Hf Hs3. unfold index_in_range in Hr.
  rewrite forallb_forall in Hr.
  assert (Hin : In (get faces [b; f; s]) (elements faces)).
  { unfold elements. apply in_map. rewrite Hs. apply in_indices3. auto. }
  apply Hr in Hin. apply andb_true_iff in Hin as [H1 H2].
  apply Z.leb_le in H1. apply Z.ltb_lt in H2. lia.
Qed.

Lemma div3_lt (k Fc : nat) : (k < Fc * 3)%nat -> (k / 3 < Fc)%nat /\ (k mod 3 < 3)%nat.
Proof.
  intros Hk. split.
  - apply Nat.Div0.div_lt_upper_bound. lia.
  - apply Nat.mod_upper_bound. lia.
Qed.

Section Weights.
Variables (query vertices : tensor R) (faces : tensor Z).

(** What a call of [vertex_weights] that returns has computed. *)
Lemma vertex_weights_returned_size (wj : tensor fl) :
  vertex_weights query vertices faces = Ok wj ->
  exists (B P N Fc K : nat) (out : tensor fl),
    shape faces = [B; Fc; 3%nat] /\ shape query = [B; P; 3%nat] /\
    shape vertices = [B; N; 3%nat] /\
    index_in_range faces N = true /\
    (forall b p f s, (b < B)%nat -> (p < P)%nat -> (f < Fc)%nat -> (s < 3)%nat ->
       is_finite (si query vertices faces b p f s) = true) /\
    scatter_add (reshape_faces B P Fc (Some 0) (wi query vertices faces Fc))
                (reshape_faces B P Fc 0%Z (fun b _ f s => get faces [b; f; s]))
                2 None (Some 0) = Ok out /\
    shape out = [B; P; K] /\
    (K = N \/ K = 1%nat) /\
    shape wj = [B; P; N] /\
    forall b p n, (b < B)%nat -> (p < P)%nat -> (n < N)%nat ->
      get wj [b; p; n]
      = if close_to_point query vertices b p n then Some 1
        else if existsb (close_to_point query vertices b p) (seq 0 N) then Some 0
             else get out [b; p; if (K =? 1)%nat then O else n].
Proof.
  unfold vertex_weights. intros Hret.
  destruct (shape faces) as [|B [|Fc [|[|[|[|[|k]]]] [|? ?]]]] eqn:HF; try discriminate Hret.
  destruct (shape query) as [|Bq [|P [|[|[|[|[|k]]]] [|? ?]]]] eqn:HQ; try discriminate Hret.
  destruct (shape vertices) as [|Bv [|N [|[|[|[|[|k]]]] [|? ?]]]] eqn:HV; try discriminate Hret.
  destruct (_ && _) eqn:Hcond in Hret; [|discriminate Hret].
  apply andb_true_iff in Hcond as [Hcond Hrange].
  apply andb_true_iff in Hcond as [HBq HBv].
  apply Nat.eqb_eq in HBq, HBv. subst Bq Bv.
  destruct (check_values (per_corner B P Fc None (theta_i query vertices faces)));
    [|discriminate Hret].
  destruct (check_values (per_corner B P Fc None (si query vertices faces))) eqn:Hsi;
    [|discriminate Hret].
  destruct (check_values (per_corner B P Fc None (fun b p f s => Some (di _ _ _ b p f s))));
    [|discriminate Hret].
  cbn [assert_ bind] in Hret.
  destruct (scatter_add _ _ 2 None (Some 0)) as [out|] eqn:Hout; [|discriminate Hret].
  cbn [bind] in Hret.
  destruct (scatter_add_returned _ _ _ _ _ Hout) as [m [Hm [Hm0 [Hshape _]]]].
  cbn [shape reshape_faces set_nth] in Hshape.
  set (K := Z.to_nat (m + 1)) in *.
  unfold reduce_keepdim in Hret. cbn [shape length Nat.ltb Nat.leb bind set_nth] in Hret.
  destruct (broadcast2_spec (fun (c : bool) (w : fl) => if c then Some 0 else w)
              (mkTensor [B; P; 1%nat]
                 (fun I => existsb (fun c : bool => c)
                             (slice_along
                                (mkTensor [B; P; N]
                                   (fun I => match I with
                                             | [b; p; n] => close_to_point query vertices b p n
                                             | _ => false
                                             end)) 2 I)))
              out [B; P; K]) as [wj0 [E0 [Hs0 Hg0]]].
  { exact (eq_trans (f_equal (broadcast_shape [B; P; 1%nat]) Hshape)
                    (broadcast_shape_last1 B P K)). }
  rewrite E0 in Hret. cbn [bind] in Hret. change (option R) with fl in *.
  unfold broadcast2 in Hret. cbn [shape] in Hret. rewrite Hs0 in Hret.
  destruct (broadcast_shape [B; P; N] [B; P; K]) as [sh|] eqn:Hsh; [|discriminate Hret].
  injection Hret as <-. cbn [shape get].
  (* the scattered size is the number of vertices, or one *)
  assert (HK : sh = [B; P; N] /\ (K = N \/ K = 1%nat)).
  { revert Hsh. simpl. rewrite !Nat.eqb_refl.
    destruct (Nat.eqb_spec N K) as [->|HNK]; [intros [= <-]; auto|].
    destruct (Nat.eqb_spec N 1) as [->|HN1].
    - intros _. exfalso. apply tmax_Some in Hm as [Hin _].
      unfold elements in Hin. apply in_map_iff in Hin as [I [HI Hin]].
      cbn [shape reshape_faces] in Hin.
      pose proof (in_indices_length _ _ Hin) as Hlen.
      destruct I as [|b [|p [|k [|]]]]; try discriminate.
      apply in_indices3 in Hin as [Hb [Hp Hk]]. cbn [get reshape_faces] in HI.
      destruct (div3_lt k Fc Hk) as [Hf Hs3].
      pose proof (reshape_faces_in_range faces B P Fc 1 HF Hrange b _ _ Hb Hf Hs3).
      unfold K in HNK. lia.
    - destruct (Nat.eqb_spec K 1) as [->|]; [intros [= <-]; auto | discriminate]. }
  destruct HK as [-> HK].
  exists B, P, N, Fc, K, out. repeat (split; [reflexivity || assumption|]).
  split; [now apply check_values_per_corner|].
  split; [exact Hout|]. split; [exact Hshape|]. split; [exact HK|]. split; [reflexivity|].
  intros b p n Hb Hp Hn.
  rewrite (at_most_one b B Hb), (at_most_one p P Hp), (at_most_one n N Hn).
  destruct (close_to_point query vertices b p n); [reflexivity|].
  rewrite Hg0. cbn [shape]. rewrite Hshape.
  rewrite (bidx3 B P 1 b p _ Hb Hp), (bidx3 B P K b p _ Hb Hp). cbn [Nat.eqb get].
  unfold slice_along. cbn [shape nth set_nth get]. rewrite existsb_map.
  destruct (existsb _ (seq 0 N)); [reflexivity|].
  destruct (K =? 1)%nat; reflexivity.
Qed.

Lemma vertex_weights_returned (wj : tensor fl) :
  vertex_weights query vertices faces = Ok wj ->
  exists (B P N Fc K : nat) (out : tensor fl),
    shape faces = [B; Fc; 3%nat] /\ shape query = [B; P; 3%nat] /\
    shape vertices = [B; N; 3%nat] /\
    index_in_range faces N = true /\
    (forall b p f s, (b < B)%nat -> (p < P)%nat -> (f < Fc)%nat -> (s < 3)%nat ->
       is_finite (si query vertices faces b p f s) = true) /\
    scatter_add (reshape_faces B P Fc (Some 0) (wi query vertices faces Fc))
                (reshape_faces B P Fc 0%Z (fun b _ f s => get faces [b; f; s]))
                2 None (Some 0) = Ok out /\
    shape out = [B; P; K] /\
    shape wj = [B; P; N] /\
    forall b p n, (b < B)%nat -> (p < P)%nat -> (n < N)%nat ->
      get wj [b; p; n]
      = if close_to_point query vertices b p n then Some 1
        else if existsb (close_to_point query vertices b p) (seq 0 N) then Some 0
             else get out [b; p; if (K =? 1)%nat then O else n].
Proof.
  intros Hret.
  destruct (vertex_weights_returned_size wj Hret)
    as [B [P [N [Fc [K [out [H1 [H2 [H3 [H4 [H5 [H6 [H7 [_ [H8 H9]]]]]]]]]]]]]]].
  exists B, P, N, Fc, K, out. repeat (split; [assumption|]). exact H9.
Qed.

End Weights.

Section WeightsFinite.
Variables (query vertices : tensor R) (faces : tensor Z).

(** Every weight of a call that returns is finite: the faces that would
    divide by zero are either rejected by the [assert] on [si], or zeroed,
    or belong to a query that lies on a vertex. *)
Lemma vertex_weights_finite (wj : tensor fl) (b p n : nat) :
  vertex_weights query vertices faces = Ok wj ->
  (b < nth 0 (shape wj) O)%nat -> (p < nth 1 (shape wj) O)%nat ->
  (n < nth 2 (shape wj) O)%nat ->
  is_finite (get wj [b; p; n]) = true.
Proof.
  intros Hret.
  destruct (vertex_weights_returned query vertices faces wj Hret)
    as [B [P [N [Fc [K [out [HF [HQ [HV [Hrange [Hsi [Hout [Hshape [Hwj Hget]]]]]]]]]]]]]].
  rewrite Hwj. cbn [nth]. intros Hb Hp Hn. rewrite (Hget b p n Hb Hp Hn).
  destruct (close_to_point query vertices b p n); [reflexivity|].
  destruct (existsb _ (seq 0 N)) eqn:Hany; [reflexivity|].
  destruct (scatter_add_returned _ _ _ _ _ Hout) as [m [_ [_ [_ Hval]]]].
  rewrite Hval. apply is_finite_fold_fadd. apply Forall_map, Forall_forall.
  intros I HI. unfold scattered_to in HI. apply filter_In in HI as [HI Ht].
  cbn [shape reshape_faces] in HI.
  pose proof (in_indices_length _ _ HI) as Hlen.
  destruct I as [|b0 [|p0 [|k0 [|]]]]; try discriminate.
  apply in_indices3 in HI as [Hb0 [Hp0 Hk0]].
  apply index_eqb_eq in Ht. unfold target in Ht. cbn [set_nth] in Ht.
  injection Ht as <- <- _. cbn [get reshape_faces].
  destruct (div3_lt k0 Fc Hk0) as [Hf Hs3].
  apply wi_finite.
  - intros t Ht. now apply Hsi.
  - pose proof (reshape_faces_in_range faces B P Fc N HF Hrange b _ _ Hb Hf Hs3) as Hr.
    unfold di.
    assert (Hc : close_to_point query vertices b p
                   (Z.to_nat (get faces [b; (k0 / 3)%nat; (k0 mod 3)%nat])) = false).
    { apply (existsb_false _ _ _ Hany). apply in_seq. lia. }
    unfold close_to_point in Hc. destruct (Rlt_dec _ 1e-8); [discriminate|]. lra.
Qed.

End WeightsFinite.

(** ** Mean value coordinates: the normalisation of a row *)

Lemma mean_value_coordinates_3D_returned (query vertices : tensor R) (faces : tensor Z)
      (wj : tensor fl) (B P N : nat) :
  vertex_weights query vertices faces = Ok wj ->
  shape wj = [B; P; N] ->
  exists w, mean_value_coordinates_3D query vertices faces = Ok w /\
            shape w = [B; P; N] /\
            forall b p n, (b < B)%nat -> (p < P)%nat -> (n < N)%nat ->
              get w [b; p; n]
              = fdiv (get wj [b; p; n])
                     (if feqb (row_total wj b p) 0 then Some 1 else row_total wj b p).
Proof.
  intros Hret Hs. unfold mean_value_coordinates_3D. rewrite Hret. cbn [bind].
  unfold sum_keepdim, reduce_keepdim. rewrite Hs. cbn [length Nat.ltb Nat.leb bind].
  destruct (broadcast2_spec fdiv wj
              (tmap (fun s => if feqb s 0 then Some 1 else s)
                    (mkTensor (set_nth 2 1%nat [B; P; N])
                       (fun I => fsum (slice_along wj 2 I)))) [B; P; N])
    as [w [Ew [Hsw Hgw]]].
  { cbn [shape tmap]. rewrite Hs. apply broadcast_shape_set1. }
  exists w. split; [exact Ew|]. split; [exact Hsw|].
  intros b p n Hb Hp Hn. rewrite Hgw. cbn [shape tmap get]. rewrite Hs.
  rewrite (bidx_in_range [B; P; N] [b; p; n]) by (apply in_indices3; auto).
  cbn [set_nth]. rewrite (bidx3 B P 1 b p n Hb Hp). cbn [Nat.eqb].
  unfold slice_along, row_total. rewrite Hs. cbn [nth set_nth]. reflexivity.
Qed.

Lemma mean_value_coordinates_3D_weights (query vertices : tensor R) (faces : tensor Z)
      (w : tensor fl) :
  mean_value_coordinates_3D query vertices faces = Ok w ->
  exists wj, vertex_weights query vertices faces = Ok wj.
Proof.
  unfold mean_value_coordinates_3D.
  destruct (vertex_weights query vertices faces) as [wj|]; [eauto | discriminate].
Qed.

Lemma row_total_finite (w : tensor fl) (b p : nat) :
  (forall n, (n < nth 2 (shape w) O)%nat -> is_finite (get w [b; p; n]) = true) ->
  row_total w b p
  = Some (Rsum (map (fun n => real_of (get w [b; p; n])) (seq 0 (nth 2 (shape w) O)))).
Proof.
  intros Hfin. unfold row_total. rewrite fsum_finite.
  - now rewrite map_map.
  - apply Forall_map, Forall_forall. intros n Hn. apply Hfin. apply in_seq in Hn. lia.
Qed.

Lemma finite_real_of (x : fl) : is_finite x = true -> x = Some (real_of x).
Proof. destruct x; [reflexivity | discriminate]. Qed.

Lemma Rsum_indicator (j N : nat) :
  (j < N)%nat ->
  Rsum (map (fun n => if (n =? j)%nat then 1 else 0) (seq 0 N)) = 1.
Proof.
  induction N as [|N IH]; intros Hj; [lia|].
  rewrite seq_S, map_app, Rsum_app. cbn [Nat.add map]. simpl (Rsum [_]).
  destruct (Nat.eqb_spec N j) as [->|Hne].
  - rewrite Rsum_map_zero; [lra|].
    intros n Hn. apply in_seq in Hn. destruct (Nat.eqb_spec n j); [lia | reflexivity].
  - rewrite IH by lia. lra.
Qed.

(** The row of a query that returns, in terms of the weights before the
    normalisation, when these are finite. *)
Lemma normalised_row (query vertices : tensor R) (faces : tensor Z) (w : tensor fl) :
  mean_value_coordinates_3D query vertices faces = Ok w ->
  exists wj, vertex_weights query vertices faces = Ok wj /\
    shape w = shape wj /\
    length (shape w) = 3%nat /\
    forall b p, (b < nth 0 (shape w) O)%nat -> (p < nth 1 (shape w) O)%nat ->
      (forall n, (n < nth 2 (shape w) O)%nat -> is_finite (get wj [b; p; n]) = true) ->
      exists s : R,
        row_total wj b p = Some s /\
        (forall n, (n < nth 2 (shape w) O)%nat ->
           get wj [b; p; n] = Some (real_of (get wj [b; p; n])) /\
           get w [b; p; n]
           = Some (real_of (get wj [b; p; n]) / (if Req_dec_T s 0 then 1 else s))).
Proof.
  intros Hw. destruct (mean_value_coordinates_3D_weights _ _ _ _ Hw) as [wj Hwj].
  destruct (vertex_weights_returned _ _ _ _ Hwj)
    as [B [P [N [Fc [K [out [_ [_ [_ [_ [_ [_ [_ [Hs _]]]]]]]]]]]]]].
  destruct (mean_value_coordinates_3D_returned _ _ _ _ B P N Hwj Hs) as [w' [Hw' [Hsw Hgw]]].
  rewrite Hw in Hw'. injection Hw' as <-.
  exists wj. split; [exact Hwj|]. split; [congruence|]. rewrite Hsw. split; [reflexivity|].
  cbn [nth]. intros b p Hb Hp Hfin.
  assert (Hfin' : forall n, (n < nth 2 (shape wj) O)%nat ->
                            is_finite (get wj [b; p; n]) = true).
  { intros n Hn. apply Hfin. rewrite Hs in Hn. exact Hn. }
  pose proof (row_total_finite wj b p Hfin') as Hrow.
  eexists. split; [exact Hrow|]. intros n Hn.
  pose proof (finite_real_of _ (Hfin n Hn)) as Hx.
  split; [exact Hx|].
  rewrite (Hgw b p n Hb Hp Hn), Hrow. rewrite Hx at 1. cbn [feqb].
  destruct (Req_dec_T _ 0) as [E0|Hne].
  - apply fdiv_Some. lra.
  - now apply fdiv_Some.
Qed.



(** With [check_values] testing for nan and infinity, the weights of every
    row of a call that returns do have a finite sum. *)
Lemma vertex_weights_row_total (query vertices : tensor R) (faces : tensor Z)
      (wj : tensor fl) (b p : nat) :
  vertex_weights query vertices faces = Ok wj ->
  (b < nth 0 (shape wj) O)%nat -> (p < nth 1 (shape wj) O)%nat ->
  exists s, row_total wj b p = Some s.
Proof.
  intros Hwj Hb Hp. eexists. apply row_total_finite.
  intros n Hn. now apply (vertex_weights_finite _ _ _ _ _ _ _ Hwj).
Qed.

(** ** Mean value coordinates: a query on a vertex *)

Lemma mean_value_coordinates_3D_shape (query vertices : tensor R) (faces : tensor Z)
      (w : tensor fl) :
  mean_value_coordinates_3D query vertices faces = Ok w ->
  shape w = [nth 0 (shape query) O; nth 1 (shape query) O; nth 1 (shape vertices) O].
Proof.
  intros Hw. destruct (mean_value_coordinates_3D_weights _ _ _ _ Hw) as [wj Hwj].
  destruct (vertex_weights_returned _ _ _ _ Hwj)
    as [B [P [N [Fc [K [out [_ [HQ [HV [_ [_ [_ [_ [Hs _]]]]]]]]]]]]]].
  destruct (mean_value_coordinates_3D_returned _ _ _ _ B P N Hwj Hs) as [w' [Hw' [Hsw _]]].
  rewrite Hw in Hw'. injection Hw' as <-. rewrite Hsw, HQ, HV. reflexivity.
Qed.

(** The row of a query that is close to some vertex: the vertices it is close
    to share the weight equally, every other vertex has weight zero. *)
Lemma coincident_row (query vertices : tensor R) (faces : tensor Z) (w : tensor fl)
      (b p : nat) :
  mean_value_coordinates_3D query vertices faces = Ok w ->
  (b < nth 0 (shape w) O)%nat -> (p < nth 1 (shape w) O)%nat ->
  existsb (close_to_point query vertices b p) (seq 0 (nth 2 (shape w) O)) = true ->
  1 <= close_count query vertices (nth 2 (shape w) O) b p /\
  forall n, (n < nth 2 (shape w) O)%nat ->
    get w [b; p; n]
    = Some ((if close_to_point query vertices b p n then 1 else 0)
            / close_count query vertices (nth 2 (shape w) O) b p).
Proof.
  intros Hw Hb Hp Hany.
  destruct (normalised_row _ _ _ _ Hw) as [wj [Hwj [Hs [_ Hrow]]]].
  destruct (vertex_weights_returned _ _ _ _ Hwj)
    as [B [P [N [Fc [K [out [_ [_ [_ [_ [_ [_ [_ [Hswj Hget]]]]]]]]]]]]]].
  rewrite Hs, Hswj in *. cbn [nth] in *.
  assert (Hind : forall n, (n < N)%nat ->
            get wj [b; p; n]
            = Some (if close_to_point query vertices b p n then 1 else 0)).
  { intros n Hn. rewrite (Hget b p n Hb Hp Hn), Hany.
    destruct (close_to_point query vertices b p n); reflexivity. }
  destruct (Hrow b p Hb Hp) as [s [Htot Hval]].
  { intros n Hn. now rewrite (Hind n Hn). }
  assert (Hcount : s = close_count query vertices N b p).
  { assert (E : Some s = Some (close_count query vertices N b p)); [|now injection E].
    rewrite <- Htot. rewrite row_total_finite.
    - rewrite Hswj. cbn [nth]. f_equal. unfold close_count. apply Rsum_map_ext.
      intros n Hn. apply in_seq in Hn. rewrite Hind by lia. reflexivity.
    - rewrite Hswj. cbn [nth]. intros n Hn. now rewrite (Hind n Hn). }
  assert (Hge : 1 <= close_count query vertices N b p).
  { apply existsb_exists in Hany as [n0 [Hn0 Hc0]]. unfold close_count.
    apply Rsum_ge_term.
    - intros y Hy. apply in_map_iff in Hy as [n [<- _]].
      destruct (close_to_point query vertices b p n); lra.
    - apply in_map_iff. exists n0. rewrite Hc0. auto. }
  split; [exact Hge|]. intros n Hn. destruct (Hval n Hn) as [_ Hy].
  rewrite Hy, (Hind n Hn), Hcount. cbn [real_of].
  destruct (Req_dec_T (close_count query vertices N b p) 0); [lra | reflexivity].
Qed.

(** C8, amended: for a call that returns, if the query is close to vertex [j]
    (distance below 1e-8) and to no other vertex, the row of weights has as
    many entries as the mesh has vertices, and is zero at every index except
    [j], where it is 1. *)
Theorem mean_value_coordinates_3D_vertex_reproduction
        (query vertices : tensor R) (faces : tensor Z) (w : tensor fl) (b p j : nat) :
  mean_value_coordinates_3D query vertices faces = Ok w ->
  (b < nth 0 (shape w) O)%nat -> (p < nth 1 (shape w) O)%nat ->
  (j < nth 2 (shape w) O)%nat ->
  close_to_point query vertices b p j = true ->
  (forall n, (n < nth 2 (shape w) O)%nat -> n <> j ->
             close_to_point query vertices b p n = false) ->
  nth 2 (shape w) O = nth 1 (shape vertices) O /\
  forall n, (n < nth 2 (shape w) O)%nat ->
    get w [b; p; n] = Some (if (n =? j)%nat then 1 else 0).
Proof.
  intros Hw Hb Hp Hj Hclose Hothers.
  split; [rewrite (mean_value_coordinates_3D_shape _ _ _ _ Hw); reflexivity|].
  assert (Hany : existsb (close_to_point query vertices b p)
                         (seq 0 (nth 2 (shape w) O)) = true).
  { apply existsb_exists. exists j. split; [apply in_seq; lia | exact Hclose]. }
  destruct (coincident_row _ _ _ _ b p Hw Hb Hp Hany) as [_ Hrow].
  assert (Hcount : close_count query vertices (nth 2 (shape w) O) b p = 1).
  { unfold close_count.
    transitivity (Rsum (map (fun n => if (n =? j)%nat then 1 else 0)
                            (seq 0 (nth 2 (shape w) O))));
      [|now apply Rsum_indicator].
    apply Rsum_map_ext.
    intros n Hn. apply in_seq in Hn. destruct (Nat.eqb_spec n j) as [->|Hne].
    - now rewrite Hclose.
    - rewrite Hothers by lia. reflexivity. }
  intros n Hn. rewrite (Hrow n Hn), Hcount. f_equal.
  destruct (Nat.eqb_spec n j) as [->|Hne].
  - rewrite Hclose. lra.
  - rewrite Hothers by lia. lra.
Qed.

(** ** Mean value coordinates: calls that return *)

Section Returns.
Variables (query vertices : tensor R) (faces : tensor Z) (B P N Fc : nat).
Hypothesis HF : shape faces = [B; Fc; 3%nat].
Hypothesis HQ : shape query = [B; P; 3%nat].
Hypothesis HV : shape vertices = [B; N; 3%nat].
Hypothesis HB : (0 < B)%nat.
Hypothesis HP : (0 < P)%nat.
Hypothesis HFc : (0 < Fc)%nat.
Hypothesis Hrange : index_in_range faces N = true.
Hypothesis Hlast :
  exists b f s, (b < B)%nat /\ (f < Fc)%nat /\ (s < 3)%nat
                /\ get faces [b; f; s] = (Z.of_nat N - 1)%Z.
Hypothesis Hchord :
  forall b p f s, (b < B)%nat -> (p < P)%nat -> (f < Fc)%nat -> (s < 3)%nat ->
    0 < chord query vertices faces b p f s.

Lemma si_finite_of_chords (b p f s : nat) :
  (b < B)%nat -> (p < P)%nat -> (f < Fc)%nat ->
  is_finite (si query vertices faces b p f s) = true.
Proof.
  intros Hb Hp Hf.
  pose proof (sin_theta_pos query vertices faces b p f (next s)
                (Hchord b p f _ Hb Hp Hf (next_lt s))) as H1.
  pose proof (sin_theta_pos query vertices faces b p f (prev s)
                (Hchord b p f _ Hb Hp Hf (prev_lt s))) as H2.
  destruct (si_cases query vertices faces b p f s) as [[Hc _]|[c [_ [_ E]]]].
  - destruct (ci_cases query vertices faces b p f s) as [[H0 _]|[_ [c [Ec _]]]];
      [nra | congruence].
  - rewrite E. reflexivity.
Qed.

(** The face indices scattered to: the entries of [faces]. *)
Lemma scattered_index_elements (v : Z) :
  In v (elements (reshape_faces B P Fc 0%Z (fun b _ f s => get faces [b; f; s]))) ->
  exists b f s, (b < B)%nat /\ (f < Fc)%nat /\ (s < 3)%nat /\ v = get faces [b; f; s].
Proof.
  unfold elements. intros Hin. apply in_map_iff in Hin as [I [HI Hin]].
  cbn [shape reshape_faces] in Hin.
  pose proof (in_indices_length _ _ Hin) as Hlen.
  destruct I as [|b [|p [|k [|]]]]; try discriminate.
  apply in_indices3 in Hin as [Hb [Hp Hk]]. cbn [get reshape_faces] in HI.
  destruct (div3_lt k Fc Hk) as [Hf Hs3].
  exists b, (k / 3)%nat, (k mod 3)%nat. auto.
Qed.

Lemma vertex_weights_returns :
  exists wj, vertex_weights query vertices faces = Ok wj /\ shape wj = [B; P; N].
Proof.
  unfold vertex_weights. rewrite HF, HQ, HV, !Nat.eqb_refl, Hrange. cbn [andb].
  assert (H1 : check_values (per_corner B P Fc None (theta_i query vertices faces)) = true).
  { apply check_values_per_corner. intros. now rewrite theta_i_value. }
  assert (H2 : check_values (per_corner B P Fc None (si query vertices faces)) = true).
  { apply check_values_per_corner. intros. now apply si_finite_of_chords. }
  assert (H3 : check_values (per_corner B P Fc None
                 (fun b p f s => Some (di query vertices faces b p f s))) = true).
  { apply check_values_per_corner. reflexivity. }
  rewrite H1, H2, H3. cbn [assert_ bind].
  set (idx := reshape_faces B P Fc 0%Z (fun b _ f s => get faces [b; f; s])).
  assert (Hin0 : forall b p k, (b < B)%nat -> (p < P)%nat -> (k < Fc * 3)%nat ->
                   In (get idx [b; p; k]) (elements idx)).
  { intros b p k Hb Hp Hk. unfold elements. apply in_map. cbn [shape idx reshape_faces].
    apply in_indices3. auto. }
  destruct (scatter_add_returns
              (reshape_faces B P Fc (Some 0) (wi query vertices faces Fc)) idx 2 (Some 0))
    as [out Hout].
  { cbn [shape reshape_faces length]. lia. }
  { cbn [shape reshape_faces idx shape_le]. now rewrite !Nat.leb_refl. }
  { intros E. pose proof (Hin0 O O O HB HP ltac:(lia)) as Hin. rewrite E in Hin. exact Hin. }
  { apply Forall_forall. intros v Hv.
    apply scattered_index_elements in Hv as [b [f [s [Hb [Hf [Hs ->]]]]]].
    pose proof (reshape_faces_in_range faces B P Fc N HF Hrange b f s Hb Hf Hs). lia. }
  rewrite Hout. cbn [bind].
  destruct (scatter_add_returned _ _ _ _ _ Hout) as [m [Hm [Hm0 [Hshape _]]]].
  cbn [shape reshape_faces set_nth] in Hshape.
  assert (HmN : Z.to_nat (m + 1) = N).
  { apply tmax_Some in Hm as [Hin Hmax]. rewrite Forall_forall in Hmax.
    apply scattered_index_elements in Hin as [b [f [s [Hb [Hf [Hs Hv]]]]]].
    pose proof (reshape_faces_in_range faces B P Fc N HF Hrange b f s Hb Hf Hs) as Hr.
    destruct Hlast as [b' [f' [s' [Hb' [Hf' [Hs' Hv']]]]]].
    assert (Hle : (get faces [b'; f'; s'] <= m)%Z).
    { apply Hmax. replace [b'; f'; s'] with [b'; ((f' * 3 + s') / 3)%nat; ((f' * 3 + s') mod 3)%nat].
      - apply (Hin0 b' O (f' * 3 + s')%nat Hb' HP). lia.
      - rewrite Nat.div_add_l, Nat.div_small, Nat.add_0_r by lia.
        rewrite Nat.add_comm, Nat.Div0.mod_add, Nat.mod_small by lia. reflexivity. }
    lia. }
  rewrite HmN in Hshape.
  unfold reduce_keepdim. cbn [shape length Nat.ltb Nat.leb bind set_nth].
  destruct (broadcast2_spec (fun (c : bool) (w : fl) => if c then Some 0 else w)
              (mkTensor [B; P; 1%nat]
                 (fun I => existsb (fun c : bool => c)
                             (slice_along
                                (mkTensor [B; P; N]
                                   (fun I => match I with
                                             | [b; p; n] => close_to_point query vertices b p n
                                             | _ => false
                                             end)) 2 I)))
              out [B; P; N]) as [wj0 [E0 [Hs0 Hg0]]].
  { exact (eq_trans (f_equal (broadcast_shape [B; P; 1%nat]) Hshape)
                    (broadcast_shape_last1 B P N)). }
  rewrite E0. cbn [bind].
  destruct (broadcast2_spec (fun (c : bool) (w : fl) => if c then Some 1 else w)
              (mkTensor [B; P; N]
                 (fun I => match I with
                           | [b; p; n] => close_to_point query vertices b p n
                           | _ => false
                           end))
              wj0 [B; P; N]) as [wj [E1 [Hs1 _]]].
  { exact (eq_trans (f_equal (broadcast_shape [B; P; N]) Hs0)
                    (broadcast_shape_refl [B; P; N])). }
  exists wj. split; assumption.
Qed.

Lemma mean_value_coordinates_3D_returns :
  exists w, mean_value_coordinates_3D query vertices faces = Ok w /\ shape w = [B; P; N].
Proof.
  destruct vertex_weights_returns as [wj [Hwj Hs]].
  destruct (mean_value_coordinates_3D_returned _ _ _ _ B P N Hwj Hs) as [w [Hw [Hsw _]]].
  exists w. split; assumption.
Qed.

End Returns.

(** ** Mean value coordinates: a query in the plane of the faces *)






Section Flat.
Variables (query vertices : tensor R) (faces : tensor Z).




End Flat.

(** ** Mean value coordinates on small meshes *)

Lemma dj_value (query vertices : tensor R) (b p n : nat) (m : R) :
  0 <= m ->
  vdot (uj_diff query vertices b p n) (uj_diff query vertices b p n) = m * m ->
  dj query vertices b p n = m.
Proof. intros Hm Hd. unfold dj, vnorm. rewrite Hd. now apply sqrt_square. Qed.

Lemma uj_value (query vertices : tensor R) (b p n : nat) (m : R) :
  dj query vertices b p n = m ->
  uj query vertices b p n
  = let '(x, y, z) := uj_diff query vertices b p n in
    (x / Rmax m 1e-12, y / Rmax m 1e-12, z / Rmax m 1e-12).
Proof.
  intros Hd. unfold uj, normalize. unfold dj in Hd. rewrite Hd. reflexivity.
Qed.

Lemma close_to_point_lt (query vertices : tensor R) (b p n : nat) :
  dj query vertices b p n < 1e-8 -> close_to_point query vertices b p n = true.
Proof. intros Hd. unfold close_to_point. destruct (Rlt_dec _ 1e-8); [reflexivity | lra]. Qed.

Lemma close_to_point_ge (query vertices : tensor R) (b p n : nat) :
  1e-8 <= dj query vertices b p n -> close_to_point query vertices b p n = false.
Proof. intros Hd. unfold close_to_point. destruct (Rlt_dec _ 1e-8); [lra | reflexivity]. Qed.

Lemma vec3_eq (x y z x' y' z' : R) :
  x = x' -> y = y' -> z = z' -> (x, y, z) = (x', y', z').
Proof. now intros -> -> ->. Qed.

(** ** Mean value coordinates: what is scattered over the vertices *)







Section Scattered.
Variables (query vertices : tensor R) (faces : tensor Z).








End Scattered.


(** *** The flat triangle *)



Lemma mv_faces_ui (query vertices : tensor R) (s : nat) :
  ui query vertices mv_faces 0 0 0 s = uj query vertices 0 0 s.
Proof. unfold ui. cbn [get mv_faces]. now rewrite Nat2Z.id. Qed.



Lemma mv_faces_in_range : index_in_range mv_faces 3 = true.
Proof. reflexivity. Qed.



(** *** The query at the centre of a face *)











(** *** The triangle with a corner at the query *)

Lemma corner_dj :
  dj mv_query corner_vertices 0 0 0 = 1 /\ dj mv_query corner_vertices 0 0 1 = 1
  /\ dj mv_query corner_vertices 0 0 2 = 0.
Proof.
  repeat split; apply dj_value; try lra;
    unfold uj_diff, point, vsub, vdot; cbn [get corner_vertices mv_query]; ring.
Qed.

Lemma corner_uj :
  uj mv_query corner_vertices 0 0 0 = (1, 0, 0)
  /\ uj mv_query corner_vertices 0 0 1 = (0, 1, 0)
  /\ uj mv_query corner_vertices 0 0 2 = (0, 0, 0).
Proof.
  destruct corner_dj as [H0 [H1 H2]].
  rewrite (uj_value _ _ _ _ _ _ H0), (uj_value _ _ _ _ _ _ H1), (uj_value _ _ _ _ _ _ H2).
  unfold uj_diff, point, vsub. cbn [get corner_vertices mv_query].
  rewrite !Rmax_left by lra. rewrite Rmax_right by lra.
  repeat split; apply vec3_eq; lra.
Qed.

Lemma corner_chords (s : nat) :
  (s < 3)%nat -> 0 < chord mv_query corner_vertices mv_faces 0 0 0 s.
Proof.
  intros Hs. destruct corner_uj as [H0 [H1 H2]].
  unfold chord. rewrite !mv_faces_ui.
  destruct s as [|[|[|s]]]; [| | |lia]; cbn [next prev]; rewrite ?H0, ?H1, ?H2;
    unfold vnorm, vsub, vdot; apply sqrt_lt_R0; lra.
Qed.

Lemma corner_returns :
  exists w, mean_value_coordinates_3D mv_query corner_vertices mv_faces = Ok w
            /\ shape w = [1; 1; 3]%nat.
Proof.
  apply (mean_value_coordinates_3D_returns mv_query corner_vertices mv_faces 1 1 3 1);
    try reflexivity; try lia.
  - exists O, O, 2%nat. repeat split; lia.
  - intros b p f s Hb Hp Hf Hs.
    assert (b = O) by lia. assert (p = O) by lia. assert (f = O) by lia. subst.
    now apply corner_chords.
Qed.

Lemma corner_close (n : nat) :
  (n < 3)%nat ->
  close_to_point mv_query corner_vertices 0 0 n = (n =? 2)%nat.
Proof.
  intros Hn. destruct corner_dj as [H0 [H1 H2]].
  destruct n as [|[|[|n]]]; [| | |lia]; cbn [Nat.eqb];
    [apply close_to_point_ge | apply close_to_point_ge | apply close_to_point_lt]; lra.
Qed.

Lemma mean_value_coordinates_3D_vertex_reproduction_witness :
  exists w,
    mean_value_coordinates_3D mv_query corner_vertices mv_faces = Ok w /\
    close_to_point mv_query corner_vertices 0 0 2 = true /\
    nth 2 (shape w) O = nth 1 (shape corner_vertices) O /\
    forall n, (n < nth 2 (shape w) O)%nat ->
      get w [0; 0; n]%nat = Some (if (n =? 2)%nat then 1 else 0).
Proof.
  destruct corner_returns as [w [Hw Hs]]. exists w. split; [exact Hw|].
  split; [exact (corner_close 2 ltac:(lia))|].
  apply (mean_value_coordinates_3D_vertex_reproduction
           mv_query corner_vertices mv_faces w 0 0 2 Hw).
  - rewrite Hs. simpl. lia.
  - rewrite Hs. simpl. lia.
  - rewrite Hs. simpl. lia.
  - exact (corner_close 2 ltac:(lia)).
  - rewrite Hs. simpl. intros n Hn Hne. rewrite (corner_close n Hn).
    now apply Nat.eqb_neq.
Defined.

(** The coincident query, evaluated: the row is [[0, 0, 1]]. *)
Example mean_value_coordinates_3D_at_corner :
  exists w, mean_value_coordinates_3D mv_query corner_vertices mv_faces = Ok w /\
    shape w = [1; 1; 3]%nat /\
    get w [0; 0; 0]%nat = Some 0 /\ get w [0; 0; 1]%nat = Some 0
    /\ get w [0; 0; 2]%nat = Some 1 /\ row_total w 0 0 = Some 1.
Proof.
  destruct corner_returns as [w [Hw Hs]]. exists w. split; [exact Hw|]. split; [exact Hs|].
  assert (Hany : existsb (close_to_point mv_query corner_vertices 0 0)
                         (seq 0 (nth 2 (shape w) O)) = true).
  { rewrite Hs. apply existsb_exists. exists 2%nat. split; [simpl; auto|].
    exact (corner_close 2 ltac:(lia)). }
  destruct (coincident_row _ _ _ w 0 0 Hw ltac:(rewrite Hs; simpl; lia)
              ltac:(rewrite Hs; simpl; lia) Hany) as [_ Hrow].
  rewrite Hs in Hrow. cbn [nth] in Hrow.
  assert (Hc : close_count mv_query corner_vertices 3 0 0 = 1).
  { unfold close_count. cbn [seq map]. rewrite !corner_close by lia. simpl. lra. }
  rewrite Hc in Hrow.
  assert (H0 : get w [0; 0; 0]%nat = Some 0)
    by (rewrite Hrow, corner_close by lia; simpl; f_equal; lra).
  assert (H1 : get w [0; 0; 1]%nat = Some 0)
    by (rewrite Hrow, corner_close by lia; simpl; f_equal; lra).
  assert (H2 : get w [0; 0; 2]%nat = Some 1)
    by (rewrite Hrow, corner_close by lia; simpl; f_equal; lra).
  repeat split; try assumption.
  unfold row_total. rewrite Hs. cbn [nth seq map]. rewrite H0, H1, H2.
  unfold fsum. cbn [fold_left fadd lift2]. f_equal. lra.
Qed.

(** *** Two vertices at the query *)

Lemma twin_dj :
  dj mv_query twin_vertices 0 0 0 = 0 /\ dj mv_query twin_vertices 0 0 1 = 1
  /\ dj mv_query twin_vertices 0 0 2 = 1 /\ dj mv_query twin_vertices 0 0 3 = 0.
Proof.
  repeat split; apply dj_value; try lra;
    unfold uj_diff, point, vsub, vdot; cbn [get twin_vertices mv_query]; ring.
Qed.

Lemma twin_uj :
  uj mv_query twin_vertices 0 0 1 = (1, 0, 0)
  /\ uj mv_query twin_vertices 0 0 2 = (0, 1, 0)
  /\ uj mv_query twin_vertices 0 0 3 = (0, 0, 0).
Proof.
  destruct twin_dj as [_ [H1 [H2 H3]]].
  rewrite (uj_value _ _ _ _ _ _ H1), (uj_value _ _ _ _ _ _ H2), (uj_value _ _ _ _ _ _ H3).
  unfold uj_diff, point, vsub. cbn [get twin_vertices mv_query].
  rewrite !Rmax_left by lra. rewrite Rmax_right by lra.
  repeat split; apply vec3_eq; lra.
Qed.

Lemma twin_faces_ui (s : nat) :
  ui mv_query twin_vertices twin_faces 0 0 0 s = uj mv_query twin_vertices 0 0 (S s).
Proof. unfold ui. cbn [get twin_faces]. now rewrite Nat2Z.id. Qed.

Lemma twin_chords (s : nat) :
  (s < 3)%nat -> 0 < chord mv_query twin_vertices twin_faces 0 0 0 s.
Proof.
  intros Hs. destruct twin_uj as [H1 [H2 H3]].
  unfold chord. rewrite !twin_faces_ui.
  destruct s as [|[|[|s]]]; [| | |lia]; cbn [next prev]; rewrite ?H1, ?H2, ?H3;
    unfold vnorm, vsub, vdot; apply sqrt_lt_R0; lra.
Qed.

Lemma twin_returns :
  exists w, mean_value_coordinates_3D mv_query twin_vertices twin_faces = Ok w
            /\ shape w = [1; 1; 4]%nat.
Proof.
  apply (mean_value_coordinates_3D_returns mv_query twin_vertices twin_faces 1 1 4 1);
    try reflexivity; try lia.
  - exists O, O, 2%nat. repeat split; lia.
  - intros b p f s Hb Hp Hf Hs.
    assert (b = O) by lia. assert (p = O) by lia. assert (f = O) by lia. subst.
    now apply twin_chords.
Qed.

Lemma twin_close (n : nat) :
  (n < 4)%nat ->
  close_to_point mv_query twin_vertices 0 0 n = (n =? 0)%nat || (n =? 3)%nat.
Proof.
  intros Hn. destruct twin_dj as [H0 [H1 [H2 H3]]].
  destruct n as [|[|[|[|n]]]]; [| | | |lia]; cbn [Nat.eqb orb];
    [apply close_to_point_lt | apply close_to_point_ge
     | apply close_to_point_ge | apply close_to_point_lt]; lra.
Qed.

(** C8 as stated fails on a mesh that has two vertices at the query: both
    are within 1e-8 of it, both are set to 1, and the normalisation leaves
    each with weight 1/2. *)
Lemma mean_value_coordinates_3D_two_coincident_vertices :
  exists w, mean_value_coordinates_3D mv_query twin_vertices twin_faces = Ok w /\
    shape w = [1; 1; 4]%nat /\
    dj mv_query twin_vertices 0 0 0 < 1e-8 /\
    get w [0; 0; 0]%nat = Some (1 / 2) /\
    get w [0; 0; 1]%nat = Some 0 /\
    get w [0; 0; 2]%nat = Some 0 /\
    get w [0; 0; 3]%nat = Some (1 / 2) /\
    get w [0; 0; 0]%nat <> Some 1.
Proof.
  destruct twin_returns as [w [Hw Hs]]. exists w. split; [exact Hw|]. split; [exact Hs|].
  split; [destruct twin_dj as [H0 _]; rewrite H0; lra|].
  assert (Hany : existsb (close_to_point mv_query twin_vertices 0 0)
                         (seq 0 (nth 2 (shape w) O)) = true).
  { rewrite Hs. apply existsb_exists. exists O. split; [simpl; auto|].
    exact (twin_close 0 ltac:(lia)). }
  destruct (coincident_row _ _ _ w 0 0 Hw ltac:(rewrite Hs; simpl; lia)
              ltac:(rewrite Hs; simpl; lia) Hany) as [_ Hrow].
  rewrite Hs in Hrow. cbn [nth] in Hrow.
  assert (Hc : close_count mv_query twin_vertices 4 0 0 = 2).
  { unfold close_count. cbn [seq map]. rewrite !twin_close by lia. simpl. lra. }
  rewrite Hc in Hrow.
  assert (H0 : get w [0; 0; 0]%nat = Some (1 / 2))
    by (rewrite Hrow, twin_close by lia; reflexivity).
  assert (H1 : get w [0; 0; 1]%nat = Some 0)
    by (rewrite Hrow, twin_close by lia; simpl; f_equal; lra).
  assert (H2 : get w [0; 0; 2]%nat = Some 0)
    by (rewrite Hrow, twin_close by lia; simpl; f_equal; lra).
  assert (H3 : get w [0; 0; 3]%nat = Some (1 / 2))
    by (rewrite Hrow, twin_close by lia; reflexivity).
  repeat split; try assumption.
  rewrite H0. intros E. injection E as E. lra.
Qed.
